(** * pcf2go: a shallow embedding of [src/util/pcf2go.cpp]

    The PCF bitmap-font decoder of vice is modelled function by function.
    C integers are [Z] with the conversions to narrower types written out,
    bytes are [Byte.byte], C strings are [string], the file-scope globals
    the readers depend on (input stream, [read_bytes], [format], [tables])
    are an explicit state, and every call of [exit(1)] is a [Fatal] result.

    The first part holds the embedding, the second part the properties. *)

From Stdlib Require Import ZArith QArith Qround Lia List Bool Floats Uint63.
From Stdlib Require Import Strings.Byte Strings.Ascii.
From stdpp Require Import base list strings.

Set Warnings "-inexact-float".
Open Scope Z_scope.

(** ** Machine integers *)

Module CInt.

(** Conversion of an [int] value to a signed type of [w] bits
    (two's complement, as every supported compiler does it). *)
Definition wrap_signed (w z : Z) : Z :=
  (z + 2 ^ (w - 1)) mod 2 ^ w - 2 ^ (w - 1).

Definition to_char (z : Z) : Z := wrap_signed 8 z.
Definition to_int16 (z : Z) : Z := wrap_signed 16 z.
Definition to_int32 (z : Z) : Z := wrap_signed 32 z.
Definition to_uint8 (z : Z) : Z := z mod 2 ^ 8.
Definition to_uint16 (z : Z) : Z := z mod 2 ^ 16.
Definition to_uint32 (z : Z) : Z := z mod 2 ^ 32.

Definition in_int16 (z : Z) : Prop := - 32768 <= z <= 32767.
Definition in_int32 (z : Z) : Prop := - 2147483648 <= z <= 2147483647.

End CInt.
Import CInt.

(** ** Bytes: [typedef unsigned char byte8] *)

Definition byte8 : Type := Byte.byte.

Definition byte_val (b : byte8) : Z := Z.of_N (Byte.to_N b).

(** Storing an [int] into a [byte8] keeps the low eight bits. *)
Definition byte_of (z : Z) : byte8 :=
  match Byte.of_N (Z.to_N (to_uint8 z)) with
  | Some b => b
  | None => Byte.x00
  end.

(** ** Section formats: [struct format32] *)

Module format32.

Record t : Type := mk {
  id : Z;       (* uint32 :24 *)
  dummy : Z;    (* uint32 :2 *)
  scan : Z;     (* uint32 :2 *)
  bit : Z;      (* uint32 :1 *)
  byte : Z;     (* uint32 :1 *)
  glyph : Z     (* uint32 :2 *)
}.

(** [bool is_little_endian(void) { return !byte; }] *)
Definition is_little_endian (f : t) : bool := byte f =? 0.

End format32.

Definition PCF_DEFAULT_FORMAT : Z := 0.
Definition PCF_INKBOUNDS : Z := 2.
Definition PCF_ACCEL_W_INKBOUNDS : Z := 1.
Definition PCF_COMPRESSED_METRICS : Z := 1.

(** [const format32 BDF_format = { PCF_DEFAULT_FORMAT, 0, 0, 1, 1, 0 };] *)
Definition BDF_format : format32.t :=
  format32.mk PCF_DEFAULT_FORMAT 0 0 1 1 0.

(** [enum type32] *)
Definition PCF_PROPERTIES : Z := Z.shiftl 1 0.
Definition PCF_ACCELERATORS : Z := Z.shiftl 1 1.
Definition PCF_METRICS : Z := Z.shiftl 1 2.
Definition PCF_BITMAPS : Z := Z.shiftl 1 3.
Definition PCF_INK_METRICS : Z := Z.shiftl 1 4.
Definition PCF_BDF_ENCODINGS : Z := Z.shiftl 1 5.
Definition PCF_SWIDTHS : Z := Z.shiftl 1 6.
Definition PCF_GLYPH_NAMES : Z := Z.shiftl 1 7.
Definition PCF_BDF_ACCELERATORS : Z := Z.shiftl 1 8.

Definition GLYPHPADOPTIONS : Z := 4.
Definition NO_SUCH_CHAR : Z := 65535.

(** ** Metrics: [union sv] and [struct metric_t] *)

(** [union sv]: a string pointer or an [int32] sharing storage.  The
    decoder only reads back the member it wrote last, so the union is a
    tagged value; [sv_null] is the NULL string pointer. *)
Inductive sv : Type :=
| sv_null
| sv_s (s : string)
| sv_v (v : Z).

Record metric_t : Type := mk_metric {
  leftSideBearing : Z;    (* int16 *)
  rightSideBearing : Z;   (* int16 *)
  characterWidth : Z;     (* int16 *)
  ascent : Z;             (* int16 *)
  descent : Z;            (* int16 *)
  attributes : Z;         (* uint16 *)
  bitmaps : option Z;     (* start of the glyph in the bitmap buffer; NULL = None *)
  swidth : Z;             (* int32 *)
  glyphName : sv
}.

(** [metric_t(void)] sets [bitmaps] and [glyphName.s] to NULL and leaves
    the numeric members alone.  The readers assign the six geometry members
    and the Swidths step assigns [swidth] before any of them is used, so the
    value they start from does not matter; it is [0] here. *)
Definition metric_init : metric_t :=
  mk_metric 0 0 0 0 0 0 None 0 sv_null.

Definition set_leftSideBearing (v : Z) (m : metric_t) : metric_t :=
  mk_metric v (rightSideBearing m) (characterWidth m) (ascent m) (descent m)
            (attributes m) (bitmaps m) (swidth m) (glyphName m).
Definition set_rightSideBearing (v : Z) (m : metric_t) : metric_t :=
  mk_metric (leftSideBearing m) v (characterWidth m) (ascent m) (descent m)
            (attributes m) (bitmaps m) (swidth m) (glyphName m).
Definition set_characterWidth (v : Z) (m : metric_t) : metric_t :=
  mk_metric (leftSideBearing m) (rightSideBearing m) v (ascent m) (descent m)
            (attributes m) (bitmaps m) (swidth m) (glyphName m).
Definition set_ascent (v : Z) (m : metric_t) : metric_t :=
  mk_metric (leftSideBearing m) (rightSideBearing m) (characterWidth m) v (descent m)
            (attributes m) (bitmaps m) (swidth m) (glyphName m).
Definition set_descent (v : Z) (m : metric_t) : metric_t :=
  mk_metric (leftSideBearing m) (rightSideBearing m) (characterWidth m) (ascent m) v
            (attributes m) (bitmaps m) (swidth m) (glyphName m).
Definition set_attributes (v : Z) (m : metric_t) : metric_t :=
  mk_metric (leftSideBearing m) (rightSideBearing m) (characterWidth m) (ascent m)
            (descent m) v (bitmaps m) (swidth m) (glyphName m).
Definition set_bitmaps (v : option Z) (m : metric_t) : metric_t :=
  mk_metric (leftSideBearing m) (rightSideBearing m) (characterWidth m) (ascent m)
            (descent m) (attributes m) v (swidth m) (glyphName m).
Definition set_swidth (v : Z) (m : metric_t) : metric_t :=
  mk_metric (leftSideBearing m) (rightSideBearing m) (characterWidth m) (ascent m)
            (descent m) (attributes m) (bitmaps m) v (glyphName m).

(** [int16 widthBits(void) { return rightSideBearing - leftSideBearing; }] *)
Definition widthBits (m : metric_t) : Z :=
  to_int16 (rightSideBearing m - leftSideBearing m).

(** [int16 height(void) { return ascent + descent; }] *)
Definition height (m : metric_t) : Z :=
  to_int16 (ascent m + descent m).

(** [static int16 bytesPerRow(int bits, int nbytes)].  The sums are [int]
    sums, written without wrap-around: they leave the [int] range only for
    [bits] within 63 of [INT_MAX], where C leaves them undefined.  The
    returned value is converted to [int16]. *)
Definition bytesPerRow (bits nbytes : Z) : Z :=
  to_int16
    (if nbytes =? 1 then Z.shiftr (bits + 7) 3
     else if nbytes =? 2 then Z.land (Z.shiftr (bits + 15) 3) (Z.lnot 1)
     else if nbytes =? 4 then Z.land (Z.shiftr (bits + 31) 3) (Z.lnot 3)
     else if nbytes =? 8 then Z.land (Z.shiftr (bits + 63) 3) (Z.lnot 7)
     else 0).

(** [int16 widthBytes(format32 f) { return bytesPerRow(widthBits(), 1 << f.glyph); }] *)
Definition widthBytes (m : metric_t) (f : format32.t) : Z :=
  to_int16 (bytesPerRow (widthBits m) (Z.shiftl 1 (format32.glyph f))).

(** ** Table of contents and properties *)

Module table_t.

Record t : Type := mk {
  type : Z;               (* type32 *)
  format : format32.t;
  size : Z;               (* int32 *)
  offset : Z              (* int32 *)
}.

End table_t.

Module props_t.

Record t : Type := mk {
  name : sv;
  isStringProp : bool;
  value : sv
}.

End props_t.

(** ** Fatal exits and the decoder state *)

(** The three ways the decoder leaves through [exit(1)], and the abort
    of a [new T[n]] that throws because [n] is negative. *)
Inductive fatal : Type :=
| error_exit (str : string)
| error_invalid_exit (str : string)
| out_of_range (str : string) (value min : Z)
| bad_alloc.

Inductive result (A : Type) : Type :=
| Ok (a : A)
| Fatal (e : fatal).
Arguments Ok {A} a.
Arguments Fatal {A} e.

#[global] Instance result_ret : MRet result := fun A a => Ok a.
#[global] Instance result_bind : MBind result :=
  fun A B f r => match r with Ok a => f a | Fatal e => Fatal e end.

(** The globals the readers use: the unread rest of [ifp], the counter
    [read_bytes] (a [long], never near its limit), the [format] of the
    current section and the table of contents. *)
Record globals : Type := mk_globals {
  ifp : list byte8;
  read_bytes : Z;
  format : format32.t;
  tables : list table_t.t
}.

Definition set_format (f : format32.t) (g : globals) : globals :=
  mk_globals (ifp g) (read_bytes g) f (tables g).

(** The input after [n] more bytes were taken from it. *)
Definition consumed (n : nat) (g : globals) : globals :=
  mk_globals (drop n (ifp g)) (read_bytes g + Z.of_nat n) (format g) (tables g).

(** A computation over the globals that may exit. *)
Definition M (A : Type) : Type := globals -> result (A * globals).

#[global] Instance M_ret : MRet M := fun A a g => Ok (a, g).
#[global] Instance M_bind : MBind M :=
  fun A B f m g => match m g with Ok (a, g') => f a g' | Fatal e => Fatal e end.

Definition get_format : M format32.t := fun g => Ok (format g, g).
Definition put_format (f : format32.t) : M unit := fun g => Ok (tt, set_format f g).
Definition exit_with {A : Type} (e : fatal) : M A := fun _ => Fatal e.

(** [void check_int32_min(indent, str, value, min)]: exits unless [min <= value]. *)
Definition check_int32_min (str : string) (value min : Z) : M unit :=
  if min <=? value then mret tt else exit_with (out_of_range str value min).

(** ** The byte cursor *)

(** [byte8 *read_byte8s(byte8 *mem, size_t size)]: [fread] of [size] bytes;
    a short read exits. *)
Definition read_byte8s (size : Z) : M (list byte8) := fun g =>
  if (Z.to_nat size <=? length (ifp g))%nat
  then Ok (take (Z.to_nat size) (ifp g), consumed (Z.to_nat size) g)
  else Fatal (error_exit "unexpected eof").

(** [char read8(void)]: [fgetc], count the byte, exit at end of file.
    A plain [char] is signed on the platforms the tool is built for. *)
Definition read8 : M Z := fun g =>
  match ifp g with
  | [] => Fatal (error_exit "unexpected eof")
  | a :: _ => Ok (to_char (byte_val a), consumed 1 g)
  end.

(** [bool8 read_bool8(void) { return (bool8)!!read8(); }] *)
Definition read_bool8 : M bool :=
  a ← read8; mret (negb (a =? 0)).

(** [uint8 read_uint8(void) { return (uint8)read8(); }] *)
Definition read_uint8 : M Z :=
  a ← read8; mret (to_uint8 a).

Definition make_int16 (a b : Z) : Z :=
  let value := Z.shiftl (Z.land a 255) 8 in
  let value := Z.lor value (Z.land b 255) in
  value.

Definition read_int16_big : M Z :=
  a ← read8; b ← read8; mret (make_int16 a b).

Definition read_int16_little : M Z :=
  a ← read8; b ← read8; mret (make_int16 b a).

Definition read_int16 : M Z :=
  f ← get_format;
  if format32.is_little_endian f then read_int16_little else read_int16_big.

Definition make_int32 (a b c d : Z) : Z :=
  let value := to_int32 (Z.shiftl (Z.land a 255) 24) in
  let value := Z.lor value (Z.shiftl (Z.land b 255) 16) in
  let value := Z.lor value (Z.shiftl (Z.land c 255) 8) in
  let value := Z.lor value (Z.land d 255) in
  value.

Definition read_int32_big : M Z :=
  a ← read8; b ← read8; c ← read8; d ← read8; mret (make_int32 a b c d).

Definition read_int32_little : M Z :=
  a ← read8; b ← read8; c ← read8; d ← read8; mret (make_int32 d c b a).

Definition read_int32 : M Z :=
  f ← get_format;
  if format32.is_little_endian f then read_int32_little else read_int32_big.

(** [uint32 read_uint32(void) { return (uint32)read_int32(); }] *)
Definition read_uint32 : M Z :=
  v ← read_int32; mret (to_uint32 v).

(** [format32 read_format32_little(void)]: each bit-field keeps the low
    bits of the shifted word. *)
Definition read_format32_little : M format32.t :=
  v ← read_int32_little;
  mret (format32.mk (Z.shiftr v 8 mod 2 ^ 24) 0 (Z.shiftr v 4 mod 2 ^ 2)
                    (Z.shiftr v 3 mod 2 ^ 1) (Z.shiftr v 2 mod 2 ^ 1)
                    (Z.shiftr v 0 mod 2 ^ 2)).

(** [void skip(int n) { for (; 0 < n; n--) read8(); }] *)
Fixpoint skip_loop (n : nat) : M unit :=
  match n with
  | O => mret tt
  | S n' => _ ← read8; skip_loop n'
  end.

Definition skip (n : Z) : M unit := skip_loop (Z.to_nat n).

(** ** Buffer passes of the Bitmaps decoder *)

(** [for (int i = start; i < size; i += step) body].  [None] is an access
    outside the buffer; [fuel] bounds the number of rounds and
    [Z.to_nat size] rounds always suffice for a positive step. *)
Fixpoint for_loop (fuel : nat) (step i size : Z)
    (body : Z -> list byte8 -> option (list byte8)) (data : list byte8)
    : option (list byte8) :=
  if i <? size then
    match fuel with
    | O => None
    | S fuel' =>
        match body i data with
        | Some data' => for_loop fuel' step (i + step) size body data'
        | None => None
        end
    end
  else Some data.

(** [static const byte8 invert[16]] *)
Definition invert : list Z :=
  [0; 8; 4; 12; 2; 10; 6; 14; 1; 9; 5; 13; 3; 11; 7; 15].

(** The right-hand side of the assignment in [bit_order_invert]. *)
Definition invert_byte (d : byte8) : byte8 :=
  byte_of (Z.lor (Z.shiftl (nth (Z.to_nat (Z.land (byte_val d) 15)) invert 0) 4)
                 (nth (Z.to_nat (Z.land (Z.shiftr (byte_val d) 4) 15)) invert 0)).

Definition bit_order_invert_body (i : Z) (data : list byte8) : option (list byte8) :=
  d ← data !! Z.to_nat i;
  Some (<[Z.to_nat i := invert_byte d]> data).

Definition bit_order_invert (data : list byte8) (size : Z) : option (list byte8) :=
  for_loop (Z.to_nat size) 1 0 size bit_order_invert_body data.

Definition two_byte_swap_body (i : Z) (data : list byte8) : option (list byte8) :=
  tmp ← data !! Z.to_nat i;
  d1 ← data !! Z.to_nat (i + 1);
  Some (<[Z.to_nat (i + 1) := tmp]> (<[Z.to_nat i := d1]> data)).

Definition two_byte_swap (data : list byte8) (size : Z) : option (list byte8) :=
  let size := Z.land size (Z.lnot 1) in
  for_loop (Z.to_nat size) 2 0 size two_byte_swap_body data.

Definition four_byte_swap_body (i : Z) (data : list byte8) : option (list byte8) :=
  tmp ← data !! Z.to_nat i;
  d3 ← data !! Z.to_nat (i + 3);
  let data := <[Z.to_nat i := d3]> data in
  let data := <[Z.to_nat (i + 3) := tmp]> data in
  tmp ← data !! Z.to_nat (i + 1);
  d2 ← data !! Z.to_nat (i + 2);
  let data := <[Z.to_nat (i + 1) := d2]> data in
  let data := <[Z.to_nat (i + 2) := tmp]> data in
  Some data.

Definition four_byte_swap (data : list byte8) (size : Z) : option (list byte8) :=
  let size := Z.land size (Z.lnot 3) in
  for_loop (Z.to_nat size) 4 0 size four_byte_swap_body data.

(** ** Section locator *)

(** The loop of [seek] over [tables[i]], [i < nTables]. *)
Fixpoint seek_loop (ts : list table_t.t) (type : Z) : M bool :=
  match ts with
  | [] => mret false
  | t :: ts' =>
      if table_t.type t =? type then
        fun g =>
          let s := to_int32 (table_t.offset t - read_bytes g) in
          if s <? 0 then Fatal (error_invalid_exit "seek")
          else (_ ← skip s; mret true) g
      else seek_loop ts' type
  end.

(** [bool seek(type32 type)] *)
Definition seek (type : Z) : M bool := fun g => seek_loop (tables g) type g.

(** [bool is_exist_section(type32 type)] *)
Definition is_exist_section (type : Z) (g : globals) : bool :=
  existsb (fun t => table_t.type t =? type) (tables g).

(** ** Metrics decoder *)

(** [void read_metric(metric_t *m)]: each [int] read is stored into an
    [int16] field, the last one into the [uint16] field. *)
Definition read_metric (m : metric_t) : M metric_t :=
  v ← read_int16; let m := set_leftSideBearing (to_int16 v) m in
  v ← read_int16; let m := set_rightSideBearing (to_int16 v) m in
  v ← read_int16; let m := set_characterWidth (to_int16 v) m in
  v ← read_int16; let m := set_ascent (to_int16 v) m in
  v ← read_int16; let m := set_descent (to_int16 v) m in
  v ← read_int16; let m := set_attributes (to_uint16 v) m in
  mret m.

(** [void read_compressed_metric(metric_t *m)]:
    [m->field = (int16)read_uint8() - 0x80] for the five geometry fields,
    then [m->attributes = 0]. *)
Definition read_compressed_metric (m : metric_t) : M metric_t :=
  v ← read_uint8; let m := set_leftSideBearing (to_int16 (to_int16 v - 128)) m in
  v ← read_uint8; let m := set_rightSideBearing (to_int16 (to_int16 v - 128)) m in
  v ← read_uint8; let m := set_characterWidth (to_int16 (to_int16 v - 128)) m in
  v ← read_uint8; let m := set_ascent (to_int16 (to_int16 v - 128)) m in
  v ← read_uint8; let m := set_descent (to_int16 (to_int16 v - 128)) m in
  let m := set_attributes 0 m in
  mret m.

(** [metrics = new metric_t[nMetrics]; for (i = 0; i < nMetrics; i++) rd(&metrics[i]);] *)
Fixpoint read_metrics_loop (rd : metric_t -> M metric_t) (n : nat) : M (list metric_t) :=
  match n with
  | O => mret []
  | S n' => m ← rd metric_init; ms ← read_metrics_loop rd n'; mret (m :: ms)
  end.

(** The Metrics section of [main], after [seek(PCF_METRICS)]: the
    [switch] on [format.id]. *)
Definition read_metrics : M (list metric_t) :=
  f ← read_format32_little;
  _ ← put_format f;
  if format32.id f =? PCF_DEFAULT_FORMAT then
    nMetrics ← read_int32;
    _ ← check_int32_min "nMetrics" nMetrics 1;
    read_metrics_loop read_metric (Z.to_nat nMetrics)
  else if format32.id f =? PCF_COMPRESSED_METRICS then
    nMetrics ← read_int16;
    _ ← check_int32_min "nMetrics" nMetrics 1;
    read_metrics_loop read_compressed_metric (Z.to_nat nMetrics)
  else exit_with (error_invalid_exit "metrics").

(** One round of the loop that widens [fontbbx] by [metrics[i]]. *)
Definition fontbbx_step (fontbbx m : metric_t) : metric_t :=
  let fontbbx :=
    if leftSideBearing m <? leftSideBearing fontbbx
    then set_leftSideBearing (leftSideBearing m) fontbbx else fontbbx in
  let fontbbx :=
    if rightSideBearing fontbbx <? rightSideBearing m
    then set_rightSideBearing (rightSideBearing m) fontbbx else fontbbx in
  let fontbbx :=
    if ascent fontbbx <? ascent m
    then set_ascent (ascent m) fontbbx else fontbbx in
  let fontbbx :=
    if descent fontbbx <? descent m
    then set_descent (descent m) fontbbx else fontbbx in
  fontbbx.

(** [fontbbx = metrics[0]; for (i = 1; i < nMetrics; i++) ...].  The
    decoder has checked [1 <= nMetrics] before; an empty array has no box. *)
Definition compute_fontbbx (metrics : list metric_t) : option metric_t :=
  match metrics with
  | [] => None
  | m0 :: rest => Some (fold_left fontbbx_step rest m0)
  end.

(** What the emitter prints after [Width:] and [Height:]:
    [fontbbx.widthBits()] and [fontbbx.height()]. *)
Definition emitted_box (metrics : list metric_t) : option (Z * Z) :=
  fontbbx ← compute_fontbbx metrics;
  Some (widthBits fontbbx, height fontbbx).

(** ** Bitmaps decoder *)

Fixpoint read_uint32s (n : nat) : M (list Z) :=
  match n with
  | O => mret []
  | S n' => v ← read_uint32; vs ← read_uint32s n'; mret (v :: vs)
  end.

(** A buffer pass run over a buffer it fits in; the passes only fail on an
    access outside the buffer, in which case the buffer is kept. *)
Definition run_pass (pass : list byte8 -> Z -> option (list byte8))
    (data : list byte8) (size : Z) : list byte8 :=
  match pass data size with
  | Some data' => data'
  | None => data
  end.

(** The two normalisation steps of the Bitmaps section against [BDF_format]. *)
Definition normalize_bitmaps (f : format32.t) (data : list byte8) (bitmapSize : Z)
    : list byte8 :=
  let data :=
    if negb (format32.bit f =? format32.bit BDF_format)
    then run_pass bit_order_invert data bitmapSize else data in
  if negb (Bool.eqb (format32.bit f =? format32.byte f)
                    (format32.bit BDF_format =? format32.byte BDF_format))
  then
    let unit :=
      Z.shiftl 1 (if format32.bit BDF_format =? format32.byte BDF_format
                  then format32.scan f else format32.scan BDF_format) in
    if unit =? 1 then data
    else if unit =? 2 then run_pass two_byte_swap data bitmapSize
    else if unit =? 4 then run_pass four_byte_swap data bitmapSize
    else data
  else data.

(** The head of the Bitmaps section: [nBitmaps = read_int32();
    check_int32_min("\t", "nBitmaps", nBitmaps, nMetrics);] *)
Definition read_nBitmaps (nMetrics : Z) : M Z :=
  nBitmaps ← read_int32;
  _ ← check_int32_min "nBitmaps" nBitmaps nMetrics;
  mret nBitmaps.

(** The rest of the Bitmaps section: the offsets, the four sizes, the
    buffer and its normalisation. *)
Definition read_bitmap_data (f : format32.t) (nBitmaps : Z)
    : M (Z * list Z * list byte8) :=
  bitmapOffsets ← read_uint32s (Z.to_nat nBitmaps);
  bitmapSizes ← read_uint32s (Z.to_nat GLYPHPADOPTIONS);
  let bitmapSize := to_int32 (nth (Z.to_nat (format32.glyph f)) bitmapSizes 0) in
  _ ← check_int32_min "bitmapSize" bitmapSize 0;
  bitmaps ← read_byte8s bitmapSize;
  mret (nBitmaps, bitmapOffsets, normalize_bitmaps f bitmaps bitmapSize).

(** The Bitmaps section of [main], after [seek(PCF_BITMAPS)]; it yields
    [nBitmaps], [bitmapOffsets] and the normalised [bitmaps] buffer. *)
Definition read_bitmaps (nMetrics : Z) : M (Z * list Z * list byte8) :=
  f ← read_format32_little;
  _ ← put_format f;
  if negb (format32.id f =? PCF_DEFAULT_FORMAT)
  then exit_with (error_invalid_exit "bitmaps")
  else
    nBitmaps ← read_nBitmaps nMetrics;
    read_bitmap_data f nBitmaps.

(** ** Property queries *)

(** [strcmp(name, props[i].name.s) == 0] *)
Definition strcmp_eq (name : string) (s : sv) : bool :=
  match s with
  | sv_s s => String.eqb name s
  | _ => false
  end.

(** Reading the [v] member of the union. *)
Definition sv_value (x : sv) : Z :=
  match x with
  | sv_v v => v
  | _ => 0
  end.

(** [char *get_property_string(const char *name)]; [None] is NULL. *)
Fixpoint get_property_string (props : list props_t.t) (name : string)
    : result (option sv) :=
  match props with
  | [] => Ok None
  | p :: props' =>
      if strcmp_eq name (props_t.name p) then
        if props_t.isStringProp p then Ok (Some (props_t.value p))
        else Fatal (error_invalid_exit "property_string")
      else get_property_string props' name
  end.

(** [int32 get_property_value(const char *name)] *)
Fixpoint get_property_value (props : list props_t.t) (name : string) : result Z :=
  match props with
  | [] => Ok (-1)
  | p :: props' =>
      if strcmp_eq name (props_t.name p) then
        if props_t.isStringProp p then Fatal (error_invalid_exit "property_value")
        else Ok (sv_value (props_t.value p))
      else get_property_value props' name
  end.

(** [bool is_exist_property_value(const char *name)] *)
Fixpoint is_exist_property_value (props : list props_t.t) (name : string) : bool :=
  match props with
  | [] => false
  | p :: props' =>
      if strcmp_eq name (props_t.name p) then negb (props_t.isStringProp p)
      else is_exist_property_value props' name
  end.

(** ** Swidths *)

(** Conversion of an [int] to [double]; exact for 32-bit values. *)
Definition double_of_int (z : Z) : float :=
  if z <? 0 then PrimFloat.opp (PrimFloat.of_uint63 (Uint63.of_Z (- z)))
  else PrimFloat.of_uint63 (Uint63.of_Z z).

(** The cast [(int)x] of a [double]: truncation toward zero.  Where the
    truncated value has no [int] (also NaN and infinities) the x86-64
    conversion instruction yields [INT_MIN]. *)
Definition int_of_double (x : float) : Z :=
  match Prim2SF x with
  | S754_zero _ => 0
  | S754_finite s m e =>
      let a := if 0 <=? e then Z.pos m * 2 ^ e else Z.pos m / 2 ^ (- e) in
      let v := if s then - a else a in
      if (- 2147483648 <=? v) && (v <=? 2147483647) then v else - 2147483648
  | _ => - 2147483648
  end.

(** The [else] branch of [if (seek(PCF_SWIDTHS))]: the resolution. *)
Definition swidth_resolution (props : list props_t.t) : result Z :=
  rx ← get_property_value props "RESOLUTION_X";
  if rx <=? 0 then
    r ← get_property_value props "RESOLUTION";
    mret (int_of_double (double_of_int r / 100.0 * 72.27)%float)
  else mret rx.

(** [(int)(metrics[i].characterWidth / (rx / 72.27) / (p / 1000))] *)
Definition swidth_formula (characterWidth rx : Z) (p : float) : Z :=
  int_of_double
    (double_of_int characterWidth / (double_of_int rx / 72.27)
       / (p / double_of_int 1000))%float.

(** The [else] branch of [if (seek(PCF_SWIDTHS))]. *)
Definition compute_swidths (props : list props_t.t) (metrics : list metric_t)
    : result (list metric_t) :=
  rx ← swidth_resolution props;
  ps ← get_property_value props "POINT_SIZE";
  let p := (double_of_int ps / 10.0)%float in
  mret (map (fun m => set_swidth (swidth_formula (characterWidth m) rx p) m) metrics).

(** [for (i = 0; i < nSwidths; i++) metrics[i].swidth = read_int32();] *)
Fixpoint read_swidths_loop (metrics : list metric_t) : M (list metric_t) :=
  match metrics with
  | [] => mret []
  | m :: ms =>
      v ← read_int32; ms' ← read_swidths_loop ms; mret (set_swidth v m :: ms')
  end.

Definition lift_result {A : Type} (r : result A) : M A := fun g =>
  match r with
  | Ok a => Ok (a, g)
  | Fatal e => Fatal e
  end.

(** The Swidths step of [main]: the section when the table of contents
    has it, the formula otherwise. *)
Definition read_swidths (props : list props_t.t) (metrics : list metric_t)
    : M (list metric_t) :=
  seek PCF_SWIDTHS ≫= fun found : bool =>
  if found then
    f ← read_format32_little;
    _ ← put_format f;
    if negb (format32.id f =? PCF_DEFAULT_FORMAT)
    then exit_with (error_invalid_exit "encoding")
    else
      nSwidths ← read_int32;
      if negb (nSwidths =? Z.of_nat (length metrics))
      then exit_with (error_exit "nSwidths != nMetrics")
      else read_swidths_loop metrics
  else lift_result (compute_swidths props metrics).

(** ** Emitter: the font entry name *)

(** [strrchr(s, c)] as the index of the last [c] in [s]; [None] is NULL. *)
Fixpoint strrchr (s : string) (c : ascii) : option nat :=
  match s with
  | EmptyString => None
  | String a s' =>
      match strrchr s' c with
      | Some i => Some (S i)
      | None => if Ascii.eqb a c then Some O else None
      end
  end.

(** The two string buffers alive while the entry name is printed. *)
Record name_buffers : Type := mk_name_buffers {
  ifilename : string;
  fontname : string
}.

(** [char *fontname = strdup(ifilename);
     char *period = strrchr(ifilename, '.');
     if (period != NULL) *period = '\0';]
    The copy is taken first; the terminator is written into the buffer
    [period] points into, which is [ifilename]. *)
Definition strip_period (path : string) : name_buffers :=
  let fontname := path in
  let period := strrchr path "."%char in
  let ifilename :=
    match period with
    | Some i => String.substring 0 i path
    | None => path
    end in
  mk_name_buffers ifilename fontname.

(** The name [fprintf(ofp, "\"%s\": STARSFont{\n", fontname)] prints
    between the quotes. *)
Definition emitted_font_name (path : string) : string :=
  fontname (strip_period path).

(** The input filename with the suffix from its last ['.'] removed. *)
Definition extension_stripped (path : string) : string :=
  match strrchr path "."%char with
  | Some i => String.substring 0 i path
  | None => path
  end.

(** ** Definitions used in the statements and proofs *)

(** The value [bytesPerRow] computes for [nbytes = 2^k] before the
    conversion to [int16]. *)
Definition padded_bytes (bits k : Z) : Z :=
  2 ^ k * ((bits + (8 * 2 ^ k - 1)) / 8 / 2 ^ k).

(** [chunk_map step f n l]: [f] applied to each of the first [n] groups of
    [step] elements of [l], the rest of [l] kept. *)
Fixpoint chunk_map {A : Type} (step : nat) (f : list A -> list A) (n : nat)
    (l : list A) : list A :=
  match n with
  | O => l
  | S n' => f (take step l) ++ chunk_map step f n' (drop step l)
  end.

(** The full 6-field wire form of a metric under a most-significant-byte
    first format: two bytes per field. *)
Definition full_form (m : metric_t) : list byte8 :=
  flat_map (fun v => [byte_of (Z.shiftr v 8); byte_of v])
           [leftSideBearing m; rightSideBearing m; characterWidth m;
            ascent m; descent m; attributes m].

(** A Bitmaps section for one metric that declares two glyphs: format word
    (MSBit and MSByte first, pad 1), count 2, offsets 0 and 1, the four
    sizes 2, 4, 8, 16 and the two buffer bytes. *)
Definition two_glyph_bitmaps : list byte8 :=
  [x0c; x00; x00; x00;  x00; x00; x00; x02;
   x00; x00; x00; x00;  x00; x00; x00; x01;
   x00; x00; x00; x02;  x00; x00; x00; x04;
   x00; x00; x00; x08;  x00; x00; x00; x10;
   x81; x0f]%byte.

(** [v] is the largest (smallest) value of [field] over the glyphs of
    [metrics]: some glyph has it and no glyph exceeds it. *)
Definition is_max (field : metric_t -> Z) (metrics : list metric_t) (v : Z) : Prop :=
  (exists m, In m metrics /\ field m = v) /\
  (forall m, In m metrics -> field m <= v).

Definition is_min (field : metric_t -> Z) (metrics : list metric_t) (v : Z) : Prop :=
  (exists m, In m metrics /\ field m = v) /\
  (forall m, In m metrics -> v <= field m).

(** A glyph at the limits of the [int16] fields, as [read_metric] decodes
    it from [extreme_glyph_bytes]. *)
Definition extreme_glyph : metric_t :=
  mk_metric (- 32768) 32767 0 32767 32767 0 None 0 sv_null.

Definition extreme_glyph_bytes : list byte8 :=
  [x80; x00;  x7f; xff;  x00; x00;  x7f; xff;  x7f; xff;  x00; x00]%byte.

(** The box after the glyphs [seen] holds their extremes. *)
Definition box_of (seen : list metric_t) (bb : metric_t) : Prop :=
  is_min leftSideBearing seen (leftSideBearing bb) /\
  is_max rightSideBearing seen (rightSideBearing bb) /\
  is_max ascent seen (ascent bb) /\
  is_max descent seen (descent bb).

(** Truncation of an exact rational toward zero. *)
Definition Qtrunc (x : Q) : Z := Z.quot (Qnum x) (Z.pos (Qden x)).

(** The closed form of the fallback swidth over the rationals:
    [characterWidth / (resolutionX/72.27) / ((pointSizeTenths/10)/1000)]
    truncated to an integer. *)
Definition closed_form_swidth (characterWidth resolutionX pointSizeTenths : Z) : Z :=
  Qtrunc (inject_Z characterWidth / (inject_Z resolutionX / 72.27)
            / ((inject_Z pointSizeTenths / 10) / 1000))%Q.

(** No property of [props] is named [name]. *)
Definition absent (props : list props_t.t) (name : string) : Prop :=
  forall p, In p props -> strcmp_eq name (props_t.name p) = false.

(** An integer property. *)
Definition int_prop (name : string) (v : Z) : props_t.t :=
  props_t.mk (sv_s name) false (sv_v v).

(** A compressed Metrics section with two glyphs: format word (id 1,
    MSBit and MSByte first), the 16-bit count 2, five bytes per glyph. *)
Definition two_glyph_metrics : list byte8 :=
  [x0c; x01; x00; x00;  x00; x02;
   x80; x88; x88; x87; x81;
   x7f; x86; x88; x85; x80]%byte.

(** ** Wire forms used in the round trips *)

(** The two bytes of a 16-bit value and the four bytes of a 32-bit value,
    most significant byte first. *)
Definition encode_int16_big (v : Z) : list byte8 :=
  [byte_of (Z.shiftr v 8); byte_of v].

Definition encode_int32_big (v : Z) : list byte8 :=
  [byte_of (Z.shiftr v 24); byte_of (Z.shiftr v 16); byte_of (Z.shiftr v 8); byte_of v].

(** ** Readers that take a fixed number of bytes *)

(** [takes n m]: on every state, [m] exits with "unexpected eof" when fewer
    than [n] bytes are left and otherwise succeeds having consumed exactly
    [n] bytes, every other global unchanged. *)
Definition takes {A : Type} (n : nat) (m : M A) : Prop :=
  forall g : globals,
    if (n <=? length (ifp g))%nat
    then exists a : A, m g = Ok (a, consumed n g)
    else m g = Fatal (error_exit "unexpected eof").

(** The two glyphs of [two_glyph_metrics]. *)
Definition two_glyphs : list metric_t :=
  [mk_metric 0 8 8 7 1 0 None 0 sv_null;
   mk_metric (-1) 6 8 5 0 0 None 0 sv_null].

(** ** Shell command for compressed input *)

(** [std::string escape_quote(const char *p)]: a backslash is put before
    every single quote. *)
Fixpoint escape_quote (p : string) : string :=
  match p with
  | EmptyString => EmptyString
  | String c p' =>
      if Ascii.eqb c "'"%char
      then String "\"%char (String c (escape_quote p'))
      else String c (escape_quote p')
  end.

(** [cmd = "gzip -dc '"; cmd.append(escape_quote(ifilename)); cmd.append("'");] *)
Definition gzip_command (ifilename : string) : string :=
  String.append "gzip -dc '" (String.append (escape_quote ifilename) "'").

(** The number of single quotes of a string. *)
Fixpoint count_quotes (p : string) : nat :=
  match p with
  | EmptyString => O
  | String c p' => if Ascii.eqb c "'"%char then S (count_quotes p') else count_quotes p'
  end.

(** Dropping each backslash that stands right before a single quote. *)
Fixpoint drop_quote_escapes (s : string) : string :=
  match s with
  | EmptyString => EmptyString
  | String c s' =>
      match s' with
      | String c' _ =>
          if Ascii.eqb c "\"%char && Ascii.eqb c' "'"%char
          then drop_quote_escapes s'
          else String c (drop_quote_escapes s')
      | EmptyString => String c EmptyString
      end
  end.

(** ** Header and table of contents *)

Definition set_tables (ts : list table_t.t) (g : globals) : globals :=
  mk_globals (ifp g) (read_bytes g) (format g) ts.

Definition put_tables (ts : list table_t.t) : M unit :=
  fun g => Ok (tt, set_tables ts g).

(** [make_int32(1, 'f', 'c', 'p')] *)
Definition PCF_magic : Z := make_int32 1 102 99 112.

(** The line feed that ends two of the messages. *)
Definition LF : string := String (ascii_of_nat 10) EmptyString.

(** [ifp = popen(cmd.c_str(), "r"); read_bytes = 0;] with the bytes the
    process writes. *)
Definition reopen (out : list byte8) : M unit :=
  fun g => Ok (tt, mk_globals out 0 (format g) (tables g)).

(** The start of [main] after the options: the first four bytes, and for
    a compressed or gzip'ed file the switch to the output of
    [gzip -dc '<file>'] with [read_bytes] back at 0.  The output of that
    process is the parameter [gzip_out]; [None] is a [popen] that
    failed.  [ifilename = None] is standard input. *)
Definition open_input (ifilename : option string) (gzip_out : option (list byte8))
    : M Z :=
  version ← read_int32_big;
  if (Z.shiftr version 16 =? 8093) || (Z.shiftr version 16 =? 8075) then
    match ifilename with
    | None => exit_with (error_exit (String.append "stdin is gzip'ed or compress'ed" LF))
    | Some _ =>
        match gzip_out with
        | None => exit_with (error_exit (String.append "failed to execute gzip" LF))
        | Some out => _ ← reopen out; mret version
        end
    end
  else mret version.

(** [for (i = 0; i < nTables; i++)]: the four words of each entry. *)
Fixpoint read_tables (n : nat) : M (list table_t.t) :=
  match n with
  | O => mret []
  | S n' =>
      type ← read_int32_little;
      f ← read_format32_little;
      size ← read_int32_little;
      offset ← read_int32_little;
      ts ← read_tables n';
      mret (table_t.mk type f size offset :: ts)
  end.

(** "read table of contents": the magic, read again when a decompressed
    stream has just been opened, then the count and the entries. *)
Definition read_toc (version : Z) : M unit := fun g =>
  ((if read_bytes g =? 0 then read_int32_big else mret version) ≫= fun version =>
   if negb (version =? PCF_magic)
   then exit_with (error_exit "this is not PCF file format")
   else
     nTables ← read_int32_little;
     _ ← check_int32_min "nTables" nTables 1;
     ts ← read_tables (Z.to_nat nTables);
     put_tables ts) g.

(** The header of [main]: the input is opened, then the output file
    ([ofp_opened = false] is an [fopen] that failed), then the table of
    contents is read. *)
Definition read_header (ifilename : option string) (gzip_out : option (list byte8))
    (ofp_opened : bool) : M unit :=
  version ← open_input ifilename gzip_out;
  if negb ofp_opened then exit_with (error_exit "failed to open output bdf file")
  else read_toc version.

(** ** Properties decoder *)

(** The characters of a C string that starts at [bytes]: up to the first
    NUL, or to the end, where the decoder has put a NUL. *)
Fixpoint c_string (bytes : list byte8) : string :=
  match bytes with
  | [] => EmptyString
  | b :: bytes' =>
      if byte_val b =? 0 then EmptyString
      else String (ascii_of_byte b) (c_string bytes')
  end.

(** [blob + off] read as a C string.  The decoder guards [off] from above
    only; a negative [off] points before the blob, where C leaves the
    read undefined, and the model reads from the start of the blob. *)
Definition c_string_at (blob : list byte8) (off : Z) : string :=
  c_string (drop (Z.to_nat off) blob).

(** [for (i = 0; i < nProps; i++)]: the raw triples, both unions holding
    the [int32] member. *)
Fixpoint read_props_loop (n : nat) : M (list props_t.t) :=
  match n with
  | O => mret []
  | S n' =>
      name ← read_int32;
      isStringProp ← read_bool8;
      value ← read_int32;
      ps ← read_props_loop n';
      mret (props_t.mk (sv_v name) isStringProp (sv_v value) :: ps)
  end.

(** [check_memory((p = new T[n]))] for an [int] count [n]: a negative
    count makes [new] throw, which nothing catches.  Memory itself is not
    modelled as a bounded resource: a non-negative count succeeds.  It is
    written out where the count can be negative; the other counts of
    [main] have passed [check_int32_min] with a minimum of 0 or 1. *)
Definition new_array (n : Z) : M unit :=
  if n <? 0 then exit_with bad_alloc else mret tt.

(** The argument of [skip] after the triples:
    [3 - (((4 + 1 + 4) * nProps + 3) % 4)], the product and the sum being
    [int] operations. *)
Definition props_padding (nProps : Z) : Z :=
  3 - Z.rem (to_int32 (to_int32 ((4 + 1 + 4) * nProps) + 3)) 4.

(** The second loop over the properties: the offsets become strings. *)
Fixpoint resolve_props (string : list byte8) (stringSize : Z)
    (props : list props_t.t) : result (list props_t.t) :=
  match props with
  | [] => Ok []
  | p :: props' =>
      if stringSize <=? sv_value (props_t.name p)
      then Fatal (error_invalid_exit "properties(name)")
      else
        let name := sv_s (c_string_at string (sv_value (props_t.name p))) in
        if props_t.isStringProp p then
          if stringSize <=? sv_value (props_t.value p)
          then Fatal (error_invalid_exit "properties(value)")
          else
            let value := sv_s (c_string_at string (sv_value (props_t.value p))) in
            ps ← resolve_props string stringSize props';
            Ok (props_t.mk name true value :: ps)
        else
          ps ← resolve_props string stringSize props';
          Ok (props_t.mk name false (props_t.value p) :: ps)
  end.

(** The Properties section of [main], after [seek(PCF_PROPERTIES)]. *)
Definition read_properties : M (list props_t.t) :=
  f ← read_format32_little;
  _ ← put_format f;
  if negb (format32.id f =? PCF_DEFAULT_FORMAT)
  then exit_with (error_invalid_exit "properties(format)")
  else
    nProps ← read_int32;
    _ ← check_int32_min "nProps" nProps 1;
    props ← read_props_loop (Z.to_nat nProps);
    _ ← skip (props_padding nProps);
    stringSize ← read_int32;
    _ ← check_int32_min "stringSize" stringSize 0;
    _ ← new_array (to_int32 (stringSize + 1));
    string ← read_byte8s stringSize;
    lift_result (resolve_props string stringSize props).

(** ** Accelerators decoder *)

Record accelerators_t : Type := mk_accelerators {
  noOverlap : bool;
  constantMetrics : bool;
  terminalFont : bool;
  constantWidth : bool;
  inkInside : bool;
  inkMetrics : bool;
  drawDirection : bool;
  fontAscent : Z;
  fontDescent : Z;
  maxOverlap : Z;
  minBounds : metric_t;
  maxBounds : metric_t;
  ink_minBounds : metric_t;
  ink_maxBounds : metric_t
}.

(** The zero-initialised global [accelerators]. *)
Definition accelerators_init : accelerators_t :=
  mk_accelerators false false false false false false false 0 0 0
                  metric_init metric_init metric_init metric_init.

(** [void read_accelerators(void)], on the global [accelerators]. *)
Definition read_accelerators (acc : accelerators_t) : M accelerators_t :=
  f ← read_format32_little;
  _ ← put_format f;
  if negb ((format32.id f =? PCF_DEFAULT_FORMAT)
           || (format32.id f =? PCF_ACCEL_W_INKBOUNDS))
  then exit_with (error_invalid_exit "accelerators")
  else
    noOverlap ← read_bool8;
    constantMetrics ← read_bool8;
    terminalFont ← read_bool8;
    constantWidth ← read_bool8;
    inkInside ← read_bool8;
    inkMetrics ← read_bool8;
    drawDirection ← read_bool8;
    _ ← read_bool8;
    fontAscent ← read_int32;
    fontDescent ← read_int32;
    maxOverlap ← read_int32;
    minBounds ← read_metric (minBounds acc);
    maxBounds ← read_metric (maxBounds acc);
    if format32.id f =? PCF_ACCEL_W_INKBOUNDS then
      ink_minBounds ← read_metric (ink_minBounds acc);
      ink_maxBounds ← read_metric (ink_maxBounds acc);
      mret (mk_accelerators noOverlap constantMetrics terminalFont constantWidth
              inkInside inkMetrics drawDirection fontAscent fontDescent maxOverlap
              minBounds maxBounds ink_minBounds ink_maxBounds)
    else
      mret (mk_accelerators noOverlap constantMetrics terminalFont constantWidth
              inkInside inkMetrics drawDirection fontAscent fontDescent maxOverlap
              minBounds maxBounds minBounds maxBounds).

(** ** Encodings decoder *)

Record encodings_t : Type := mk_encodings {
  firstCol : Z;          (* uint16 *)
  lastCol : Z;           (* uint16 *)
  firstRow : Z;          (* uint16 *)
  lastRow : Z;           (* uint16 *)
  defaultCh : Z;         (* uint16 *)
  encodings : list Z;    (* uint16[nEncodings] *)
  nValidEncodings : Z
}.

(** [for (i = 0; i < nEncodings; i++)]: a cell is read and counted when it
    is not [NO_SUCH_CHAR]. *)
Fixpoint read_encodings_loop (n : nat) (nValidEncodings : Z) : M (list Z * Z) :=
  match n with
  | O => mret ([], nValidEncodings)
  | S n' =>
      v ← read_int16;
      let e := to_uint16 v in
      let nValidEncodings :=
        if negb (e =? NO_SUCH_CHAR) then nValidEncodings + 1 else nValidEncodings in
      rest ← read_encodings_loop n' nValidEncodings;
      mret (e :: fst rest, snd rest)
  end.

(** The Encodings section of [main], after [seek(PCF_BDF_ENCODINGS)].
    [nEncodings] is an [int] product. *)
Definition read_encodings : M encodings_t :=
  f ← read_format32_little;
  _ ← put_format f;
  if negb (format32.id f =? PCF_DEFAULT_FORMAT)
  then exit_with (error_invalid_exit "encoding")
  else
    v ← read_int16; let firstCol := to_uint16 v in
    v ← read_int16; let lastCol := to_uint16 v in
    v ← read_int16; let firstRow := to_uint16 v in
    v ← read_int16; let lastRow := to_uint16 v in
    v ← read_int16; let defaultCh := to_uint16 v in
    if negb (firstCol <=? lastCol)
    then exit_with (error_invalid_exit "firstCol, lastCol")
    else if negb (firstRow <=? lastRow)
    then exit_with (error_invalid_exit "firstRow, lastRow")
    else
      let nEncodings :=
        to_int32 ((lastCol - firstCol + 1) * (lastRow - firstRow + 1)) in
      _ ← new_array nEncodings;
      cells ← read_encodings_loop (Z.to_nat nEncodings) 0;
      mret (mk_encodings firstCol lastCol firstRow lastRow defaultCh
                         (fst cells) (snd cells)).

(** ** Glyph names decoder *)

Definition set_glyphName (v : sv) (m : metric_t) : metric_t :=
  mk_metric (leftSideBearing m) (rightSideBearing m) (characterWidth m) (ascent m)
            (descent m) (attributes m) (bitmaps m) (swidth m) v.

(** [for (i = 0; i < nGlyphNames; i++) metrics[i].glyphName.v = read_int32();] *)
Fixpoint read_glyph_name_offsets (metrics : list metric_t) : M (list metric_t) :=
  match metrics with
  | [] => mret []
  | m :: ms =>
      v ← read_int32;
      ms' ← read_glyph_name_offsets ms;
      mret (set_glyphName (sv_v v) m :: ms')
  end.

(** The second loop over the glyph names: the offsets become strings. *)
Fixpoint resolve_glyph_names (glyphNames : list byte8) (glyphNamesSize : Z)
    (metrics : list metric_t) : result (list metric_t) :=
  match metrics with
  | [] => Ok []
  | m :: ms =>
      if glyphNamesSize <=? sv_value (glyphName m)
      then Fatal (error_invalid_exit "glyphNames")
      else
        ms' ← resolve_glyph_names glyphNames glyphNamesSize ms;
        Ok (set_glyphName (sv_s (c_string_at glyphNames (sv_value (glyphName m)))) m
              :: ms')
  end.

(** The Glyph Names step of [main]. *)
Definition read_glyph_names (metrics : list metric_t) : M (list metric_t) :=
  seek PCF_GLYPH_NAMES ≫= fun found : bool =>
  if found then
    f ← read_format32_little;
    _ ← put_format f;
    if negb (format32.id f =? PCF_DEFAULT_FORMAT)
    then exit_with (error_invalid_exit "encoding")
    else
      nGlyphNames ← read_int32;
      if negb (nGlyphNames =? Z.of_nat (length metrics))
      then exit_with (error_exit "nGlyphNames != nMetrics")
      else
        metrics ← read_glyph_name_offsets metrics;
        glyphNamesSize ← read_int32;
        _ ← check_int32_min "glyphNamesSize" glyphNamesSize 0;
        _ ← new_array (to_int32 (glyphNamesSize + 1));
        glyphNames ← read_byte8s glyphNamesSize;
        lift_result (resolve_glyph_names glyphNames glyphNamesSize metrics)
  else mret metrics.

(** ** Emitter *)

(** One glyph of the output: the key, the optional [Name], [StepX],
    [Bounds], [Offset] and the words of [Bitmap].  [Bitmap = None] is a
    glyph whose rows lie outside the bitmap buffer, where C leaves the
    reads undefined. *)
Record glyph_entry : Type := mk_glyph {
  charcode : Z;
  Name : option string;
  StepX : Z;
  Bounds : Z * Z;
  Offset : Z * Z;
  Bitmap : option (list string)
}.

(** One font entry of the output. *)
Record font_entry : Type := mk_font {
  font_name : string;
  PointSize : Z;
  Width : Z;
  Height : Z;
  Glyphs : list glyph_entry
}.

(** The two digits of ["%02X"]. *)
Definition hex_digit (d : Z) : ascii :=
  nth (Z.to_nat d)
      ["0"; "1"; "2"; "3"; "4"; "5"; "6"; "7"; "8"; "9";
       "A"; "B"; "C"; "D"; "E"; "F"]%char "0"%char.

Definition hex02X (b : byte8) : string :=
  String (hex_digit (byte_val b / 16))
         (String (hex_digit (byte_val b mod 16)) EmptyString).

(** [for (int c = 0; c < widthBytes; c++)]: the bytes of one row as they
    are printed, and the pointer [b] after the row.  [n] is the number of
    rounds left. *)
Fixpoint emit_row (n : nat) (c w : Z) (buffer : list byte8) (b : Z)
    : option (list byte8 * Z) :=
  match n with
  | O => Some ([], b)
  | S n' =>
      d ← (if c <? w then buffer !! Z.to_nat b else Some Byte.x00);
      rest ← emit_row n' (c + 1) w buffer (b + 1);
      Some (d :: fst rest, snd rest)
  end.

(** [for (int r = 0; r < m.height(); r++)] *)
Fixpoint emit_rows (n : nat) (widthBytes w : Z) (buffer : list byte8) (b : Z)
    : option (list (list byte8)) :=
  match n with
  | O => Some []
  | S n' =>
      row ← emit_row (Z.to_nat widthBytes) 0 w buffer b;
      rows ← emit_rows n' widthBytes w buffer (snd row);
      Some (fst row :: rows)
  end.

(** ["0x"] and the digits of the bytes of a row. *)
Definition row_word (row : list byte8) : string :=
  String.append "0x" (String.concat EmptyString (map hex02X row)).

(** The rows of one glyph: stride [m.widthBytes(format)], ink width
    [w = (m.widthBits() + 7) / 8], at least 1. *)
Definition glyph_rows (f : format32.t) (buffer : list byte8) (m : metric_t)
    : option (list (list byte8)) :=
  let widthBytes := widthBytes m f in
  let w := Z.quot (widthBits m + 7) 8 in
  let w := if w <? 1 then 1 else w in
  b ← bitmaps m;
  emit_rows (Z.to_nat (height m)) widthBytes w buffer b.

(** [if (m.glyphName.s)]: the name that is printed. *)
Definition printed_name (v : sv) : option string :=
  match v with
  | sv_s s => Some s
  | _ => None
  end.

(** The key of cell [i] of the encoding grid. *)
Definition cell_charcode (enc : encodings_t) (i : Z) : Z :=
  let col := Z.rem i (lastCol enc - firstCol enc + 1) + firstCol enc in
  let row := Z.quot i (lastCol enc - firstCol enc + 1) + firstRow enc in
  to_uint16 (row * 256 + col).

(** The loop over the encoding cells from cell [i] on.  An exit inside
    the loop leaves the entries printed so far in the file; the model
    keeps the exit only. *)
Fixpoint emit_glyphs (f : format32.t) (buffer : list byte8) (metrics : list metric_t)
    (enc : encodings_t) (cells : list Z) (i : Z) : result (list glyph_entry) :=
  match cells with
  | [] => Ok []
  | e :: cells' =>
      if e =? NO_SUCH_CHAR then emit_glyphs f buffer metrics enc cells' (i + 1)
      else if negb (e <? Z.of_nat (length metrics))
      then Fatal (error_invalid_exit "encodings")
      else
        let m := nth (Z.to_nat e) metrics metric_init in
        let entry :=
          mk_glyph (cell_charcode enc i) (printed_name (glyphName m))
                   (characterWidth m) (widthBits m, height m)
                   (leftSideBearing m, - descent m)
                   (option_map (map row_word) (glyph_rows f buffer m)) in
        rest ← emit_glyphs f buffer metrics enc cells' (i + 1);
        Ok (entry :: rest)
  end.

(** ** [main]: from the header to the font entry *)

(** [if (!seek(type)) error_exit(msg);] *)
Definition seek_required (type : Z) (msg : string) : M unit :=
  seek type ≫= fun found : bool =>
  if found then mret tt else exit_with (error_exit msg).

(** "read old accelerators section": only when the table of contents has
    no BDF accelerators. *)
Definition read_old_accelerators : M accelerators_t := fun g =>
  (if negb (is_exist_section PCF_BDF_ACCELERATORS g) then
     _ ← seek_required PCF_ACCELERATORS
           "PCF_ACCELERATORS and PCF_BDF_ACCELERATORS do not found";
     read_accelerators accelerators_init
   else mret accelerators_init) g.

(** "read BDF style accelerators section" *)
Definition read_bdf_accelerators (acc : accelerators_t) : M accelerators_t :=
  seek PCF_BDF_ACCELERATORS ≫= fun found : bool =>
  if found then read_accelerators acc else mret acc.

(** [for (i = 0; i < nMetrics; i++) metrics[i].bitmaps = bitmaps + bitmapOffsets[i];] *)
Fixpoint assign_bitmaps (metrics : list metric_t) (bitmapOffsets : list Z)
    : list metric_t :=
  match metrics, bitmapOffsets with
  | m :: ms, o :: os => set_bitmaps (Some o) m :: assign_bitmaps ms os
  | _, _ => metrics
  end.

(** Everything [main] decodes, as the emitter sees it. *)
Record decoded : Type := mk_decoded {
  d_props : list props_t.t;
  d_accelerators : accelerators_t;
  d_metrics : list metric_t;
  d_bitmaps : list byte8;
  d_encodings : encodings_t
}.

(** The sections in the order [main] reads them, first the ones up to
    the Bitmaps section: properties, old accelerators, metrics and the
    bitmap offsets and buffer. *)
Definition read_glyph_sections
    : M (list props_t.t * accelerators_t * list metric_t
         * (Z * list Z * list byte8)) :=
  _ ← seek_required PCF_PROPERTIES "PCF_PROPERTIES does not found";
  props ← read_properties;
  acc ← read_old_accelerators;
  _ ← seek_required PCF_METRICS "PCF_METRICS does not found";
  metrics ← read_metrics;
  _ ← seek_required PCF_BITMAPS "PCF_BITMAPS does not found";
  bm ← read_bitmaps (Z.of_nat (length metrics));
  mret (props, acc, metrics, bm).

(** All sections: the glyphs get their starts in the bitmap buffer, then
    come the encodings, the swidths, the glyph names and the BDF
    accelerators. *)
Definition read_sections : M decoded :=
  s ← read_glyph_sections;
  let props := fst (fst (fst s)) in
  let acc := snd (fst (fst s)) in
  let metrics := snd (fst s) in
  let bm := snd s in
  let metrics := assign_bitmaps metrics (snd (fst bm)) in
  _ ← seek_required PCF_BDF_ENCODINGS "PCF_BDF_ENCODINGS does not found";
  enc ← read_encodings;
  metrics ← read_swidths props metrics;
  metrics ← read_glyph_names metrics;
  acc ← read_bdf_accelerators acc;
  mret (mk_decoded props acc metrics (snd bm) enc).

(** "write go file": the font entry printed for the input file [path];
    the box is the one of [compute_fontbbx], the row stride comes from the
    [format] of the section read last. *)
Definition write_font (path : string) (d : decoded) : M font_entry := fun g =>
  lift_result
    (pointSize ← get_property_value (d_props d) "POINT_SIZE";
     glyphs ← emit_glyphs (format g) (d_bitmaps d) (d_metrics d) (d_encodings d)
                (encodings (d_encodings d)) 0;
     match emitted_box (d_metrics d) with
     | Some box =>
         Ok (mk_font (emitted_font_name path) (Z.quot pointSize 10)
                     (fst box) (snd box) glyphs)
     | None => Ok (mk_font (emitted_font_name path) (Z.quot pointSize 10) 0 0 glyphs)
     end) g.

(** [main] for an input file [path]. *)
Definition pcf2go (path : string) (gzip_out : option (list byte8)) (ofp_opened : bool)
    : M font_entry :=
  _ ← read_header (Some path) gzip_out ofp_opened;
  d ← read_sections;
  write_font path d.

(** ** A minimal font file *)

(** A container of 234 bytes with the five required sections and one
    glyph: code 65, character width 8, ascent 7, descent 1, bearings 0
    and 8, eight rows of one byte FF; the one property is the integer
    POINT_SIZE = 100. *)
Definition minimal_font : list byte8 :=
  [x01; x66; x63; x70; x05; x00; x00; x00; x01; x00; x00; x00; x0c; x00;
   x00; x00; x23; x00; x00; x00; x58; x00; x00; x00; x02; x00; x00; x00;
   x0c; x00; x00; x00; x30; x00; x00; x00; x7b; x00; x00; x00; x04; x00;
   x00; x00; x0c; x00; x00; x00; x0b; x00; x00; x00; xab; x00; x00; x00;
   x08; x00; x00; x00; x0c; x00; x00; x00; x24; x00; x00; x00; xb6; x00;
   x00; x00; x20; x00; x00; x00; x0c; x00; x00; x00; x10; x00; x00; x00;
   xda; x00; x00; x00; x0c; x00; x00; x00; x00; x00; x00; x01; x00; x00;
   x00; x00; x00; x00; x00; x00; x64; x00; x00; x00; x00; x00; x00; x0b;
   x50; x4f; x49; x4e; x54; x5f; x53; x49; x5a; x45; x00; x0c; x00; x00;
   x00; x00; x00; x00; x00; x00; x00; x00; x00; x00; x00; x00; x07; x00;
   x00; x00; x01; x00; x00; x00; x00; x00; x00; x00; x00; x00; x00; x00;
   x00; x00; x00; x00; x00; x00; x00; x00; x00; x00; x00; x00; x00; x00;
   x00; x00; x00; x0c; x01; x00; x00; x00; x01; x80; x88; x88; x87; x81;
   x0c; x00; x00; x00; x00; x00; x00; x01; x00; x00; x00; x00; x00; x00;
   x00; x08; x00; x00; x00; x08; x00; x00; x00; x08; x00; x00; x00; x08;
   xff; xff; xff; xff; xff; xff; xff; xff; x0c; x00; x00; x00; x00; x41;
   x00; x41; x00; x00; x00; x00; x00; x41; x00; x00]%byte.

(** The table of contents of [minimal_font] and the state once the header
    is read. *)
Definition minimal_tables : list table_t.t :=
  [table_t.mk 1 BDF_format 35 88;
   table_t.mk 2 BDF_format 48 123;
   table_t.mk 4 BDF_format 11 171;
   table_t.mk 8 BDF_format 36 182;
   table_t.mk 32 BDF_format 16 218].

Definition minimal_start : globals := mk_globals minimal_font 0 BDF_format [].

Definition minimal_after_header : globals :=
  mk_globals (drop 88 minimal_font) 88 BDF_format minimal_tables.

(** A decoded property is well tagged: the name is a string, and the value
    is a string exactly for a string property. *)
Definition well_tagged (p : props_t.t) : Prop :=
  (exists s, props_t.name p = sv_s s) /\
  (if props_t.isStringProp p
   then exists s, props_t.value p = sv_s s
   else exists v, props_t.value p = sv_v v).

(** The number of cells of an encoding grid other than [NO_SUCH_CHAR]. *)
Fixpoint count_valid (cells : list Z) : Z :=
  match cells with
  | [] => 0
  | e :: cells' => (if e =? NO_SUCH_CHAR then 0 else 1) + count_valid cells'
  end.

(** The byte printed at row [r], column [c] of a glyph whose data starts
    at offset [b] of the bitmap buffer: the buffer's byte inside the ink
    width [w], zero in the padding columns. *)
Definition glyph_byte (buffer : list byte8) (widthBytes w b : Z) (r c : nat)
    : byte8 :=
  if Z.of_nat c <? w
  then nth (Z.to_nat (b + Z.of_nat r * widthBytes + Z.of_nat c)) buffer Byte.x00
  else Byte.x00.

(** The keys of the cells that are printed, from cell [i] on. *)
Fixpoint valid_keys (enc : encodings_t) (cells : list Z) (i : Z) : list Z :=
  match cells with
  | [] => []
  | e :: cells' =>
      if e =? NO_SUCH_CHAR then valid_keys enc cells' (i + 1)
      else cell_charcode enc i :: valid_keys enc cells' (i + 1)
  end.


(** A glyph 12 pixels wide and 2 rows high whose data starts at offset 1
    of a nine-byte buffer, for a format whose rows are padded to four
    bytes. *)
Definition sample_glyph : metric_t :=
  mk_metric 0 12 12 2 0 0 (Some 1) 0 sv_null.
Definition sample_format : format32.t := format32.mk 1 0 0 1 1 2.
Definition sample_buffer : list byte8 :=
  map byte_of [0; 17; 34; 51; 68; 85; 102; 119; 136].

(** The cells that are printed: the ones that do not hold the sentinel. *)
Definition printed_cells (cells : list Z) : list Z :=
  List.filter (fun e => negb (e =? NO_SUCH_CHAR)) cells.


(** The group size of the byte swap [normalize_bitmaps] applies under
    format [f]: none (groups of one byte) when the bit and byte orders
    agree, else the scan unit if it is two or four bytes. *)
Definition swap_unit (f : format32.t) : nat :=
  if Bool.eqb (format32.bit f =? format32.byte f) true then 1%nat
  else
    let unit := Z.shiftl 1 (format32.scan f) in
    if unit =? 2 then 2%nat else if unit =? 4 then 4%nat else 1%nat.

(** The position byte [i] of a buffer comes from when every whole group
    of [unit] bytes among the first [size] bytes is reversed. *)
Definition swap_index (unit : nat) (size : Z) (i : nat) : nat :=
  if (i <? Z.to_nat (size / Z.of_nat unit) * unit)%nat
  then (unit * (i / unit) + (unit - 1 - i mod unit))%nat
  else i.

(** What [normalize_bitmaps] does to the value of the byte that lands at
    position [i]: bit reversal inside the first [size] bytes when the
    format is least-significant-bit first. *)
Definition normalized_byte (f : format32.t) (size : Z) (i : nat) (d : byte8)
    : byte8 :=
  if format32.bit f =? 1 then d
  else if Z.of_nat i <? size then invert_byte d else d.

(** A computation that leaves the table of contents as it found it. *)
Definition keeps_tables {A : Type} (m : M A) : Prop :=
  forall (g g' : globals) (a : A), m g = Ok (a, g') -> tables g' = tables g.

(** What [read_sections] yields on the minimal font after its header. *)
Definition minimal_sections : decoded * globals :=
  Eval vm_compute in
    match read_sections minimal_after_header with
    | Ok r => r
    | Fatal _ =>
        (mk_decoded [] accelerators_init [] [] (mk_encodings 0 0 0 0 0 [] 0),
         minimal_after_header)
    end.

(** The font entry [main] prints for the minimal font. *)
Definition minimal_entry : font_entry * globals :=
  Eval vm_compute in
    match pcf2go "A.pcf" None true minimal_start with
    | Ok r => r
    | Fatal _ => (mk_font EmptyString 0 0 0 [], minimal_start)
    end.

(** [ms'] is [ms] with nothing but the [swidth] members changed. *)
Definition only_swidths (ms ms' : list metric_t) : Prop :=
  Forall2 (fun m m' => m' = set_swidth (swidth m') m) ms ms'.

(** [ms'] is [ms] with nothing but the [glyphName] members changed. *)
Definition only_names (ms ms' : list metric_t) : Prop :=
  Forall2 (fun m m' => m' = set_glyphName (glyphName m') m) ms ms'.

(** * Properties *)

(** ** Integer conversions *)

Lemma to_int16_id z : in_int16 z -> to_int16 z = z.
Proof.
  unfold in_int16, to_int16, wrap_signed. intros H.
  change (2 ^ (16 - 1)) with 32768. change (2 ^ 16) with 65536.
  rewrite Z.mod_small; lia.
Qed.

Lemma to_int32_id z : in_int32 z -> to_int32 z = z.
Proof.
  unfold in_int32, to_int32, wrap_signed. intros H.
  change (2 ^ (32 - 1)) with 2147483648. change (2 ^ 32) with 4294967296.
  rewrite Z.mod_small; lia.
Qed.

Lemma to_int16_range z : in_int16 (to_int16 z).
Proof.
  unfold in_int16, to_int16, wrap_signed.
  change (2 ^ (16 - 1)) with 32768. change (2 ^ 16) with 65536.
  pose proof (Z.mod_pos_bound (z + 32768) 65536). lia.
Qed.

Lemma to_int32_range z : in_int32 (to_int32 z).
Proof.
  unfold in_int32, to_int32, wrap_signed.
  change (2 ^ (32 - 1)) with 2147483648. change (2 ^ 32) with 4294967296.
  pose proof (Z.mod_pos_bound (z + 2147483648) 4294967296). lia.
Qed.

(** Converting to 16 bits keeps divisibility by a divisor of [2^15]. *)
Lemma to_int16_divide p z : (p | 32768) -> (p | z) -> (p | to_int16 z).
Proof.
  intros Hp Hz. unfold to_int16, wrap_signed.
  change (2 ^ (16 - 1)) with 32768. change (2 ^ 16) with 65536.
  rewrite Z.mod_eq by lia.
  apply Z.divide_sub_r; [|assumption].
  apply Z.divide_sub_r; [apply Z.divide_add_r; assumption|].
  apply Z.divide_mul_l. destruct Hp as [k Hk]. exists (2 * k). lia.
Qed.

(** Clearing the low [k] bits rounds down to a multiple of [2^k]. *)
Lemma land_lnot_ones x k :
  0 <= k -> Z.land x (Z.lnot (Z.ones k)) = 2 ^ k * (x / 2 ^ k).
Proof.
  intros Hk. rewrite <- Z.ldiff_land, Z.ldiff_ones_r by assumption.
  rewrite Z.shiftl_mul_pow2, Z.shiftr_div_pow2 by assumption. lia.
Qed.

(** ** Row padding *)


Lemma bytesPerRow_pow2 bits k :
  In k [0; 1; 2; 3] ->
  bytesPerRow bits (2 ^ k) = to_int16 (padded_bytes bits k).
Proof.
  unfold bytesPerRow, padded_bytes. simpl.
  intros [<-|[<-|[<-|[<-|[]]]]]; simpl; f_equal.
  - rewrite Z.shiftr_div_pow2 by lia.
    change (2 ^ 3) with 8. change (2 ^ 0) with 1.
    rewrite Z.div_1_r, Z.mul_1_l. reflexivity.
  - change (Z.lnot 1) with (Z.lnot (Z.ones 1)).
    rewrite land_lnot_ones, Z.shiftr_div_pow2 by lia. reflexivity.
  - change (Z.lnot 3) with (Z.lnot (Z.ones 2)).
    rewrite land_lnot_ones, Z.shiftr_div_pow2 by lia. reflexivity.
  - change (Z.lnot 7) with (Z.lnot (Z.ones 3)).
    rewrite land_lnot_ones, Z.shiftr_div_pow2 by lia. reflexivity.
Qed.

Lemma pad_is_pow2 pad :
  In pad [1; 2; 4; 8] -> exists k, In k [0; 1; 2; 3] /\ pad = 2 ^ k.
Proof.
  simpl. intros [<-|[<-|[<-|[<-|[]]]]];
    [exists 0|exists 1|exists 2|exists 3]; simpl; auto 6.
Qed.

Lemma padded_bytes_mono b1 b2 k :
  0 <= k -> b1 <= b2 -> padded_bytes b1 k <= padded_bytes b2 k.
Proof.
  intros Hk Hb. unfold padded_bytes.
  assert (0 < 2 ^ k) by (apply Z.pow_pos_nonneg; lia).
  apply Z.mul_le_mono_nonneg_l; [lia|].
  apply Z.div_le_mono; [lia|]. apply Z.div_le_mono; lia.
Qed.

Lemma padded_bytes_bounds bits k :
  In k [0; 1; 2; 3] -> 0 <= bits -> bits + 8 * 2 ^ k <= 2 ^ 18 ->
  0 <= padded_bytes bits k <= 32767.
Proof.
  intros Hk Hb Hlim. unfold padded_bytes.
  assert (Hk0 : 0 <= k) by (simpl in Hk; lia).
  assert (H2k : 0 < 2 ^ k) by (apply Z.pow_pos_nonneg; lia).
  assert (H2k' : 2 ^ k <= 8).
  { change 8 with (2 ^ 3). apply Z.pow_le_mono_r; simpl in Hk; lia. }
  set (q := (bits + (8 * 2 ^ k - 1)) / 8).
  assert (Hq : 0 <= q <= 32767).
  { unfold q. split; [apply Z.div_pos; lia|].
    apply Z.lt_succ_r. apply Z.div_lt_upper_bound; [lia|].
    change (2 ^ 18) with 262144 in Hlim. lia. }
  pose proof (Z.mul_div_le q (2 ^ k) H2k).
  assert (0 <= q / 2 ^ k) by (apply Z.div_pos; lia). nia.
Qed.

(** C7 (counterexample).  [bytesPerRow] returns [int16]: a row of 262137
    bits needs 32768 bytes, which the return type turns into -32768, below
    the one byte of an 8-bit row. *)
Lemma bytesPerRow_not_monotone :
  0 <= 8 /\ 8 <= 262137 /\ In 1 [1; 2; 4; 8] /\
  ~ (bytesPerRow 8 1 <= bytesPerRow 262137 1).
Proof.
  split; [lia|]. split; [lia|]. split; [simpl; auto|].
  vm_compute. intros H. apply H. reflexivity.
Qed.

(** C7 (amended).  For every pad in {1,2,4,8} and every bit count
    [bits >= 0], [bytesPerRow bits pad] is a multiple of [pad]; and it is
    non-decreasing in [bits] as long as the padded row fits the [int16]
    return type, that is for [bits2 + 8*pad <= 2^18], which holds for every
    [int16] glyph width. *)
Theorem bytesPerRow_multiple_and_monotone (bits1 bits2 pad : Z) :
  In pad [1; 2; 4; 8] -> 0 <= bits1 -> bits1 <= bits2 ->
  (pad | bytesPerRow bits1 pad) /\
  (pad | bytesPerRow bits2 pad) /\
  (bits2 + 8 * pad <= 2 ^ 18 ->
   bytesPerRow bits1 pad <= bytesPerRow bits2 pad).
Proof.
  intros Hpad H1 H12.
  destruct (pad_is_pow2 pad Hpad) as (k & Hk & ->).
  assert (Hk0 : 0 <= k) by (simpl in Hk; lia).
  assert (Hdiv : (2 ^ k | 32768)).
  { simpl in Hk. destruct Hk as [<-|[<-|[<-|[<-|[]]]]];
      [exists 32768|exists 16384|exists 8192|exists 4096]; reflexivity. }
  rewrite !bytesPerRow_pow2 by assumption.
  split; [|split].
  - apply to_int16_divide; [assumption|]. apply Z.divide_factor_l.
  - apply to_int16_divide; [assumption|]. apply Z.divide_factor_l.
  - intros Hlim.
    assert (Hp : 0 < 2 ^ k) by (apply Z.pow_pos_nonneg; lia).
    rewrite !to_int16_id.
    + apply padded_bytes_mono; assumption.
    + unfold in_int16.
      pose proof (padded_bytes_bounds bits2 k Hk ltac:(lia) Hlim). lia.
    + unfold in_int16.
      pose proof (padded_bytes_bounds bits1 k Hk H1 ltac:(lia)). lia.
Qed.

Lemma bytesPerRow_multiple_and_monotone_witness :
  (4 | bytesPerRow 9 4) /\ (4 | bytesPerRow 33 4) /\
  (33 + 8 * 4 <= 2 ^ 18 -> bytesPerRow 9 4 <= bytesPerRow 33 4).
Proof.
  apply (bytesPerRow_multiple_and_monotone 9 33 4); simpl; auto; lia.
Defined.

(** ** Buffer passes *)

(** *** Group-wise maps *)

Section ChunkMap.

Context {A : Type}.
Variable step : nat.
Variable f : list A -> list A.
Hypothesis f_length : forall chunk : list A,
  length chunk = step -> length (f chunk) = step.

Lemma chunk_map_length (n : nat) : forall l : list A,
  (n * step <= length l)%nat -> length (chunk_map step f n l) = length l.
Proof.
  induction n as [|n IH]; intros l Hl; simpl in *; [reflexivity|].
  rewrite length_app, IH by (rewrite length_drop; lia).
  rewrite f_length by (apply length_take_le; lia).
  rewrite length_drop. lia.
Qed.

Lemma chunk_map_trailing (n : nat) : forall (l : list A) (i : nat),
  (n * step <= length l)%nat -> (n * step <= i)%nat ->
  chunk_map step f n l !! i = l !! i.
Proof.
  induction n as [|n IH]; intros l i Hl Hi; simpl in *; [reflexivity|].
  assert (Hc : length (f (take step l)) = step)
    by (apply f_length, length_take_le; lia).
  rewrite lookup_app_r by lia. rewrite Hc.
  rewrite IH by (rewrite ?length_drop; lia).
  rewrite lookup_drop. f_equal. lia.
Qed.

Hypothesis f_involutive : forall chunk : list A,
  length chunk = step -> f (f chunk) = chunk.

Lemma chunk_map_involutive (n : nat) : forall l : list A,
  (n * step <= length l)%nat ->
  chunk_map step f n (chunk_map step f n l) = l.
Proof.
  induction n as [|n IH]; intros l Hl; simpl in *; [reflexivity|].
  assert (Ht : length (take step l) = step) by (apply length_take_le; lia).
  assert (Hc : length (f (take step l)) = step) by (apply f_length, Ht).
  rewrite take_app_length', drop_app_length' by (symmetry; exact Hc).
  rewrite f_involutive by exact Ht.
  rewrite IH by (rewrite length_drop; lia).
  apply take_drop.
Qed.

End ChunkMap.

(** *** The [for] loop over groups of [step] bytes *)

Lemma for_loop_done fuel step i size body data :
  size <= i -> for_loop fuel step i size body data = Some data.
Proof.
  intros H. destruct fuel; simpl;
    (destruct (i <? size) eqn:E; [apply Z.ltb_lt in E; lia|reflexivity]).
Qed.

Lemma for_loop_unfold fuel step i size body data :
  for_loop (S fuel) step i size body data =
  if i <? size then
    match body i data with
    | Some data' => for_loop fuel step (i + step) size body data'
    | None => None
    end
  else Some data.
Proof. reflexivity. Qed.

Section ForLoop.

Variable step : nat.
Variable body : Z -> list byte8 -> option (list byte8).
Variable f : list byte8 -> list byte8.
Hypothesis step_pos : (0 < step)%nat.
Hypothesis body_chunk : forall pre chunk rest : list byte8,
  length chunk = step ->
  body (Z.of_nat (length pre)) (pre ++ chunk ++ rest) = Some (pre ++ f chunk ++ rest).
Hypothesis f_length : forall chunk : list byte8,
  length chunk = step -> length (f chunk) = step.

Lemma for_loop_chunks (n : nat) : forall (fuel : nat) (pre rest : list byte8),
  (n * step <= length rest)%nat -> (n <= fuel)%nat ->
  for_loop fuel (Z.of_nat step) (Z.of_nat (length pre))
           (Z.of_nat (length pre + n * step)) body (pre ++ rest)
  = Some (pre ++ chunk_map step f n rest).
Proof.
  induction n as [|n IH]; intros fuel pre rest Hrest Hfuel.
  - simpl. apply for_loop_done. lia.
  - destruct fuel as [|fuel]; [lia|]. rewrite for_loop_unfold.
    replace (Z.of_nat (length pre) <? Z.of_nat (length pre + S n * step))
      with true by (symmetry; apply Z.ltb_lt; simpl; lia).
    simpl in Hrest.
    set (chunk := take step rest).
    assert (Ht : length chunk = step) by (apply length_take_le; lia).
    assert (Hsplit : pre ++ rest = pre ++ chunk ++ drop step rest)
      by (unfold chunk; rewrite take_drop; reflexivity).
    rewrite Hsplit, body_chunk by exact Ht.
    replace (Z.of_nat (length pre) + Z.of_nat step)
      with (Z.of_nat (length (pre ++ f chunk)))
      by (rewrite length_app, f_length by exact Ht; lia).
    replace (Z.of_nat (length pre + S n * step))
      with (Z.of_nat (length (pre ++ f chunk) + n * step))
      by (rewrite length_app, f_length by exact Ht; simpl; lia).
    rewrite (app_assoc pre).
    rewrite IH by (rewrite ?length_drop; lia).
    simpl. rewrite <- app_assoc. reflexivity.
Qed.

(** The loop as the passes start it: from [0], with [size] rounds of fuel. *)
Lemma for_loop_from_zero (size : Z) (data : list byte8) :
  (Z.of_nat step | size) -> size <= Z.of_nat (length data) ->
  for_loop (Z.to_nat size) (Z.of_nat step) 0 size body data
  = Some (chunk_map step f (Z.to_nat (size / Z.of_nat step)) data).
Proof.
  intros [q Hq] Hsize. subst size.
  rewrite Z.div_mul by lia.
  destruct (Z.le_gt_cases q 0) as [Hneg|Hpos].
  - rewrite for_loop_done by nia.
    replace (Z.to_nat q) with O by lia. reflexivity.
  - pose proof (for_loop_chunks (Z.to_nat q) (Z.to_nat (q * Z.of_nat step)) [] data) as H.
    simpl in H. rewrite <- H; [|nia|nia].
    f_equal. nia.
Qed.

End ForLoop.

(** *** Indexing past a prefix *)

Lemma lookup_at (pre l : list byte8) (k : Z) :
  0 <= k ->
  (pre ++ l) !! Z.to_nat (Z.of_nat (length pre) + k) = l !! Z.to_nat k.
Proof.
  intros Hk. rewrite lookup_app_r by lia. f_equal. lia.
Qed.

Lemma insert_at (pre l : list byte8) (k : Z) (x : byte8) :
  0 <= k ->
  <[Z.to_nat (Z.of_nat (length pre) + k) := x]> (pre ++ l)
  = pre ++ <[Z.to_nat k := x]> l.
Proof.
  intros Hk.
  replace (Z.to_nat (Z.of_nat (length pre) + k))
    with (length pre + Z.to_nat k)%nat by lia.
  apply insert_app_r.
Qed.

Lemma lookup_at0 (pre l : list byte8) :
  (pre ++ l) !! Z.to_nat (Z.of_nat (length pre)) = l !! O.
Proof.
  rewrite <- (Z.add_0_r (Z.of_nat (length pre))). apply (lookup_at pre l 0). lia.
Qed.

Lemma insert_at0 (pre l : list byte8) (x : byte8) :
  <[Z.to_nat (Z.of_nat (length pre)) := x]> (pre ++ l) = pre ++ <[O := x]> l.
Proof.
  rewrite <- (Z.add_0_r (Z.of_nat (length pre))). apply (insert_at pre l 0). lia.
Qed.

(** *** The three loop bodies on one group *)

Lemma bit_order_invert_body_chunk (pre chunk rest : list byte8) :
  length chunk = 1%nat ->
  bit_order_invert_body (Z.of_nat (length pre)) (pre ++ chunk ++ rest)
  = Some (pre ++ map invert_byte chunk ++ rest).
Proof.
  destruct chunk as [|d [|]]; try discriminate. intros _.
  unfold bit_order_invert_body.
  rewrite lookup_at0. simpl.
  rewrite insert_at0. reflexivity.
Qed.

Lemma two_byte_swap_body_chunk (pre chunk rest : list byte8) :
  length chunk = 2%nat ->
  two_byte_swap_body (Z.of_nat (length pre)) (pre ++ chunk ++ rest)
  = Some (pre ++ rev chunk ++ rest).
Proof.
  destruct chunk as [|a [|b [|]]]; try discriminate. intros _.
  unfold two_byte_swap_body.
  rewrite lookup_at0. simpl.
  rewrite lookup_at by lia. simpl.
  rewrite insert_at0, insert_at by lia. reflexivity.
Qed.

Lemma four_byte_swap_body_chunk (pre chunk rest : list byte8) :
  length chunk = 4%nat ->
  four_byte_swap_body (Z.of_nat (length pre)) (pre ++ chunk ++ rest)
  = Some (pre ++ rev chunk ++ rest).
Proof.
  destruct chunk as [|a [|b [|c [|d [|]]]]]; try discriminate. intros _.
  unfold four_byte_swap_body.
  rewrite lookup_at0. simpl.
  rewrite lookup_at by lia. simpl.
  rewrite insert_at0, insert_at by lia. simpl.
  rewrite lookup_at by lia. simpl.
  rewrite lookup_at by lia. simpl.
  rewrite !insert_at by lia. reflexivity.
Qed.

(** *** The nibble table *)

Lemma invert_byte_involutive (d : byte8) : invert_byte (invert_byte d) = d.
Proof. destruct d; vm_compute; reflexivity. Qed.

Lemma map_invert_byte_involutive (l : list byte8) :
  map invert_byte (map invert_byte l) = l.
Proof.
  induction l as [|d l IH]; simpl; [reflexivity|].
  rewrite invert_byte_involutive, IH. reflexivity.
Qed.

(** *** The passes as group-wise maps *)

Lemma bit_order_invert_eq (data : list byte8) (size : Z) :
  size <= Z.of_nat (length data) ->
  bit_order_invert data size
  = Some (chunk_map 1 (map invert_byte) (Z.to_nat size) data).
Proof.
  intros Hsize. unfold bit_order_invert.
  rewrite (for_loop_from_zero 1 bit_order_invert_body (map invert_byte)).
  - rewrite Z.div_1_r. reflexivity.
  - lia.
  - apply bit_order_invert_body_chunk.
  - intros chunk. rewrite length_map. auto.
  - apply Z.divide_1_l.
  - exact Hsize.
Qed.

Lemma two_byte_swap_eq (data : list byte8) (size : Z) :
  size <= Z.of_nat (length data) ->
  two_byte_swap data size = Some (chunk_map 2 (@rev byte8) (Z.to_nat (size / 2)) data).
Proof.
  intros Hsize. unfold two_byte_swap.
  change (Z.lnot 1) with (Z.lnot (Z.ones 1)).
  rewrite land_lnot_ones by lia. change (2 ^ 1) with 2.
  pose proof (Z.mul_div_le size 2 ltac:(lia)).
  rewrite (for_loop_from_zero 2 two_byte_swap_body (@rev byte8)).
  - rewrite Z.mul_comm, Z.div_mul by lia. reflexivity.
  - lia.
  - apply two_byte_swap_body_chunk.
  - intros chunk. rewrite length_rev. auto.
  - apply Z.divide_factor_l.
  - lia.
Qed.

Lemma four_byte_swap_eq (data : list byte8) (size : Z) :
  size <= Z.of_nat (length data) ->
  four_byte_swap data size = Some (chunk_map 4 (@rev byte8) (Z.to_nat (size / 4)) data).
Proof.
  intros Hsize. unfold four_byte_swap.
  change (Z.lnot 3) with (Z.lnot (Z.ones 2)).
  rewrite land_lnot_ones by lia. change (2 ^ 2) with 4.
  pose proof (Z.mul_div_le size 4 ltac:(lia)).
  rewrite (for_loop_from_zero 4 four_byte_swap_body (@rev byte8)).
  - rewrite Z.mul_comm, Z.div_mul by lia. reflexivity.
  - lia.
  - apply four_byte_swap_body_chunk.
  - intros chunk. rewrite length_rev. auto.
  - apply Z.divide_factor_l.
  - lia.
Qed.

(** C8.  For every byte buffer and every [size] within it (the decoder
    passes the whole buffer), [bit_order_invert] run twice gives back the
    original buffer; byte by byte, the nibble reversal through the
    16-entry table composed with itself is the identity. *)
Theorem bit_order_invert_involution (data : list byte8) (size : Z) :
  size <= Z.of_nat (length data) ->
  (forall d : byte8, invert_byte (invert_byte d) = d) /\
  exists data' : list byte8,
    bit_order_invert data size = Some data' /\
    bit_order_invert data' size = Some data.
Proof.
  intros Hsize. split; [exact invert_byte_involutive|].
  assert (Hn : (Z.to_nat size * 1 <= length data)%nat) by lia.
  assert (Hlen : forall chunk : list byte8,
             length chunk = 1%nat -> length (map invert_byte chunk) = 1%nat)
    by (intros chunk; rewrite length_map; auto).
  exists (chunk_map 1 (map invert_byte) (Z.to_nat size) data). split.
  - apply bit_order_invert_eq, Hsize.
  - rewrite bit_order_invert_eq by (rewrite chunk_map_length; auto).
    f_equal. apply chunk_map_involutive; auto.
    intros chunk _. apply map_invert_byte_involutive.
Qed.

Lemma bit_order_invert_involution_witness :
  (forall d : byte8, invert_byte (invert_byte d) = d) /\
  exists data' : list byte8,
    bit_order_invert [x01; x80; x3c]%byte 3 = Some data' /\
    bit_order_invert data' 3 = Some [x01; x80; x3c]%byte.
Proof.
  apply (bit_order_invert_involution [x01; x80; x3c]%byte 3). simpl. lia.
Defined.

(** Both swaps reverse each whole group, are undone by a second run and
    keep every byte from index [step * (size / step)] on. *)
Lemma group_swap_involution (step : nat) (data : list byte8) (size : Z) :
  (0 < step)%nat -> size <= Z.of_nat (length data) ->
  let data' := chunk_map step (@rev byte8) (Z.to_nat (size / Z.of_nat step)) data in
  length data' = length data /\
  chunk_map step (@rev byte8) (Z.to_nat (size / Z.of_nat step)) data' = data /\
  forall i : nat,
    Z.of_nat step * (size / Z.of_nat step) <= Z.of_nat i -> data' !! i = data !! i.
Proof.
  intros Hstep Hsize data'.
  assert (Hlen : forall chunk : list byte8,
             length chunk = step -> length (rev chunk) = step)
    by (intros chunk; rewrite length_rev; auto).
  assert (Hn : (Z.to_nat (size / Z.of_nat step) * step <= length data)%nat).
  { pose proof (Z.mul_div_le size (Z.of_nat step) ltac:(lia)).
    destruct (Z.le_gt_cases (size / Z.of_nat step) 0); nia. }
  split; [|split].
  - apply chunk_map_length; assumption.
  - apply chunk_map_involutive; auto. intros chunk _. apply rev_involutive.
  - intros i Hi. apply chunk_map_trailing; auto.
    destruct (Z.le_gt_cases (size / Z.of_nat step) 0); nia.
Qed.

(** C9.  For every byte buffer and every [size] within it (the decoder
    passes the whole buffer), [two_byte_swap] run twice and
    [four_byte_swap] run twice give back the original buffer, and one run
    keeps every byte from the largest multiple of 2 (of 4) not above
    [size] on. *)
Theorem byte_swaps_involution (data : list byte8) (size : Z) :
  size <= Z.of_nat (length data) ->
  (exists data' : list byte8,
     two_byte_swap data size = Some data' /\
     two_byte_swap data' size = Some data /\
     forall i : nat, 2 * (size / 2) <= Z.of_nat i -> data' !! i = data !! i) /\
  (exists data' : list byte8,
     four_byte_swap data size = Some data' /\
     four_byte_swap data' size = Some data /\
     forall i : nat, 4 * (size / 4) <= Z.of_nat i -> data' !! i = data !! i).
Proof.
  intros Hsize. split.
  - destruct (group_swap_involution 2 data size ltac:(lia) Hsize) as (Hl & Hinv & Ht).
    change (Z.of_nat 2) with 2 in Hl, Hinv, Ht.
    eexists. split; [apply two_byte_swap_eq, Hsize|]. split.
    + rewrite two_byte_swap_eq by (rewrite Hl; exact Hsize). f_equal. exact Hinv.
    + exact Ht.
  - destruct (group_swap_involution 4 data size ltac:(lia) Hsize) as (Hl & Hinv & Ht).
    change (Z.of_nat 4) with 4 in Hl, Hinv, Ht.
    eexists. split; [apply four_byte_swap_eq, Hsize|]. split.
    + rewrite four_byte_swap_eq by (rewrite Hl; exact Hsize). f_equal. exact Hinv.
    + exact Ht.
Qed.

Lemma byte_swaps_involution_witness :
  (exists data' : list byte8,
     two_byte_swap [x01; x02; x03; x04; x05; x06; x07]%byte 7 = Some data' /\
     two_byte_swap data' 7 = Some [x01; x02; x03; x04; x05; x06; x07]%byte /\
     forall i : nat, 2 * (7 / 2) <= Z.of_nat i ->
       data' !! i = [x01; x02; x03; x04; x05; x06; x07]%byte !! i) /\
  (exists data' : list byte8,
     four_byte_swap [x01; x02; x03; x04; x05; x06; x07]%byte 7 = Some data' /\
     four_byte_swap data' 7 = Some [x01; x02; x03; x04; x05; x06; x07]%byte /\
     forall i : nat, 4 * (7 / 4) <= Z.of_nat i ->
       data' !! i = [x01; x02; x03; x04; x05; x06; x07]%byte !! i).
Proof.
  apply (byte_swaps_involution [x01; x02; x03; x04; x05; x06; x07]%byte 7).
  simpl. lia.
Defined.

(** ** The byte cursor *)

Lemma consumed_0 (g : globals) : consumed 0 g = g.
Proof.
  destruct g as [i r f t]. unfold consumed. simpl.
  rewrite Z.add_0_r. reflexivity.
Qed.

Lemma consumed_consumed (n m : nat) (g : globals) :
  consumed n (consumed m g) = consumed (m + n) g.
Proof.
  unfold consumed. simpl. rewrite drop_drop. f_equal. lia.
Qed.

Lemma bind_Ok {A B : Type} (m : M A) (f : A -> M B) (g g' : globals) (a : A) :
  m g = Ok (a, g') -> (m ≫= f) g = f a g'.
Proof. intros H. unfold mbind, M_bind. rewrite H. reflexivity. Qed.

Lemma bind_Fatal {A B : Type} (m : M A) (f : A -> M B) (g : globals) (e : fatal) :
  m g = Fatal e -> (m ≫= f) g = Fatal e.
Proof. intros H. unfold mbind, M_bind. rewrite H. reflexivity. Qed.

Lemma read8_cons (g : globals) (a : byte8) (rest : list byte8) :
  ifp g = a :: rest -> read8 g = Ok (to_char (byte_val a), consumed 1 g).
Proof. intros H. unfold read8. rewrite H. reflexivity. Qed.

Lemma read8_nil (g : globals) :
  ifp g = [] -> read8 g = Fatal (error_exit "unexpected eof").
Proof. intros H. unfold read8. rewrite H. reflexivity. Qed.

Lemma ifp_consumed (n : nat) (g : globals) : ifp (consumed n g) = drop n (ifp g).
Proof. reflexivity. Qed.

(** [skip] either takes its [n] bytes or meets the end of the input. *)
Lemma skip_loop_Ok (n : nat) : forall g : globals,
  (n <= length (ifp g))%nat -> skip_loop n g = Ok (tt, consumed n g).
Proof.
  induction n as [|n IH]; intros g Hn; simpl.
  - rewrite consumed_0. reflexivity.
  - destruct (ifp g) as [|a rest] eqn:E; [simpl in Hn; lia|].
    rewrite (bind_Ok _ _ _ _ _ (read8_cons g a rest E)).
    rewrite IH by (rewrite ifp_consumed, E; simpl in *; rewrite drop_0; lia).
    rewrite consumed_consumed. reflexivity.
Qed.

Lemma skip_loop_eof (n : nat) : forall g : globals,
  (length (ifp g) < n)%nat -> skip_loop n g = Fatal (error_exit "unexpected eof").
Proof.
  induction n as [|n IH]; intros g Hn; [lia|]. simpl.
  destruct (ifp g) as [|a rest] eqn:E.
  - apply bind_Fatal, read8_nil, E.
  - rewrite (bind_Ok _ _ _ _ _ (read8_cons g a rest E)).
    apply IH. rewrite ifp_consumed, E. simpl in *. rewrite drop_0. lia.
Qed.

(** ** Section locator *)

Lemma seek_loop_spec (type : Z) (g : globals) : forall ts : list table_t.t,
  match find (fun t => table_t.type t =? type) ts with
  | None => seek_loop ts type g = Ok (false, g)
  | Some t =>
      let s := to_int32 (table_t.offset t - read_bytes g) in
      if s <? 0 then seek_loop ts type g = Fatal (error_invalid_exit "seek")
      else if s <=? Z.of_nat (length (ifp g))
      then seek_loop ts type g = Ok (true, consumed (Z.to_nat s) g)
      else seek_loop ts type g = Fatal (error_exit "unexpected eof")
  end.
Proof.
  induction ts as [|t ts IH]; simpl; [reflexivity|].
  destruct (table_t.type t =? type); [|exact IH].
  cbv zeta. set (s := to_int32 (table_t.offset t - read_bytes g)).
  destruct (s <? 0) eqn:Eneg; [reflexivity|].
  apply Z.ltb_ge in Eneg. unfold skip.
  destruct (s <=? Z.of_nat (length (ifp g))) eqn:Elen.
  - apply Z.leb_le in Elen.
    rewrite (bind_Ok _ _ _ _ _ (skip_loop_Ok (Z.to_nat s) g ltac:(lia))).
    reflexivity.
  - apply Z.leb_gt in Elen.
    apply bind_Fatal, skip_loop_eof. lia.
Qed.

(** C5 (counterexample).  The Properties entry lies 6 bytes ahead
    ([delta = 16 - 10 >= 0]) but only 5 bytes of input are left: [seek]
    exits from inside [skip] instead of reporting the section found. *)
Lemma seek_exits_on_short_input :
  0 <= 16 - 10 /\
  seek PCF_PROPERTIES
       (mk_globals [x01; x02; x03; x04; x05]%byte 10 BDF_format
                   [table_t.mk PCF_PROPERTIES BDF_format 0 16])
  = Fatal (error_exit "unexpected eof").
Proof. split; [lia|reflexivity]. Qed.

(** C5 (amended).  For every section type: when no entry of the table of
    contents has the type, [seek] reports not-found, consumes nothing and
    does not exit.  Otherwise, with the first such entry and
    [delta = (int)(entry.offset - read_bytes)]: [seek] exits with the
    invalid-file message when [delta < 0]; it consumes exactly [delta]
    bytes and reports found when the input still holds [delta] bytes,
    leaving [read_bytes] equal to the entry's offset whenever the
    difference fits an [int]; and it exits with "unexpected eof" when the
    input ends before that. *)
Theorem seek_behaviour (type : Z) (g : globals) :
  match find (fun t => table_t.type t =? type) (tables g) with
  | None => seek type g = Ok (false, g)
  | Some entry =>
      let delta := to_int32 (table_t.offset entry - read_bytes g) in
      if delta <? 0 then seek type g = Fatal (error_invalid_exit "seek")
      else if delta <=? Z.of_nat (length (ifp g)) then
        seek type g = Ok (true, consumed (Z.to_nat delta) g) /\
        ifp (consumed (Z.to_nat delta) g) = drop (Z.to_nat delta) (ifp g) /\
        read_bytes (consumed (Z.to_nat delta) g) = read_bytes g + delta /\
        (in_int32 (table_t.offset entry - read_bytes g) ->
         read_bytes (consumed (Z.to_nat delta) g) = table_t.offset entry)
      else seek type g = Fatal (error_exit "unexpected eof")
  end.
Proof.
  unfold seek. pose proof (seek_loop_spec type g (tables g)) as H.
  destruct (find _ (tables g)) as [entry|]; [|exact H].
  cbv zeta in *.
  destruct (to_int32 (table_t.offset entry - read_bytes g) <? 0) eqn:Eneg; [exact H|].
  apply Z.ltb_ge in Eneg.
  destruct (_ <=? Z.of_nat (length (ifp g))); [|exact H].
  split; [exact H|]. split; [reflexivity|]. split.
  - simpl. lia.
  - intros Hfit. simpl. rewrite to_int32_id in * by exact Hfit. lia.
Qed.

(** A 16-bit read under a most-significant-byte-first format. *)
Lemma read_int16_big_cons (a b : byte8) (rest : list byte8) (r : Z)
    (f : format32.t) (t : list table_t.t) :
  format32.is_little_endian f = false ->
  read_int16 (mk_globals (a :: b :: rest) r f t)
  = Ok (make_int16 (to_char (byte_val a)) (to_char (byte_val b)),
        mk_globals rest (r + 2) f t).
Proof.
  intros Hbig.
  cbv [read_int16 get_format mbind M_bind format]. rewrite Hbig.
  cbv [read_int16_big read8 mbind M_bind mret M_ret consumed ifp read_bytes
       format tables drop].
  f_equal. f_equal. f_equal. lia.
Qed.

(** ** Metrics decoder: the compressed form *)

Lemma compressed_field (a : byte8) :
  to_int16 (to_int16 (to_uint8 (to_char (byte_val a))) - 128) = byte_val a - 128.
Proof. destruct a; reflexivity. Qed.

(** A compressed field written out in the full form reads back the same. *)
Lemma full_field (a : byte8) :
  to_int16 (make_int16 (to_char (byte_val (byte_of (Z.shiftr (byte_val a - 128) 8))))
                       (to_char (byte_val (byte_of (byte_val a - 128)))))
  = byte_val a - 128.
Proof. destruct a; reflexivity. Qed.

(** C3 (counterexample).  On four bytes the compressed reader exits; on
    five bytes it succeeds, has consumed all five and the fifth byte is
    the [descent]. *)
Lemma read_compressed_metric_not_four_bytes :
  read_compressed_metric metric_init
    (mk_globals [x80; x81; x82; x83]%byte 0 BDF_format [])
  = Fatal (error_exit "unexpected eof") /\
  read_compressed_metric metric_init
    (mk_globals [x80; x81; x82; x83; x84]%byte 0 BDF_format [])
  = Ok (mk_metric 0 1 2 3 4 0 None 0 sv_null, mk_globals [] 5 BDF_format []).
Proof. split; reflexivity. Qed.

(** C3 (amended).  Decoding one compressed-form metric consumes exactly
    five unsigned bytes (left bearing, right bearing, character width,
    ascent, descent), each biased by -128, sets [attributes] to 0, leaves
    the other members untouched, and exits with "unexpected eof" when
    fewer than five bytes are left.  The record is the one the full
    6-field reader [read_metric] yields on the full form of the same
    values. *)
Theorem read_compressed_metric_five_bytes (m : metric_t) (g : globals) :
  match ifp g with
  | b0 :: b1 :: b2 :: b3 :: b4 :: rest =>
      let m' := mk_metric (byte_val b0 - 128) (byte_val b1 - 128)
                          (byte_val b2 - 128) (byte_val b3 - 128)
                          (byte_val b4 - 128) 0
                          (bitmaps m) (swidth m) (glyphName m) in
      read_compressed_metric m g
      = Ok (m', mk_globals rest (read_bytes g + 5) (format g) (tables g)) /\
      forall (r : Z) (f : format32.t) (t : list table_t.t) (rest' : list byte8),
        format32.is_little_endian f = false ->
        read_metric m (mk_globals (full_form m' ++ rest') r f t)
        = Ok (m', mk_globals rest' (r + 12) f t)
  | _ => read_compressed_metric m g = Fatal (error_exit "unexpected eof")
  end.
Proof.
  destruct g as [i r f t]. cbn [ifp].
  destruct i as [|b0 [|b1 [|b2 [|b3 [|b4 rest]]]]];
    cbv [read_compressed_metric read_uint8 read8 mbind M_bind mret M_ret consumed
         ifp read_bytes format tables drop];
    try reflexivity.
  cbv zeta. split.
  - rewrite !compressed_field. f_equal. f_equal. f_equal. lia.
  - intros r' f' t' rest' Hbig.
    unfold read_metric, full_form. simpl flat_map. simpl app.
    do 6 (erewrite bind_Ok by (apply read_int16_big_cons; exact Hbig);
          cbv beta zeta).
    rewrite !full_field. unfold mret, M_ret. f_equal. f_equal. f_equal. lia.
Qed.

(** ** Bitmaps decoder: the glyph count *)

(** C2 (counterexample).  With one metric and a Bitmaps section that
    declares two glyphs the counts differ, yet the section decodes. *)
Lemma read_bitmaps_accepts_larger_count :
  2 <> 1 /\
  read_bitmaps 1 (mk_globals two_glyph_bitmaps 0 BDF_format [])
  = Ok ((2, [0; 1], [x81; x0f]%byte),
        mk_globals [] 34 (format32.mk 0 0 0 1 1 0) []).
Proof. split; [lia|reflexivity]. Qed.

Example read_bitmaps_rejects_smaller_count :
  read_bitmaps 3 (mk_globals two_glyph_bitmaps 0 BDF_format [])
  = Fatal (out_of_range "nBitmaps" 2 3).
Proof. reflexivity. Qed.

(** C2 (amended).  When decoding the Bitmaps section, the glyph count read
    from the section must be at least the Metrics glyph count: decoding
    exits whenever the count is smaller, and goes on to the offsets with
    any count that is equal or larger. *)
Theorem read_bitmaps_count_at_least (nMetrics nBitmaps : Z) (f : format32.t)
    (g g1 g2 : globals) :
  read_format32_little g = Ok (f, g1) ->
  format32.id f = PCF_DEFAULT_FORMAT ->
  read_int32 (set_format f g1) = Ok (nBitmaps, g2) ->
  (nBitmaps < nMetrics ->
   read_nBitmaps nMetrics (set_format f g1)
   = Fatal (out_of_range "nBitmaps" nBitmaps nMetrics) /\
   read_bitmaps nMetrics g = Fatal (out_of_range "nBitmaps" nBitmaps nMetrics)) /\
  (nMetrics <= nBitmaps ->
   read_nBitmaps nMetrics (set_format f g1) = Ok (nBitmaps, g2) /\
   read_bitmaps nMetrics g = read_bitmap_data f nBitmaps g2).
Proof.
  intros Hf Hid Hn.
  assert (Hsec : read_bitmaps nMetrics g
                 = (read_nBitmaps nMetrics ≫= read_bitmap_data f) (set_format f g1)).
  { unfold read_bitmaps. rewrite (bind_Ok _ _ _ _ _ Hf).
    unfold put_format at 1. unfold mbind at 1, M_bind at 1.
    rewrite Hid. reflexivity. }
  assert (Hhead : read_nBitmaps nMetrics (set_format f g1)
                  = (check_int32_min "nBitmaps" nBitmaps nMetrics
                       ≫= fun _ => mret nBitmaps) g2).
  { unfold read_nBitmaps. rewrite (bind_Ok _ _ _ _ _ Hn). reflexivity. }
  unfold check_int32_min in Hhead.
  split; intros Hcmp.
  - replace (nMetrics <=? nBitmaps) with false in Hhead
      by (symmetry; apply Z.leb_gt; exact Hcmp).
    assert (Habort : read_nBitmaps nMetrics (set_format f g1)
                     = Fatal (out_of_range "nBitmaps" nBitmaps nMetrics))
      by (rewrite Hhead; reflexivity).
    split; [exact Habort|].
    rewrite Hsec. apply bind_Fatal, Habort.
  - replace (nMetrics <=? nBitmaps) with true in Hhead
      by (symmetry; apply Z.leb_le; exact Hcmp).
    assert (Hgo : read_nBitmaps nMetrics (set_format f g1) = Ok (nBitmaps, g2))
      by (rewrite Hhead; reflexivity).
    split; [exact Hgo|].
    rewrite Hsec. apply bind_Ok, Hgo.
Qed.

Lemma read_bitmaps_count_at_least_witness :
  (2 < 1 ->
   read_nBitmaps 1 (set_format (format32.mk 0 0 0 1 1 0)
                      (mk_globals (drop 4 two_glyph_bitmaps) 4 BDF_format []))
   = Fatal (out_of_range "nBitmaps" 2 1) /\
   read_bitmaps 1 (mk_globals two_glyph_bitmaps 0 BDF_format [])
   = Fatal (out_of_range "nBitmaps" 2 1)) /\
  (1 <= 2 ->
   read_nBitmaps 1 (set_format (format32.mk 0 0 0 1 1 0)
                      (mk_globals (drop 4 two_glyph_bitmaps) 4 BDF_format []))
   = Ok (2, mk_globals (drop 8 two_glyph_bitmaps) 8 (format32.mk 0 0 0 1 1 0) []) /\
   read_bitmaps 1 (mk_globals two_glyph_bitmaps 0 BDF_format [])
   = read_bitmap_data (format32.mk 0 0 0 1 1 0) 2
       (mk_globals (drop 8 two_glyph_bitmaps) 8 (format32.mk 0 0 0 1 1 0) [])).
Proof.
  apply (read_bitmaps_count_at_least 1 2 (format32.mk 0 0 0 1 1 0)
           (mk_globals two_glyph_bitmaps 0 BDF_format [])
           (mk_globals (drop 4 two_glyph_bitmaps) 4 BDF_format [])
           (mk_globals (drop 8 two_glyph_bitmaps) 8 (format32.mk 0 0 0 1 1 0) []));
    reflexivity.
Defined.

(** ** Font bounding box *)

Lemma fontbbx_step_fields (bb m : metric_t) :
  leftSideBearing (fontbbx_step bb m) = Z.min (leftSideBearing bb) (leftSideBearing m) /\
  rightSideBearing (fontbbx_step bb m) = Z.max (rightSideBearing bb) (rightSideBearing m) /\
  ascent (fontbbx_step bb m) = Z.max (ascent bb) (ascent m) /\
  descent (fontbbx_step bb m) = Z.max (descent bb) (descent m).
Proof.
  unfold fontbbx_step.
  destruct (leftSideBearing m <? leftSideBearing bb) eqn:El;
    [apply Z.ltb_lt in El|apply Z.ltb_ge in El];
    cbn [rightSideBearing set_leftSideBearing];
    (destruct (rightSideBearing bb <? rightSideBearing m) eqn:Er;
     [apply Z.ltb_lt in Er|apply Z.ltb_ge in Er]);
    cbn [ascent set_leftSideBearing set_rightSideBearing];
    (destruct (ascent bb <? ascent m) eqn:Ea;
     [apply Z.ltb_lt in Ea|apply Z.ltb_ge in Ea]);
    cbn [descent set_leftSideBearing set_rightSideBearing set_ascent];
    (destruct (descent bb <? descent m) eqn:Ed;
     [apply Z.ltb_lt in Ed|apply Z.ltb_ge in Ed]);
    simpl; lia.
Qed.

Lemma is_max_singleton (field : metric_t -> Z) (m : metric_t) :
  is_max field [m] (field m).
Proof.
  split; [exists m; simpl; auto|].
  intros m' [<-|[]]. lia.
Qed.

Lemma is_min_singleton (field : metric_t -> Z) (m : metric_t) :
  is_min field [m] (field m).
Proof.
  split; [exists m; simpl; auto|].
  intros m' [<-|[]]. lia.
Qed.

Lemma is_max_snoc (field : metric_t -> Z) (seen : list metric_t) (m : metric_t) (v : Z) :
  is_max field seen v -> is_max field (seen ++ [m]) (Z.max v (field m)).
Proof.
  intros [(w & Hw & Hv) Hub]. split.
  - destruct (Z.max_spec v (field m)) as [[_ ->]|[_ ->]].
    + exists m. split; [apply in_or_app; simpl; auto|reflexivity].
    + exists w. split; [apply in_or_app; auto|exact Hv].
  - intros m' Hm'. apply in_app_or in Hm'. destruct Hm' as [Hm'|[<-|[]]].
    + specialize (Hub m' Hm'). lia.
    + lia.
Qed.

Lemma is_min_snoc (field : metric_t -> Z) (seen : list metric_t) (m : metric_t) (v : Z) :
  is_min field seen v -> is_min field (seen ++ [m]) (Z.min v (field m)).
Proof.
  intros [(w & Hw & Hv) Hlb]. split.
  - destruct (Z.min_spec v (field m)) as [[_ ->]|[_ ->]].
    + exists w. split; [apply in_or_app; auto|exact Hv].
    + exists m. split; [apply in_or_app; simpl; auto|reflexivity].
  - intros m' Hm'. apply in_app_or in Hm'. destruct Hm' as [Hm'|[<-|[]]].
    + specialize (Hlb m' Hm'). lia.
    + lia.
Qed.

Lemma fontbbx_loop_invariant (rest : list metric_t) :
  forall (seen : list metric_t) (bb : metric_t),
    box_of seen bb -> box_of (seen ++ rest) (fold_left fontbbx_step rest bb).
Proof.
  induction rest as [|m rest IH]; intros seen bb Hbox; simpl.
  - rewrite app_nil_r. exact Hbox.
  - replace (seen ++ m :: rest) with ((seen ++ [m]) ++ rest)
      by (rewrite <- app_assoc; reflexivity).
    apply IH. unfold box_of in *. destruct Hbox as (Hl & Hr & Ha & Hd).
    destruct (fontbbx_step_fields bb m) as (-> & -> & -> & ->).
    repeat split;
      first [apply is_min_snoc; assumption | apply is_max_snoc; assumption].
Qed.

(** C4 (counterexample).  One glyph at the limits of the [int16] fields,
    decoded from twelve bytes of a default-format Metrics section: the
    bearings span 65535 and ascent plus descent is 65534, but the
    [int16] results of [widthBits] and [height] are -1 and -2. *)
Lemma emitted_box_wraps :
  read_metric metric_init (mk_globals extreme_glyph_bytes 0 BDF_format [])
  = Ok (extreme_glyph, mk_globals [] 12 BDF_format []) /\
  rightSideBearing extreme_glyph - leftSideBearing extreme_glyph = 65535 /\
  ascent extreme_glyph + descent extreme_glyph = 65534 /\
  emitted_box [extreme_glyph] = Some (-1, -2).
Proof. repeat split. Qed.

Lemma is_max_unique (field : metric_t -> Z) (metrics : list metric_t) (v w : Z) :
  is_max field metrics v -> is_max field metrics w -> v = w.
Proof.
  intros [(mv & Hmv & Ev) Hv] [(mw & Hmw & Ew) Hw].
  pose proof (Hv mw Hmw). pose proof (Hw mv Hmv). lia.
Qed.

Lemma is_min_unique (field : metric_t -> Z) (metrics : list metric_t) (v w : Z) :
  is_min field metrics v -> is_min field metrics w -> v = w.
Proof.
  intros [(mv & Hmv & Ev) Hv] [(mw & Hmw & Ew) Hw].
  pose proof (Hv mw Hmw). pose proof (Hw mv Hmv). lia.
Qed.

(** C4 (amended).  For every non-empty Metrics array the font box holds
    the smallest left bearing and the largest right bearing, ascent and
    descent over exactly the glyphs of the array: its four members are
    these extremes.  The emitter prints
    [width = max(rightSideBearing) - min(leftSideBearing)] and
    [height = max(ascent) + max(descent)] converted to [int16]: the two
    equations hold as written whenever the difference and the sum lie in
    the [int16] range. *)
Theorem fontbbx_extremes (m0 : metric_t) (rest : list metric_t) :
  exists fontbbx : metric_t,
    compute_fontbbx (m0 :: rest) = Some fontbbx /\
    is_min leftSideBearing (m0 :: rest) (leftSideBearing fontbbx) /\
    is_max rightSideBearing (m0 :: rest) (rightSideBearing fontbbx) /\
    is_max ascent (m0 :: rest) (ascent fontbbx) /\
    is_max descent (m0 :: rest) (descent fontbbx) /\
    forall minL maxR maxA maxD : Z,
      is_min leftSideBearing (m0 :: rest) minL ->
      is_max rightSideBearing (m0 :: rest) maxR ->
      is_max ascent (m0 :: rest) maxA ->
      is_max descent (m0 :: rest) maxD ->
      leftSideBearing fontbbx = minL /\ rightSideBearing fontbbx = maxR /\
      ascent fontbbx = maxA /\ descent fontbbx = maxD /\
      emitted_box (m0 :: rest)
      = Some (to_int16 (maxR - minL), to_int16 (maxA + maxD)) /\
      (in_int16 (maxR - minL) ->
       emitted_box (m0 :: rest) = Some (maxR - minL, to_int16 (maxA + maxD)) /\
       widthBits fontbbx = maxR - minL) /\
      (in_int16 (maxA + maxD) ->
       emitted_box (m0 :: rest) = Some (to_int16 (maxR - minL), maxA + maxD) /\
       height fontbbx = maxA + maxD).
Proof.
  pose proof (fontbbx_loop_invariant rest [m0] m0) as Hbox.
  unfold box_of in Hbox. destruct Hbox as (Hl & Hr & Ha & Hd).
  { unfold box_of. repeat split; first [apply is_min_singleton | apply is_max_singleton]. }
  simpl app in *.
  exists (fold_left fontbbx_step rest m0).
  split; [reflexivity|].
  split; [exact Hl|]. split; [exact Hr|]. split; [exact Ha|]. split; [exact Hd|].
  intros minL maxR maxA maxD HL HR HA HD.
  pose proof (is_min_unique _ _ _ _ Hl HL) as EL.
  pose proof (is_max_unique _ _ _ _ Hr HR) as ER.
  pose proof (is_max_unique _ _ _ _ Ha HA) as EA.
  pose proof (is_max_unique _ _ _ _ Hd HD) as ED.
  assert (Ebox : emitted_box (m0 :: rest)
                 = Some (to_int16 (maxR - minL), to_int16 (maxA + maxD))).
  { unfold emitted_box. simpl. unfold widthBits, height.
    rewrite EL, ER, EA, ED. reflexivity. }
  split; [exact EL|]. split; [exact ER|]. split; [exact EA|]. split; [exact ED|].
  split; [exact Ebox|]. split.
  - intros Hfit. split.
    + rewrite Ebox, (to_int16_id _ Hfit). reflexivity.
    + unfold widthBits. rewrite EL, ER. apply to_int16_id, Hfit.
  - intros Hfit. split.
    + rewrite Ebox, (to_int16_id _ Hfit). reflexivity.
    + unfold height. rewrite EA, ED. apply to_int16_id, Hfit.
Qed.

(** A compressed section of two glyphs decodes to their metrics, and the
    box over them is 9 wide and 8 high. *)
Example two_glyph_metrics_box :
  exists (metrics : list metric_t) (g' : globals),
    read_metrics (mk_globals two_glyph_metrics 8 BDF_format []) = Ok (metrics, g') /\
    read_bytes g' = 24 /\
    map leftSideBearing metrics = [0; -1] /\
    map rightSideBearing metrics = [8; 6] /\
    map ascent metrics = [7; 5] /\
    map descent metrics = [1; 0] /\
    emitted_box metrics = Some (9, 8).
Proof.
  exists [mk_metric 0 8 8 7 1 0 None 0 sv_null;
          mk_metric (-1) 6 8 5 0 0 None 0 sv_null].
  exists (mk_globals [] 24 (format32.mk 1 0 0 1 1 0) []).
  vm_compute. repeat split.
Qed.

(** ** Property queries and the swidth fallback *)

Lemma get_property_value_absent (props : list props_t.t) (name : string) :
  absent props name -> get_property_value props name = Ok (-1).
Proof.
  induction props as [|p props IH]; intros Habs; simpl; [reflexivity|].
  rewrite (Habs p) by (simpl; auto).
  apply IH. intros q Hq. apply Habs. simpl. auto.
Qed.

Lemma get_property_value_app_absent (props more : list props_t.t) (name : string) :
  absent props name ->
  get_property_value (props ++ more) name = get_property_value more name.
Proof.
  induction props as [|p props IH]; intros Habs; simpl; [reflexivity|].
  rewrite (Habs p) by (simpl; auto).
  apply IH. intros q Hq. apply Habs. simpl. auto.
Qed.

(** C10.  For every properties list and every name no property has,
    [get_property_value] returns -1, the same answer it gives when an
    integer property of that name with value -1 is present; and with
    RESOLUTION_X absent the swidth computation takes the branch for a
    non-positive resolution, which derives it from RESOLUTION. *)
Theorem absent_property_reads_minus_one (props : list props_t.t) (name : string) :
  absent props name ->
  get_property_value props name = Ok (-1) /\
  get_property_value (props ++ [int_prop name (-1)]) name
  = get_property_value props name /\
  (name = "RESOLUTION_X" ->
   swidth_resolution props
   = (get_property_value props "RESOLUTION" ≫= fun r =>
      mret (int_of_double (double_of_int r / 100.0 * 72.27)%float))).
Proof.
  intros Habs. split; [|split].
  - apply get_property_value_absent, Habs.
  - rewrite get_property_value_app_absent by exact Habs.
    rewrite (get_property_value_absent props name Habs).
    simpl. unfold strcmp_eq. simpl. rewrite String.eqb_refl. reflexivity.
  - intros ->. unfold swidth_resolution.
    rewrite (get_property_value_absent props "RESOLUTION_X" Habs). reflexivity.
Qed.

Lemma absent_property_reads_minus_one_witness :
  get_property_value [int_prop "POINT_SIZE" 100; int_prop "RESOLUTION" 100]
                     "RESOLUTION_X" = Ok (-1) /\
  get_property_value ([int_prop "POINT_SIZE" 100; int_prop "RESOLUTION" 100]
                        ++ [int_prop "RESOLUTION_X" (-1)]) "RESOLUTION_X"
  = get_property_value [int_prop "POINT_SIZE" 100; int_prop "RESOLUTION" 100]
                       "RESOLUTION_X" /\
  ("RESOLUTION_X" = "RESOLUTION_X" ->
   swidth_resolution [int_prop "POINT_SIZE" 100; int_prop "RESOLUTION" 100]
   = (get_property_value [int_prop "POINT_SIZE" 100; int_prop "RESOLUTION" 100]
                         "RESOLUTION" ≫= fun r =>
      mret (int_of_double (double_of_int r / 100.0 * 72.27)%float))).
Proof.
  apply (absent_property_reads_minus_one
           [int_prop "POINT_SIZE" 100; int_prop "RESOLUTION" 100] "RESOLUTION_X").
  intros p [<-|[<-|[]]]; reflexivity.
Defined.

Example resolution_fallback_value :
  swidth_resolution [int_prop "POINT_SIZE" 100; int_prop "RESOLUTION" 100] = Ok 72.
Proof. vm_compute. reflexivity. Qed.

Lemma seek_absent (type : Z) (g : globals) :
  find (fun t => table_t.type t =? type) (tables g) = None ->
  seek type g = Ok (false, g).
Proof.
  intros Hnone. unfold seek.
  pose proof (seek_loop_spec type g (tables g)) as H.
  rewrite Hnone in H. exact H.
Qed.

Lemma swidth_formula_reference :
  swidth_formula 10 75 (double_of_int 100 / 10.0)%float = 963.
Proof. vm_compute. reflexivity. Qed.

(** C6.  When the table of contents has no Swidths section, RESOLUTION_X
    is an integer property equal to 75 and POINT_SIZE one equal to 100,
    every glyph with [characterWidth = 10] gets the swidth 963, which is
    the closed form [10 / (75/72.27) / ((100/10)/1000)] truncated to an
    integer; the glyph is otherwise unchanged and no byte is read. *)
Theorem swidth_fallback_reference (props : list props_t.t)
    (metrics : list metric_t) (g : globals) :
  find (fun t => table_t.type t =? PCF_SWIDTHS) (tables g) = None ->
  get_property_value props "RESOLUTION_X" = Ok 75 ->
  get_property_value props "POINT_SIZE" = Ok 100 ->
  exists metrics' : list metric_t,
    read_swidths props metrics g = Ok (metrics', g) /\
    length metrics' = length metrics /\
    (forall (i : nat) (m : metric_t),
       metrics !! i = Some m -> characterWidth m = 10 ->
       exists m' : metric_t,
         metrics' !! i = Some m' /\
         swidth m' = 963 /\
         swidth m' = closed_form_swidth 10 75 100 /\
         characterWidth m' = 10 /\
         leftSideBearing m' = leftSideBearing m /\
         rightSideBearing m' = rightSideBearing m /\
         ascent m' = ascent m /\ descent m' = descent m /\
         attributes m' = attributes m /\
         bitmaps m' = bitmaps m /\ glyphName m' = glyphName m) /\
    closed_form_swidth 10 75 100 = 963.
Proof.
  intros Hnone Hrx Hps.
  exists (map (fun m => set_swidth
                 (swidth_formula (characterWidth m) 75 (double_of_int 100 / 10.0)%float) m)
              metrics).
  split; [|split; [|split]].
  - unfold read_swidths. rewrite (bind_Ok _ _ _ _ _ (seek_absent _ g Hnone)).
    unfold compute_swidths, swidth_resolution. rewrite Hrx. simpl.
    rewrite Hps. reflexivity.
  - apply length_map.
  - intros i m Hi Hw.
    change (map ?f metrics) with (f <$> metrics).
    rewrite list_lookup_fmap, Hi. cbn [fmap option_fmap option_map].
    rewrite Hw, swidth_formula_reference.
    exists (set_swidth 963 m). split; [reflexivity|].
    split; [reflexivity|].
    split; [vm_compute; reflexivity|].
    split; [exact Hw|].
    repeat split.
  - vm_compute. reflexivity.
Qed.

Lemma swidth_fallback_reference_witness :
  exists metrics' : list metric_t,
    read_swidths [int_prop "RESOLUTION_X" 75; int_prop "POINT_SIZE" 100]
                 [set_characterWidth 10 metric_init]
                 (mk_globals [] 0 BDF_format []) =
    Ok (metrics', mk_globals [] 0 BDF_format []) /\
    length metrics' = length [set_characterWidth 10 metric_init] /\
    (forall (i : nat) (m : metric_t),
       [set_characterWidth 10 metric_init] !! i = Some m -> characterWidth m = 10 ->
       exists m' : metric_t,
         metrics' !! i = Some m' /\
         swidth m' = 963 /\
         swidth m' = closed_form_swidth 10 75 100 /\
         characterWidth m' = 10 /\
         leftSideBearing m' = leftSideBearing m /\
         rightSideBearing m' = rightSideBearing m /\
         ascent m' = ascent m /\ descent m' = descent m /\
         attributes m' = attributes m /\
         bitmaps m' = bitmaps m /\ glyphName m' = glyphName m) /\
    closed_form_swidth 10 75 100 = 963.
Proof.
  apply (swidth_fallback_reference
           [int_prop "RESOLUTION_X" 75; int_prop "POINT_SIZE" 100]
           [set_characterWidth 10 metric_init]
           (mk_globals [] 0 BDF_format [])); reflexivity.
Defined.

(** ** Emitter: the font entry name *)

(** The terminator lands in [ifilename]; the printed copy keeps the
    whole path. *)
Lemma strip_period_buffers (path : string) :
  fontname (strip_period path) = path /\
  ifilename (strip_period path) = extension_stripped path.
Proof. split; reflexivity. Qed.

(** C1 (the code at the failing input).  For the input path "font.pcf"
    the extension is cut off the [ifilename] buffer, which is not printed
    any more, and the entry is named "font.pcf" where the name with the
    final extension stripped is "font". *)
Theorem emitted_font_name_keeps_extension :
  emitted_font_name "font.pcf" = "font.pcf" /\
  ifilename (strip_period "font.pcf") = "font" /\
  extension_stripped "font.pcf" = "font" /\
  emitted_font_name "font.pcf" <> extension_stripped "font.pcf".
Proof.
  repeat split. vm_compute. discriminate.
Qed.

(** * Further properties of the decoder *)

(** ** Integer readers *)

Lemma byte_val_range (a : byte8) : 0 <= byte_val a < 256.
Proof.
  unfold byte_val. pose proof (Byte.to_N_bounded a). lia.
Qed.

Lemma char_low_byte (a : byte8) : Z.land (to_char (byte_val a)) 255 = byte_val a.
Proof. destruct a; reflexivity. Qed.

Lemma byte_val_of (z : Z) : byte_val (byte_of z) = z mod 256.
Proof.
  unfold byte_of, byte_val, to_uint8. change (2 ^ 8) with 256.
  pose proof (Z.mod_pos_bound z 256 ltac:(lia)) as Hz.
  destruct (Byte.of_N (Z.to_N (z mod 256))) as [b|] eqn:E.
  - apply Byte.to_of_N in E. rewrite E. lia.
  - pose proof (Byte.to_of_N_option_map (Z.to_N (z mod 256))) as H.
    rewrite E in H. simpl in H.
    destruct (N.leb (Z.to_N (z mod 256)) 255) eqn:El; [discriminate|].
    apply N.leb_gt in El. lia.
Qed.

(** Or-ing a value below [2^k] into a multiple of [2^k] adds it. *)
Lemma lor_low_bits (z x k : Z) :
  0 <= k -> (2 ^ k | z) -> 0 <= x < 2 ^ k -> Z.lor z x = z + x.
Proof.
  intros Hk [q ->] Hx.
  rewrite <- Z.add_lor_land.
  assert (Hland : Z.land (q * 2 ^ k) x = 0).
  { apply Z.bits_inj'. intros m Hm. rewrite Z.land_spec, Z.bits_0.
    destruct (Z.lt_ge_cases m k) as [Hlt|Hge].
    - rewrite Z.mul_pow2_bits_low by exact Hlt. reflexivity.
    - rewrite <- (Z.mod_small x (2 ^ k)) by exact Hx.
      rewrite Z.mod_pow2_bits_high by lia. apply andb_false_r. }
  rewrite Hland. lia.
Qed.

Lemma make_int16_bytes (a b : byte8) :
  make_int16 (to_char (byte_val a)) (to_char (byte_val b))
  = byte_val a * 256 + byte_val b.
Proof.
  unfold make_int16. rewrite !char_low_byte.
  pose proof (byte_val_range a). pose proof (byte_val_range b).
  rewrite Z.shiftl_mul_pow2 by lia. change (2 ^ 8) with 256.
  apply (lor_low_bits _ _ 8); [lia| |simpl; lia].
  exists (byte_val a). reflexivity.
Qed.

Lemma make_int32_bytes (a b c d : byte8) :
  make_int32 (to_char (byte_val a)) (to_char (byte_val b))
             (to_char (byte_val c)) (to_char (byte_val d))
  = to_int32 (byte_val a * 2 ^ 24 + byte_val b * 2 ^ 16 + byte_val c * 2 ^ 8
              + byte_val d).
Proof.
  unfold make_int32. rewrite !char_low_byte.
  pose proof (byte_val_range a) as Ha. pose proof (byte_val_range b) as Hb.
  pose proof (byte_val_range c) as Hc. pose proof (byte_val_range d) as Hd.
  rewrite !Z.shiftl_mul_pow2 by lia.
  assert (Htop : to_int32 (byte_val a * 2 ^ 24)
                 = byte_val a * 2 ^ 24 - (if 128 <=? byte_val a then 2 ^ 32 else 0)).
  { unfold to_int32, wrap_signed.
    change (2 ^ (32 - 1)) with 2147483648. change (2 ^ 32) with 4294967296.
    change (2 ^ 24) with 16777216.
    destruct (128 <=? byte_val a) eqn:E;
      [apply Z.leb_le in E|apply Z.leb_gt in E].
    - rewrite <- (Z.mod_unique (byte_val a * 16777216 + 2147483648) 4294967296 1
                    (byte_val a * 16777216 + 2147483648 - 4294967296)); lia.
    - rewrite Z.mod_small; lia. }
  assert (Hwrap : to_int32 (byte_val a * 2 ^ 24 + byte_val b * 2 ^ 16
                            + byte_val c * 2 ^ 8 + byte_val d)
                  = byte_val a * 2 ^ 24 + byte_val b * 2 ^ 16 + byte_val c * 2 ^ 8
                    + byte_val d - (if 128 <=? byte_val a then 2 ^ 32 else 0)).
  { unfold to_int32, wrap_signed.
    change (2 ^ (32 - 1)) with 2147483648. change (2 ^ 32) with 4294967296.
    change (2 ^ 24) with 16777216. change (2 ^ 16) with 65536.
    change (2 ^ 8) with 256.
    destruct (128 <=? byte_val a) eqn:E;
      [apply Z.leb_le in E|apply Z.leb_gt in E].
    - rewrite <- (Z.mod_unique (byte_val a * 16777216 + byte_val b * 65536
                                + byte_val c * 256 + byte_val d + 2147483648)
                    4294967296 1
                    (byte_val a * 16777216 + byte_val b * 65536
                     + byte_val c * 256 + byte_val d + 2147483648 - 4294967296));
        lia.
    - rewrite Z.mod_small; lia. }
  rewrite Htop, Hwrap.
  set (top := byte_val a * 2 ^ 24 - (if 128 <=? byte_val a then 2 ^ 32 else 0)).
  assert (Hdiv : forall k, 0 <= k <= 24 -> (2 ^ k | top)).
  { intros k Hk. unfold top. apply Z.divide_sub_r.
    - apply Z.divide_mul_r. exists (2 ^ (24 - k)).
      rewrite <- Z.pow_add_r by lia. f_equal. lia.
    - destruct (128 <=? byte_val a); [|apply Z.divide_0_r].
      exists (2 ^ (32 - k)). rewrite <- Z.pow_add_r by lia. f_equal. lia. }
  assert (H24 : 2 ^ 24 = 16777216) by reflexivity.
  assert (H16 : 2 ^ 16 = 65536) by reflexivity.
  assert (H8 : 2 ^ 8 = 256) by reflexivity.
  rewrite (lor_low_bits top (byte_val b * 2 ^ 16) 24);
    [|lia|apply Hdiv; lia|lia].
  rewrite (lor_low_bits (top + byte_val b * 2 ^ 16) (byte_val c * 2 ^ 8) 16);
    [|lia| |lia].
  2:{ apply Z.divide_add_r; [apply Hdiv; lia|].
      apply Z.divide_mul_r. apply Z.divide_refl. }
  rewrite (lor_low_bits (top + byte_val b * 2 ^ 16 + byte_val c * 2 ^ 8)
                        (byte_val d) 8); [|lia| |lia].
  2:{ apply Z.divide_add_r; [apply Z.divide_add_r; [apply Hdiv; lia|]|].
      - apply Z.divide_mul_r. exists (2 ^ 8). reflexivity.
      - apply Z.divide_mul_r. apply Z.divide_refl. }
  unfold top. lia.
Qed.

Lemma decode_int16_bytes (v : Z) :
  byte_val (byte_of (Z.shiftr v 8)) * 256 + byte_val (byte_of v) = v mod 65536.
Proof.
  rewrite !byte_val_of, Z.shiftr_div_pow2 by lia. change (2 ^ 8) with 256.
  Z.div_mod_to_equations. lia.
Qed.

Lemma decode_int32_bytes (v : Z) :
  byte_val (byte_of (Z.shiftr v 24)) * 2 ^ 24
  + byte_val (byte_of (Z.shiftr v 16)) * 2 ^ 16
  + byte_val (byte_of (Z.shiftr v 8)) * 2 ^ 8 + byte_val (byte_of v)
  = v mod 2 ^ 32.
Proof.
  rewrite !byte_val_of, !Z.shiftr_div_pow2 by lia.
  change (2 ^ 32) with 4294967296. change (2 ^ 24) with 16777216.
  change (2 ^ 16) with 65536. change (2 ^ 8) with 256.
  Z.div_mod_to_equations. lia.
Qed.

Lemma to_int16_mod (v : Z) : in_int16 v -> to_int16 (v mod 65536) = v.
Proof.
  unfold in_int16, to_int16, wrap_signed. intros Hv.
  change (2 ^ (16 - 1)) with 32768. change (2 ^ 16) with 65536.
  Z.div_mod_to_equations. lia.
Qed.

Lemma to_int32_mod (v : Z) : in_int32 v -> to_int32 (v mod 2 ^ 32) = v.
Proof.
  unfold in_int32, to_int32, wrap_signed. intros Hv.
  change (2 ^ (32 - 1)) with 2147483648. change (2 ^ 32) with 4294967296.
  Z.div_mod_to_equations. lia.
Qed.

(** The 16-bit and 32-bit readers on a state with the bytes in sight. *)
Lemma read_int16_big_bytes (a b : byte8) (rest : list byte8) (r : Z)
    (f : format32.t) (t : list table_t.t) :
  read_int16_big (mk_globals (a :: b :: rest) r f t)
  = Ok (byte_val a * 256 + byte_val b, mk_globals rest (r + 2) f t).
Proof.
  cbv [read_int16_big read8 mbind M_bind mret M_ret consumed ifp read_bytes
       format tables drop].
  rewrite make_int16_bytes. f_equal. f_equal. f_equal. lia.
Qed.

Lemma read_int16_little_bytes (a b : byte8) (rest : list byte8) (r : Z)
    (f : format32.t) (t : list table_t.t) :
  read_int16_little (mk_globals (a :: b :: rest) r f t)
  = Ok (byte_val b * 256 + byte_val a, mk_globals rest (r + 2) f t).
Proof.
  cbv [read_int16_little read8 mbind M_bind mret M_ret consumed ifp read_bytes
       format tables drop].
  rewrite make_int16_bytes. f_equal. f_equal. f_equal. lia.
Qed.

Lemma read_int32_big_bytes (a b c d : byte8) (rest : list byte8) (r : Z)
    (f : format32.t) (t : list table_t.t) :
  read_int32_big (mk_globals (a :: b :: c :: d :: rest) r f t)
  = Ok (to_int32 (byte_val a * 2 ^ 24 + byte_val b * 2 ^ 16 + byte_val c * 2 ^ 8
                  + byte_val d),
        mk_globals rest (r + 4) f t).
Proof.
  cbv [read_int32_big read8 mbind M_bind mret M_ret consumed ifp read_bytes
       format tables drop].
  rewrite make_int32_bytes. f_equal. f_equal. f_equal. lia.
Qed.

Lemma read_int32_little_bytes (a b c d : byte8) (rest : list byte8) (r : Z)
    (f : format32.t) (t : list table_t.t) :
  read_int32_little (mk_globals (a :: b :: c :: d :: rest) r f t)
  = Ok (to_int32 (byte_val d * 2 ^ 24 + byte_val c * 2 ^ 16 + byte_val b * 2 ^ 8
                  + byte_val a),
        mk_globals rest (r + 4) f t).
Proof.
  cbv [read_int32_little read8 mbind M_bind mret M_ret consumed ifp read_bytes
       format tables drop].
  rewrite make_int32_bytes. f_equal. f_equal. f_equal. lia.
Qed.

(** Fewer bytes than a reader needs: it exits. *)
Lemma read_int16_short (g : globals) :
  (length (ifp g) < 2)%nat ->
  read_int16_big g = Fatal (error_exit "unexpected eof") /\
  read_int16_little g = Fatal (error_exit "unexpected eof").
Proof.
  destruct g as [i r f t]. simpl. intros Hlen.
  destruct i as [|a [|b rest]]; [| |simpl in Hlen; lia]; split; reflexivity.
Qed.

Lemma read_int32_short (g : globals) :
  (length (ifp g) < 4)%nat ->
  read_int32_big g = Fatal (error_exit "unexpected eof") /\
  read_int32_little g = Fatal (error_exit "unexpected eof").
Proof.
  destruct g as [i r f t]. simpl. intros Hlen.
  destruct i as [|a [|b [|c [|d rest]]]]; [| | | |simpl in Hlen; lia];
    split; reflexivity.
Qed.

(** X1.  [read_int16] returns the unsigned value of the next two bytes in
    the byte order of the current format, always within 0..65535, and has
    then consumed exactly two bytes; with fewer than two bytes left it
    exits with "unexpected eof". *)
Theorem read_int16_unsigned (g : globals) :
  match ifp g with
  | a :: b :: rest =>
      let v := if format32.is_little_endian (format g)
               then byte_val b * 256 + byte_val a
               else byte_val a * 256 + byte_val b in
      read_int16 g
      = Ok (v, mk_globals rest (read_bytes g + 2) (format g) (tables g)) /\
      0 <= v <= 65535
  | _ => read_int16 g = Fatal (error_exit "unexpected eof")
  end.
Proof.
  destruct g as [i r f t]. cbn [ifp format read_bytes tables].
  unfold read_int16, get_format. cbv [mbind M_bind format].
  destruct i as [|a [|b rest]].
  - destruct (format32.is_little_endian f); reflexivity.
  - destruct (format32.is_little_endian f); reflexivity.
  - cbv zeta. pose proof (byte_val_range a). pose proof (byte_val_range b).
    destruct (format32.is_little_endian f).
    + rewrite read_int16_little_bytes. split; [reflexivity|lia].
    + rewrite read_int16_big_bytes. split; [reflexivity|lia].
Qed.

(** X2.  [read_int32] returns the next four bytes, combined in the byte
    order of the current format and read as a signed 32-bit value, and has
    then consumed exactly four bytes; [read_uint32] returns the same bits
    as an unsigned value; with fewer than four bytes left both exit with
    "unexpected eof". *)
Theorem read_int32_value (g : globals) :
  match ifp g with
  | a :: b :: c :: d :: rest =>
      let u := if format32.is_little_endian (format g)
               then byte_val d * 2 ^ 24 + byte_val c * 2 ^ 16
                    + byte_val b * 2 ^ 8 + byte_val a
               else byte_val a * 2 ^ 24 + byte_val b * 2 ^ 16
                    + byte_val c * 2 ^ 8 + byte_val d in
      let g' := mk_globals rest (read_bytes g + 4) (format g) (tables g) in
      read_int32 g = Ok (to_int32 u, g') /\
      in_int32 (to_int32 u) /\
      read_uint32 g = Ok (u, g')
  | _ =>
      read_int32 g = Fatal (error_exit "unexpected eof") /\
      read_uint32 g = Fatal (error_exit "unexpected eof")
  end.
Proof.
  destruct g as [i r f t]. cbn [ifp format read_bytes tables].
  unfold read_uint32, read_int32, get_format. cbv [mbind M_bind format].
  destruct i as [|a [|b [|c [|d rest]]]];
    try (destruct (format32.is_little_endian f); split; reflexivity).
  cbv zeta.
  pose proof (byte_val_range a). pose proof (byte_val_range b).
  pose proof (byte_val_range c). pose proof (byte_val_range d).
  assert (Hu : forall u, 0 <= u < 2 ^ 32 -> to_uint32 (to_int32 u) = u).
  { intros u Hu. unfold to_uint32, to_int32, wrap_signed.
    change (2 ^ (32 - 1)) with 2147483648. change (2 ^ 32) with 4294967296 in *.
    Z.div_mod_to_equations. lia. }
  assert (H24 : 2 ^ 24 = 16777216) by reflexivity.
  assert (H16 : 2 ^ 16 = 65536) by reflexivity.
  assert (H8 : 2 ^ 8 = 256) by reflexivity.
  assert (H32 : 2 ^ 32 = 4294967296) by reflexivity.
  destruct (format32.is_little_endian f).
  - rewrite read_int32_little_bytes. split; [reflexivity|].
    split; [apply to_int32_range|].
    unfold mret, M_ret. rewrite Hu by lia. reflexivity.
  - rewrite read_int32_big_bytes. split; [reflexivity|].
    split; [apply to_int32_range|].
    unfold mret, M_ret. rewrite Hu by lia. reflexivity.
Qed.

(** X3.  Round trip of the 32-bit readers: every signed 32-bit value
    written most significant byte first is read back by [read_int32_big],
    written least significant byte first by [read_int32_little]. *)
Theorem read_int32_round_trip (v r : Z) (rest : list byte8) (f : format32.t)
    (t : list table_t.t) :
  in_int32 v ->
  read_int32_big (mk_globals (encode_int32_big v ++ rest) r f t)
  = Ok (v, mk_globals rest (r + 4) f t) /\
  read_int32_little (mk_globals (rev (encode_int32_big v) ++ rest) r f t)
  = Ok (v, mk_globals rest (r + 4) f t).
Proof.
  intros Hv. unfold encode_int32_big. simpl rev. simpl app.
  rewrite read_int32_big_bytes, read_int32_little_bytes.
  rewrite decode_int32_bytes, to_int32_mod by exact Hv. split; reflexivity.
Qed.

Lemma read_int32_round_trip_witness :
  read_int32_big (mk_globals (encode_int32_big (-2) ++ [x07]%byte) 0 BDF_format [])
  = Ok (-2, mk_globals [x07]%byte (0 + 4) BDF_format []) /\
  read_int32_little
    (mk_globals (rev (encode_int32_big (-2)) ++ [x07]%byte) 0 BDF_format [])
  = Ok (-2, mk_globals [x07]%byte (0 + 4) BDF_format []).
Proof.
  apply (read_int32_round_trip (-2) 0 [x07]%byte BDF_format []).
  unfold in_int32. lia.
Defined.

(** ** Readers that take a fixed number of bytes *)

Lemma takes_Ok {A : Type} (n : nat) (m : M A) (g g' : globals) (a : A) :
  takes n m -> m g = Ok (a, g') ->
  (n <= length (ifp g))%nat /\ g' = consumed n g.
Proof.
  intros Hm Hok. specialize (Hm g).
  destruct (n <=? length (ifp g))%nat eqn:E.
  - apply Nat.leb_le in E. destruct Hm as (a' & Hm).
    rewrite Hm in Hok. injection Hok as _ <-. auto.
  - rewrite Hm in Hok. discriminate.
Qed.

Lemma takes_ret {A : Type} (a : A) : takes 0 (mret a : M A).
Proof.
  intros g. simpl. exists a. rewrite consumed_0. reflexivity.
Qed.

Lemma takes_get_format : takes 0 get_format.
Proof.
  intros g. simpl. exists (format g). rewrite consumed_0. reflexivity.
Qed.

Lemma takes_bind {A B : Type} (n k : nat) (m : M A) (f : A -> M B) :
  takes n m -> (forall a, takes k (f a)) -> takes (n + k) (m ≫= f).
Proof.
  intros Hm Hf g. specialize (Hm g).
  destruct (n <=? length (ifp g))%nat eqn:En.
  - apply Nat.leb_le in En. destruct Hm as (a & Hm).
    rewrite (bind_Ok _ _ _ _ _ Hm).
    specialize (Hf a (consumed n g)).
    assert (Hlen : length (ifp (consumed n g)) = (length (ifp g) - n)%nat)
      by (simpl; apply length_drop).
    rewrite Hlen in Hf.
    destruct (k <=? length (ifp g) - n)%nat eqn:Ek.
    + apply Nat.leb_le in Ek.
      replace (n + k <=? length (ifp g))%nat with true
        by (symmetry; apply Nat.leb_le; lia).
      destruct Hf as (b & Hf). exists b.
      rewrite Hf, consumed_consumed. reflexivity.
    + apply Nat.leb_gt in Ek.
      replace (n + k <=? length (ifp g))%nat with false
        by (symmetry; apply Nat.leb_gt; lia).
      exact Hf.
  - apply Nat.leb_gt in En.
    replace (n + k <=? length (ifp g))%nat with false
      by (symmetry; apply Nat.leb_gt; lia).
    apply bind_Fatal, Hm.
Qed.

Lemma takes_read8 : takes 1 read8.
Proof.
  intros g. destruct (ifp g) as [|a rest] eqn:E; simpl.
  - apply read8_nil, E.
  - exists (to_char (byte_val a)). apply (read8_cons g a rest E).
Qed.

Lemma takes_read_bool8 : takes 1 read_bool8.
Proof.
  apply (takes_bind 1 0 read8); [apply takes_read8|intros a; apply takes_ret].
Qed.

Lemma takes_read_uint8 : takes 1 read_uint8.
Proof.
  apply (takes_bind 1 0 read8); [apply takes_read8|intros a; apply takes_ret].
Qed.

Lemma takes_read_int16_big : takes 2 read_int16_big.
Proof.
  apply (takes_bind 1 1 read8); [apply takes_read8|intros a].
  apply (takes_bind 1 0 read8); [apply takes_read8|intros b; apply takes_ret].
Qed.

Lemma takes_read_int16_little : takes 2 read_int16_little.
Proof.
  apply (takes_bind 1 1 read8); [apply takes_read8|intros a].
  apply (takes_bind 1 0 read8); [apply takes_read8|intros b; apply takes_ret].
Qed.

Lemma takes_read_int16 : takes 2 read_int16.
Proof.
  apply (takes_bind 0 2 get_format); [apply takes_get_format|intros f].
  destruct (format32.is_little_endian f);
    [apply takes_read_int16_little|apply takes_read_int16_big].
Qed.

Lemma takes_read_int32_big : takes 4 read_int32_big.
Proof.
  apply (takes_bind 1 3 read8); [apply takes_read8|intros a].
  apply (takes_bind 1 2 read8); [apply takes_read8|intros b].
  apply (takes_bind 1 1 read8); [apply takes_read8|intros c].
  apply (takes_bind 1 0 read8); [apply takes_read8|intros d; apply takes_ret].
Qed.

Lemma takes_read_int32_little : takes 4 read_int32_little.
Proof.
  apply (takes_bind 1 3 read8); [apply takes_read8|intros a].
  apply (takes_bind 1 2 read8); [apply takes_read8|intros b].
  apply (takes_bind 1 1 read8); [apply takes_read8|intros c].
  apply (takes_bind 1 0 read8); [apply takes_read8|intros d; apply takes_ret].
Qed.

Lemma takes_read_int32 : takes 4 read_int32.
Proof.
  apply (takes_bind 0 4 get_format); [apply takes_get_format|intros f].
  destruct (format32.is_little_endian f);
    [apply takes_read_int32_little|apply takes_read_int32_big].
Qed.

Lemma takes_read_uint32 : takes 4 read_uint32.
Proof.
  apply (takes_bind 4 0 read_int32); [apply takes_read_int32|intros v; apply takes_ret].
Qed.

Lemma takes_read_format32_little : takes 4 read_format32_little.
Proof.
  apply (takes_bind 4 0 read_int32_little);
    [apply takes_read_int32_little|intros v; apply takes_ret].
Qed.

Lemma takes_skip_loop (n : nat) : takes n (skip_loop n).
Proof.
  induction n as [|n IH]; simpl; [apply takes_ret|].
  apply (takes_bind 1 n read8); [apply takes_read8|intros _; exact IH].
Qed.

Lemma takes_read_metric (m : metric_t) : takes 12 (read_metric m).
Proof.
  unfold read_metric.
  do 6 (apply (takes_bind 2 _ read_int16); [apply takes_read_int16|intros ?]).
  apply takes_ret.
Qed.

Lemma takes_read_compressed_metric (m : metric_t) :
  takes 5 (read_compressed_metric m).
Proof.
  unfold read_compressed_metric.
  do 5 (apply (takes_bind 1 _ read_uint8); [apply takes_read_uint8|intros ?]).
  apply takes_ret.
Qed.

Lemma takes_read_uint32s (n : nat) : takes (4 * n) (read_uint32s n).
Proof.
  induction n as [|n IH]; simpl read_uint32s.
  - apply takes_ret.
  - replace (4 * S n)%nat with (4 + (4 * n + 0))%nat by lia.
    apply takes_bind; [apply takes_read_uint32|intros v].
    apply takes_bind; [exact IH|intros vs; apply takes_ret].
Qed.

(** ** Skipping and the Metrics section *)

Lemma bind_inv {A B : Type} (m : M A) (f : A -> M B) (g g' : globals) (b : B) :
  (m ≫= f) g = Ok (b, g') ->
  exists (a : A) (g1 : globals), m g = Ok (a, g1) /\ f a g1 = Ok (b, g').
Proof.
  unfold mbind, M_bind. destruct (m g) as [[a g1]|e]; [|discriminate].
  intros H. exists a, g1. split; [reflexivity|exact H].
Qed.

Lemma ret_inv {A : Type} (a b : A) (g g' : globals) :
  (mret a : M A) g = Ok (b, g') -> b = a /\ g' = g.
Proof. unfold mret, M_ret. intros H. injection H as <- <-. auto. Qed.

Lemma check_int32_min_inv (str : string) (value min : Z) (g g' : globals) (u : unit) :
  check_int32_min str value min g = Ok (u, g') -> min <= value /\ g' = g.
Proof.
  unfold check_int32_min. destruct (min <=? value) eqn:E.
  - intros H. apply ret_inv in H. apply Z.leb_le in E. tauto.
  - discriminate.
Qed.

(** X4.  [skip(n)] does nothing for [n <= 0]; for a positive [n] it
    consumes exactly [n] bytes when the input holds that many and exits
    with "unexpected eof" otherwise. *)
Theorem skip_behaviour (n : Z) (g : globals) :
  (n <= 0 -> skip n g = Ok (tt, g)) /\
  (0 <= n <= Z.of_nat (length (ifp g)) ->
   skip n g = Ok (tt, mk_globals (drop (Z.to_nat n) (ifp g)) (read_bytes g + n)
                                 (format g) (tables g))) /\
  (Z.of_nat (length (ifp g)) < n -> skip n g = Fatal (error_exit "unexpected eof")).
Proof.
  unfold skip. split; [|split]; intros Hn.
  - replace (Z.to_nat n) with O by lia. simpl. reflexivity.
  - rewrite skip_loop_Ok by lia. unfold consumed. f_equal. f_equal. f_equal. lia.
  - apply skip_loop_eof. lia.
Qed.

(** The fields [read_metric] stores are within their types. *)
Lemma read_metric_Ok (m m' : metric_t) (g g' : globals) :
  read_metric m g = Ok (m', g') ->
  in_int16 (leftSideBearing m') /\ in_int16 (rightSideBearing m') /\
  in_int16 (characterWidth m') /\ in_int16 (ascent m') /\
  in_int16 (descent m') /\ 0 <= attributes m' <= 65535 /\
  bitmaps m' = bitmaps m /\ swidth m' = swidth m /\ glyphName m' = glyphName m.
Proof.
  unfold read_metric. intros H.
  do 6 (apply bind_inv in H; destruct H as (? & ? & _ & H); cbv zeta in H).
  apply ret_inv in H. destruct H as [-> _]. simpl.
  repeat split; try apply to_int16_range.
  - unfold to_uint16. apply Z.mod_pos_bound. reflexivity.
  - unfold to_uint16. change (2 ^ 16) with 65536.
    match goal with
    | |- ?z mod 65536 <= _ => pose proof (Z.mod_pos_bound z 65536 ltac:(lia))
    end. lia.
Qed.

(** X5.  [read_metric] consumes exactly twelve bytes in either byte order
    and exits with "unexpected eof" when fewer are left; the five geometry
    fields it stores lie in the signed 16-bit range, [attributes] in
    0..65535, and the other members of the record are untouched. *)
Theorem read_metric_twelve_bytes (m : metric_t) :
  takes 12 (read_metric m) /\
  forall (g g' : globals) (m' : metric_t),
    read_metric m g = Ok (m', g') ->
    in_int16 (leftSideBearing m') /\ in_int16 (rightSideBearing m') /\
    in_int16 (characterWidth m') /\ in_int16 (ascent m') /\
    in_int16 (descent m') /\ 0 <= attributes m' <= 65535 /\
    bitmaps m' = bitmaps m /\ swidth m' = swidth m /\ glyphName m' = glyphName m.
Proof.
  split; [apply takes_read_metric|].
  intros g g' m' H. exact (read_metric_Ok m m' g g' H).
Qed.

(** X6.  Round trip of the full metric form: for a record whose geometry
    fields are signed 16-bit values and whose [attributes] is an unsigned
    16-bit value, [read_metric] under a most-significant-byte-first format
    reads the twelve bytes of [full_form] back into the same six fields. *)
Theorem read_metric_round_trip (m m' : metric_t) (r : Z) (f : format32.t)
    (t : list table_t.t) (rest : list byte8) :
  format32.is_little_endian f = false ->
  in_int16 (leftSideBearing m') -> in_int16 (rightSideBearing m') ->
  in_int16 (characterWidth m') -> in_int16 (ascent m') ->
  in_int16 (descent m') -> 0 <= attributes m' <= 65535 ->
  read_metric m (mk_globals (full_form m' ++ rest) r f t)
  = Ok (mk_metric (leftSideBearing m') (rightSideBearing m') (characterWidth m')
                  (ascent m') (descent m') (attributes m')
                  (bitmaps m) (swidth m) (glyphName m),
        mk_globals rest (r + 12) f t).
Proof.
  intros Hbig Hl Hr Hw Ha Hd Hat.
  unfold read_metric, full_form. simpl flat_map. simpl app.
  do 6 (erewrite bind_Ok by (apply read_int16_big_cons; exact Hbig);
        cbv beta zeta).
  rewrite !make_int16_bytes, !decode_int16_bytes.
  rewrite !to_int16_mod by assumption.
  unfold to_uint16. change (2 ^ 16) with 65536.
  rewrite Z.mod_mod by lia. rewrite (Z.mod_small (attributes m')) by lia.
  unfold mret, M_ret. f_equal. f_equal. f_equal. lia.
Qed.

Lemma read_metric_round_trip_witness :
  read_metric metric_init
    (mk_globals (full_form extreme_glyph ++ [x2a]%byte) 0 BDF_format [])
  = Ok (mk_metric (leftSideBearing extreme_glyph) (rightSideBearing extreme_glyph)
                  (characterWidth extreme_glyph) (ascent extreme_glyph)
                  (descent extreme_glyph) (attributes extreme_glyph)
                  (bitmaps metric_init) (swidth metric_init) (glyphName metric_init),
        mk_globals [x2a]%byte (0 + 12) BDF_format []).
Proof.
  apply (read_metric_round_trip metric_init extreme_glyph 0 BDF_format []
           [x2a]%byte);
    first [reflexivity | unfold in_int16; simpl; lia | simpl; lia].
Defined.

(** The metric loop reads one record per round. *)
Lemma read_metrics_loop_length (rd : metric_t -> M metric_t) (n : nat) :
  forall (g g' : globals) (ms : list metric_t),
    read_metrics_loop rd n g = Ok (ms, g') -> length ms = n.
Proof.
  induction n as [|n IH]; intros g g' ms H; simpl in H.
  - apply ret_inv in H. destruct H as [-> _]. reflexivity.
  - apply bind_inv in H. destruct H as (m & g1 & _ & H).
    apply bind_inv in H. destruct H as (ms' & g2 & Hms & H).
    apply ret_inv in H. destruct H as [-> _]. simpl. f_equal.
    exact (IH g1 g2 ms' Hms).
Qed.

Lemma takes_read_metrics_loop (rd : metric_t -> M metric_t) (k n : nat) :
  (forall m, takes k (rd m)) -> takes (k * n) (read_metrics_loop rd n).
Proof.
  intros Hrd. induction n as [|n IH]; simpl read_metrics_loop.
  - rewrite Nat.mul_0_r. apply takes_ret.
  - replace (k * S n)%nat with (k + (k * n + 0))%nat by lia.
    apply takes_bind; [apply Hrd|intros m].
    apply takes_bind; [exact IH|intros ms; apply takes_ret].
Qed.

(** X7.  Whenever the Metrics section decodes, the array has at least
    one record, so the font box of [compute_fontbbx] exists; [format] is
    left at the format word the
    section starts with; and the section has taken 8 bytes plus 12 per
    glyph when that word has the default id and 6 bytes plus 5 per glyph
    when it has the compressed id. *)
Theorem read_metrics_nonempty (g g' : globals) (metrics : list metric_t) :
  read_metrics g = Ok (metrics, g') ->
  (1 <= length metrics)%nat /\
  (exists fontbbx, compute_fontbbx metrics = Some fontbbx) /\
  (exists (f : format32.t) (g1 : globals),
     read_format32_little g = Ok (f, g1) /\ format g' = f) /\
  ((format32.id (format g') = PCF_DEFAULT_FORMAT /\
    read_bytes g' = read_bytes g + 8 + 12 * Z.of_nat (length metrics)) \/
   (format32.id (format g') = PCF_COMPRESSED_METRICS /\
    read_bytes g' = read_bytes g + 6 + 5 * Z.of_nat (length metrics))).
Proof.
  unfold read_metrics. intros H.
  apply bind_inv in H. destruct H as (f & g1 & Hf & H).
  apply bind_inv in H. destruct H as (u & g2 & Hput & H).
  unfold put_format in Hput. injection Hput as _ <-.
  pose proof Hf as Hf0.
  destruct (takes_Ok _ _ _ _ _ takes_read_format32_little Hf) as (_ & ->).
  assert (Hbox : forall ms : list metric_t,
             (1 <= length ms)%nat -> exists bb, compute_fontbbx ms = Some bb).
  { intros [|m0 ms] Hms; [simpl in Hms; lia|]. simpl. eauto. }
  destruct (format32.id f =? PCF_DEFAULT_FORMAT) eqn:E0.
  - apply Z.eqb_eq in E0.
    apply bind_inv in H. destruct H as (n & g3 & Hn & H).
    apply bind_inv in H. destruct H as (u' & g4 & Hchk & H).
    apply check_int32_min_inv in Hchk. destruct Hchk as [Hn1 ->].
    destruct (takes_Ok _ _ _ _ _ takes_read_int32 Hn) as (_ & ->).
    pose proof (read_metrics_loop_length _ _ _ _ _ H) as Hlen.
    destruct (takes_Ok _ _ _ _ _
                (takes_read_metrics_loop read_metric 12 (Z.to_nat n) takes_read_metric) H)
      as (_ & ->).
    split; [lia|]. split; [apply Hbox; lia|].
    split; [exists f, (consumed 4 g); split; [exact Hf0|reflexivity]|].
    left. simpl. split; [exact E0|lia].
  - destruct (format32.id f =? PCF_COMPRESSED_METRICS) eqn:E1; [|discriminate].
    apply Z.eqb_eq in E1.
    apply bind_inv in H. destruct H as (n & g3 & Hn & H).
    apply bind_inv in H. destruct H as (u' & g4 & Hchk & H).
    apply check_int32_min_inv in Hchk. destruct Hchk as [Hn1 ->].
    destruct (takes_Ok _ _ _ _ _ takes_read_int16 Hn) as (_ & ->).
    pose proof (read_metrics_loop_length _ _ _ _ _ H) as Hlen.
    destruct (takes_Ok _ _ _ _ _
                (takes_read_metrics_loop read_compressed_metric 5 (Z.to_nat n)
                   takes_read_compressed_metric) H)
      as (_ & ->).
    split; [lia|]. split; [apply Hbox; lia|].
    split; [exists f, (consumed 4 g); split; [exact Hf0|reflexivity]|].
    right. simpl. split; [exact E1|lia].
Qed.

Lemma read_metrics_nonempty_witness :
  (1 <= length two_glyphs)%nat /\
  (exists fontbbx, compute_fontbbx two_glyphs = Some fontbbx) /\
  (exists (f : format32.t) (g1 : globals),
     read_format32_little (mk_globals two_glyph_metrics 8 BDF_format [])
     = Ok (f, g1) /\
     format (mk_globals [] 24 (format32.mk 1 0 0 1 1 0) []) = f) /\
  ((format32.id (format (mk_globals [] 24 (format32.mk 1 0 0 1 1 0) []))
    = PCF_DEFAULT_FORMAT /\
    read_bytes (mk_globals [] 24 (format32.mk 1 0 0 1 1 0) [])
    = read_bytes (mk_globals two_glyph_metrics 8 BDF_format [])
      + 8 + 12 * Z.of_nat (length two_glyphs)) \/
   (format32.id (format (mk_globals [] 24 (format32.mk 1 0 0 1 1 0) []))
    = PCF_COMPRESSED_METRICS /\
    read_bytes (mk_globals [] 24 (format32.mk 1 0 0 1 1 0) [])
    = read_bytes (mk_globals two_glyph_metrics 8 BDF_format [])
      + 6 + 5 * Z.of_nat (length two_glyphs))).
Proof.
  apply (read_metrics_nonempty (mk_globals two_glyph_metrics 8 BDF_format [])
           (mk_globals [] 24 (format32.mk 1 0 0 1 1 0) []) two_glyphs).
  vm_compute. reflexivity.
Defined.

(** ** Section formats *)

Lemma to_int32_unsigned (u : Z) :
  0 <= u < 2 ^ 32 ->
  to_int32 u = u - (if 2 ^ 31 <=? u then 2 ^ 32 else 0).
Proof.
  intros Hu. unfold to_int32, wrap_signed.
  change (2 ^ (32 - 1)) with 2147483648 in *.
  change (2 ^ 32) with 4294967296 in *. change (2 ^ 31) with 2147483648.
  destruct (2147483648 <=? u) eqn:E; [apply Z.leb_le in E|apply Z.leb_gt in E].
  - rewrite <- (Z.mod_unique (u + 2147483648) 4294967296 1 (u - 2147483648)); lia.
  - rewrite Z.mod_small; lia.
Qed.

Lemma div_mod_of_eq (x m q r : Z) :
  0 <= r < m -> x = m * q + r -> x / m = q /\ x mod m = r.
Proof.
  intros Hr Hx. split.
  - symmetry. apply (Z.div_unique x m q r); [lia|exact Hx].
  - symmetry. apply (Z.mod_unique x m q r); [lia|exact Hx].
Qed.

Lemma format_word_fields (a b c d : Z) :
  0 <= a < 256 -> 0 <= b < 256 -> 0 <= c < 256 -> 0 <= d < 256 ->
  let v := to_int32 (d * 2 ^ 24 + c * 2 ^ 16 + b * 2 ^ 8 + a) in
  Z.shiftr v 8 mod 2 ^ 24 = b + c * 2 ^ 8 + d * 2 ^ 16 /\
  Z.shiftr v 4 mod 2 ^ 2 = a / 16 mod 4 /\
  Z.shiftr v 3 mod 2 ^ 1 = a / 8 mod 2 /\
  Z.shiftr v 2 mod 2 ^ 1 = a / 4 mod 2 /\
  Z.shiftr v 0 mod 2 ^ 2 = a mod 4.
Proof.
  intros Ha Hb Hc Hd v. unfold v.
  assert (H32 : 2 ^ 32 = 4294967296) by reflexivity.
  assert (H31 : 2 ^ 31 = 2147483648) by reflexivity.
  assert (H24 : 2 ^ 24 = 16777216) by reflexivity.
  assert (H16 : 2 ^ 16 = 65536) by reflexivity.
  assert (H8 : 2 ^ 8 = 256) by reflexivity.
  rewrite to_int32_unsigned by lia.
  set (k := if 2 ^ 31 <=? d * 2 ^ 24 + c * 2 ^ 16 + b * 2 ^ 8 + a
            then 2 ^ 32 else 0).
  assert (Hk : k = 0 \/ k = 4294967296)
    by (unfold k; destruct (_ <=? _); lia).
  clearbody k.
  rewrite !Z.shiftr_div_pow2 by lia.
  change (2 ^ 4) with 16. change (2 ^ 3) with 8. change (2 ^ 2) with 4.
  change (2 ^ 1) with 2. change (2 ^ 0) with 1.
  rewrite H24, H16, H8 in *.
  assert (Hq : exists q, k = 4294967296 * q) by (destruct Hk; [exists 0|exists 1]; lia).
  destruct Hq as [q ->]. clear Hk.
  set (hi := d * 65536 + c * 256 + b - 16777216 * q).
  pose proof (Z.div_mod a 16 ltac:(lia)) as Ha16.
  pose proof (Z.mod_pos_bound a 16 ltac:(lia)) as Ha16'.
  pose proof (Z.div_mod a 8 ltac:(lia)) as Ha8.
  pose proof (Z.mod_pos_bound a 8 ltac:(lia)) as Ha8'.
  pose proof (Z.div_mod a 4 ltac:(lia)) as Ha4.
  pose proof (Z.mod_pos_bound a 4 ltac:(lia)) as Ha4'.
  set (w := d * 16777216 + c * 65536 + b * 256 + a - 4294967296 * q).
  assert (H8w : w / 256 = hi)
    by (apply (div_mod_of_eq w 256 _ a); unfold w, hi; lia).
  assert (H4w : w / 16 = hi * 16 + a / 16)
    by (apply (div_mod_of_eq w 16 _ (a mod 16)); unfold w, hi; lia).
  assert (H3w : w / 8 = hi * 32 + a / 8)
    by (apply (div_mod_of_eq w 8 _ (a mod 8)); unfold w, hi; lia).
  assert (H2w : w / 4 = hi * 64 + a / 4)
    by (apply (div_mod_of_eq w 4 _ (a mod 4)); unfold w, hi; lia).
  rewrite H8w, H4w, H3w, H2w, Z.div_1_r.
  repeat split.
  - apply (div_mod_of_eq hi 16777216 (- q)); unfold hi; lia.
  - replace (hi * 16 + a / 16) with (a / 16 + (4 * hi) * 4) by lia.
    apply Z.mod_add. lia.
  - replace (hi * 32 + a / 8) with (a / 8 + (16 * hi) * 2) by lia.
    apply Z.mod_add. lia.
  - replace (hi * 64 + a / 4) with (a / 4 + (32 * hi) * 2) by lia.
    apply Z.mod_add. lia.
  - replace w with (a + (64 * hi) * 4) by (unfold w, hi; lia).
    apply Z.mod_add. lia.
Qed.

(** X8.  [read_format32_little] takes four bytes, least significant
    first, whatever the current format is.  The first byte carries the
    flags: glyph pad in bits 0-1, byte order in bit 2, bit order in bit 3,
    scan unit in bits 4-5; the other three bytes are the format id.  So
    the row pad [1 << glyph] and the scan unit [1 << scan] are always one
    of 1, 2, 4, 8.  With fewer than four bytes left it exits. *)
Theorem read_format32_little_fields (g : globals) :
  match ifp g with
  | a :: b :: c :: d :: rest =>
      exists f : format32.t,
        read_format32_little g
        = Ok (f, mk_globals rest (read_bytes g + 4) (format g) (tables g)) /\
        format32.id f = byte_val b + byte_val c * 2 ^ 8 + byte_val d * 2 ^ 16 /\
        format32.dummy f = 0 /\
        format32.scan f = byte_val a / 16 mod 4 /\
        format32.bit f = byte_val a / 8 mod 2 /\
        format32.byte f = byte_val a / 4 mod 2 /\
        format32.glyph f = byte_val a mod 4 /\
        In (Z.shiftl 1 (format32.glyph f)) [1; 2; 4; 8] /\
        In (Z.shiftl 1 (format32.scan f)) [1; 2; 4; 8]
  | _ => read_format32_little g = Fatal (error_exit "unexpected eof")
  end.
Proof.
  destruct g as [i r f0 t]. cbn [ifp format read_bytes tables].
  destruct i as [|a [|b [|c [|d rest]]]]; try reflexivity.
  unfold read_format32_little.
  rewrite (bind_Ok _ _ _ _ _ (read_int32_little_bytes a b c d rest r f0 t)).
  destruct (format_word_fields (byte_val a) (byte_val b) (byte_val c) (byte_val d)
              (byte_val_range a) (byte_val_range b) (byte_val_range c)
              (byte_val_range d)) as (Hid & Hscan & Hbit & Hbyte & Hglyph).
  eexists. split; [reflexivity|]. cbn [format32.id format32.dummy format32.scan
    format32.bit format32.byte format32.glyph].
  rewrite Hid, Hscan, Hbit, Hbyte, Hglyph.
  repeat split.
  - pose proof (Z.mod_pos_bound (byte_val a) 4 ltac:(lia)) as Hm.
    assert (Hc : byte_val a mod 4 = 0 \/ byte_val a mod 4 = 1 \/
                 byte_val a mod 4 = 2 \/ byte_val a mod 4 = 3) by lia.
    destruct Hc as [->|[->|[->| ->]]]; simpl; auto.
  - pose proof (Z.mod_pos_bound (byte_val a / 16) 4 ltac:(lia)) as Hm.
    assert (Hc : byte_val a / 16 mod 4 = 0 \/ byte_val a / 16 mod 4 = 1 \/
                 byte_val a / 16 mod 4 = 2 \/ byte_val a / 16 mod 4 = 3) by lia.
    destruct Hc as [->|[->|[->| ->]]]; simpl; auto.
Qed.

(** ** Section locator and section existence *)

Lemma existsb_find {A : Type} (p : A -> bool) (l : list A) :
  existsb p l = match find p l with Some _ => true | None => false end.
Proof.
  induction l as [|x l IH]; simpl; [reflexivity|].
  destruct (p x); [reflexivity|exact IH].
Qed.

(** What a successful [seek] leaves behind. *)
Lemma seek_Ok (type : Z) (g g' : globals) (found : bool) :
  seek type g = Ok (found, g') ->
  match find (fun t => table_t.type t =? type) (tables g) with
  | None => found = false /\ g' = g
  | Some entry =>
      let s := to_int32 (table_t.offset entry - read_bytes g) in
      found = true /\ 0 <= s <= Z.of_nat (length (ifp g)) /\
      g' = consumed (Z.to_nat s) g
  end.
Proof.
  unfold seek. intros H.
  pose proof (seek_loop_spec type g (tables g)) as Hspec.
  destruct (find _ (tables g)) as [entry|].
  - cbv zeta in *.
    destruct (to_int32 (table_t.offset entry - read_bytes g) <? 0) eqn:Eneg;
      [rewrite Hspec in H; discriminate|].
    apply Z.ltb_ge in Eneg.
    destruct (_ <=? Z.of_nat (length (ifp g))) eqn:Elen;
      [|rewrite Hspec in H; discriminate].
    apply Z.leb_le in Elen. rewrite Hspec in H. injection H as <- <-.
    auto.
  - rewrite Hspec in H. injection H as <- <-. auto.
Qed.

(** X9.  [seek] and [is_exist_section] agree: when the table of contents
    has no entry of the type, [seek] reports not-found and changes
    nothing; when it has one, [seek] never reports not-found.  A [seek]
    that returns never moves backward and changes nothing but the cursor:
    [read_bytes] does not decrease, and [format] and [tables] are kept. *)
Theorem seek_agrees_with_is_exist_section (type : Z) (g : globals) :
  (is_exist_section type g = false -> seek type g = Ok (false, g)) /\
  (forall (found : bool) (g' : globals),
     seek type g = Ok (found, g') ->
     found = is_exist_section type g /\
     read_bytes g <= read_bytes g' /\
     format g' = format g /\ tables g' = tables g).
Proof.
  unfold is_exist_section. rewrite existsb_find. split.
  - intros Hnone. apply seek_absent.
    destruct (find _ (tables g)); [discriminate|reflexivity].
  - intros found g' H. apply seek_Ok in H.
    destruct (find _ (tables g)) as [entry|].
    + cbv zeta in H. destruct H as (-> & Hs & ->). simpl.
      repeat split. lia.
    + destruct H as [-> ->]. repeat split. lia.
Qed.

Lemma to_int32_residue (x : Z) : to_int32 (x - to_int32 x) = 0.
Proof.
  unfold to_int32, wrap_signed.
  change (2 ^ (32 - 1)) with 2147483648. change (2 ^ 32) with 4294967296.
  rewrite (Z.mod_eq (x + 2147483648) 4294967296) by lia.
  replace (x - (x + 2147483648
                - 4294967296 * ((x + 2147483648) / 4294967296) - 2147483648)
           + 2147483648)
    with (2147483648 + ((x + 2147483648) / 4294967296) * 4294967296) by lia.
  rewrite Z.mod_add by lia. reflexivity.
Qed.

(** X10.  Seeking twice is the same as seeking once: after a [seek] that
    returned, a second [seek] for the same type returns the same answer
    and consumes nothing. *)
Theorem seek_idempotent (type : Z) (g g' : globals) (found : bool) :
  seek type g = Ok (found, g') -> seek type g' = Ok (found, g').
Proof.
  intros H. apply seek_Ok in H.
  pose proof (seek_loop_spec type g' (tables g')) as Hspec. unfold seek.
  destruct (find _ (tables g)) as [entry|] eqn:Efind.
  - cbv zeta in H. destruct H as (-> & Hs & ->).
    change (tables (consumed _ g)) with (tables g) in *.
    rewrite Efind in Hspec. cbv zeta in Hspec.
    assert (Hzero : to_int32 (table_t.offset entry
                              - read_bytes (consumed
                                  (Z.to_nat (to_int32 (table_t.offset entry - read_bytes g)))
                                  g)) = 0).
    { simpl read_bytes. rewrite Z2Nat.id by lia.
      replace (table_t.offset entry
               - (read_bytes g + to_int32 (table_t.offset entry - read_bytes g)))
        with (table_t.offset entry - read_bytes g
              - to_int32 (table_t.offset entry - read_bytes g)) by lia.
      apply to_int32_residue. }
    rewrite Hzero in Hspec. change (0 <? 0) with false in Hspec.
    cbv iota in Hspec.
    match type of Hspec with
    | (if ?c then _ else _) => destruct c eqn:E; [|apply Z.leb_gt in E; lia]
    end.
    rewrite Hspec. change (Z.to_nat 0) with O. rewrite consumed_0. reflexivity.
  - destruct H as [-> ->]. rewrite Efind in Hspec. exact Hspec.
Qed.

Lemma seek_idempotent_witness :
  seek PCF_METRICS
       (mk_globals [x05]%byte 13 BDF_format
                   [table_t.mk PCF_PROPERTIES BDF_format 0 8;
                    table_t.mk PCF_METRICS BDF_format 0 13])
  = Ok (true, mk_globals [x05]%byte 13 BDF_format
                         [table_t.mk PCF_PROPERTIES BDF_format 0 8;
                          table_t.mk PCF_METRICS BDF_format 0 13]).
Proof.
  apply (seek_idempotent PCF_METRICS
           (mk_globals [x01; x02; x03; x04; x05]%byte 9 BDF_format
                       [table_t.mk PCF_PROPERTIES BDF_format 0 8;
                        table_t.mk PCF_METRICS BDF_format 0 13])).
  vm_compute. reflexivity.
Defined.

(** ** Property queries *)

(** X11.  The three property queries look at the first property with the
    name only.  With no such property: [get_property_value] gives -1,
    [get_property_string] gives NULL and [is_exist_property_value] says
    no.  When the first one is a string property, the string query
    returns its value, the integer query exits and the existence test
    says no; when it is an integer property, the integer query returns
    its value, the string query exits and the existence test says yes. *)
Theorem property_queries_first_match (props : list props_t.t) (name : string) :
  match find (fun p => strcmp_eq name (props_t.name p)) props with
  | None =>
      get_property_value props name = Ok (-1) /\
      get_property_string props name = Ok None /\
      is_exist_property_value props name = false
  | Some p =>
      if props_t.isStringProp p then
        get_property_string props name = Ok (Some (props_t.value p)) /\
        get_property_value props name = Fatal (error_invalid_exit "property_value") /\
        is_exist_property_value props name = false
      else
        get_property_value props name = Ok (sv_value (props_t.value p)) /\
        get_property_string props name = Fatal (error_invalid_exit "property_string") /\
        is_exist_property_value props name = true
  end.
Proof.
  induction props as [|p props IH]; simpl; [auto|].
  destruct (strcmp_eq name (props_t.name p)); [|exact IH].
  destruct (props_t.isStringProp p); auto.
Qed.

(** ** The gzip command line *)

Lemma escape_quote_length (p : string) :
  String.length (escape_quote p) = (String.length p + count_quotes p)%nat.
Proof.
  induction p as [|c p IH]; simpl; [reflexivity|].
  destruct (Ascii.eqb c "'"%char); simpl; rewrite IH; lia.
Qed.

Lemma drop_quote_escapes_escape (p : string) :
  drop_quote_escapes (escape_quote p) = p.
Proof.
  induction p as [|c p IH]; [reflexivity|].
  simpl escape_quote.
  destruct (Ascii.eqb c "'"%char) eqn:Eq.
  - apply Ascii.eqb_eq in Eq. subst c.
    change (drop_quote_escapes (String "\"%char (String "'"%char (escape_quote p))))
      with (drop_quote_escapes (String "'"%char (escape_quote p))).
    change (drop_quote_escapes (String "'"%char (escape_quote p)))
      with (match escape_quote p with
            | String c' _ =>
                if Ascii.eqb "'"%char "\"%char && Ascii.eqb c' "'"%char
                then drop_quote_escapes (escape_quote p)
                else String "'"%char (drop_quote_escapes (escape_quote p))
            | EmptyString => String "'"%char EmptyString
            end).
    destruct (escape_quote p) eqn:Ep.
    + rewrite <- IH. reflexivity.
    + rewrite <- Ep in *. change (Ascii.eqb "'"%char "\"%char) with false.
      simpl andb. rewrite IH. reflexivity.
  - change (drop_quote_escapes (String c (escape_quote p)))
      with (match escape_quote p with
            | String c' _ =>
                if Ascii.eqb c "\"%char && Ascii.eqb c' "'"%char
                then drop_quote_escapes (escape_quote p)
                else String c (drop_quote_escapes (escape_quote p))
            | EmptyString => String c EmptyString
            end).
    destruct p as [|c2 p2].
    + reflexivity.
    + assert (Hhead : exists c' s', escape_quote (String c2 p2) = String c' s'
                                    /\ (c' = "'"%char -> False \/ c2 <> "'"%char)).
      { simpl. destruct (Ascii.eqb c2 "'"%char) eqn:E2.
        - eexists _, _. split; [reflexivity|]. intros Hc. discriminate Hc.
        - eexists _, _. split; [reflexivity|]. intros Hc. right.
          intros ->. discriminate E2. }
      destruct Hhead as (c' & s' & Hs & Hc').
      rewrite Hs.
      destruct (Ascii.eqb c "\"%char && Ascii.eqb c' "'"%char) eqn:Eb.
      * apply andb_true_iff in Eb. destruct Eb as [_ Eb].
        apply Ascii.eqb_eq in Eb. subst c'.
        exfalso. simpl in Hs.
        destruct (Ascii.eqb c2 "'"%char) eqn:E2; [discriminate Hs|].
        injection Hs as Hc2 _. subst c2. discriminate E2.
      * rewrite <- Hs, IH. reflexivity.
Qed.

Lemma escape_quote_quotes (p : string) : forall i : nat,
  String.get i (escape_quote p) = Some "'"%char ->
  exists j : nat, i = S j /\ String.get j (escape_quote p) = Some "\"%char.
Proof.
  induction p as [|c p IH]; intros i Hi; simpl in *.
  - destruct i; discriminate Hi.
  - destruct (Ascii.eqb c "'"%char) eqn:Eq.
    + destruct i as [|[|i]]; simpl in Hi.
      * discriminate Hi.
      * exists O. split; reflexivity.
      * destruct (IH i Hi) as (j & -> & Hj).
        exists (S (S j)). split; [reflexivity|exact Hj].
    + destruct i as [|i]; simpl in Hi.
      * injection Hi as ->. discriminate Eq.
      * destruct (IH i Hi) as (j & -> & Hj).
        exists (S j). split; [reflexivity|exact Hj].
Qed.

(** X12.  [escape_quote] puts one backslash before every single quote and
    changes nothing else: the result is longer by the number of quotes,
    every quote in it stands right after a backslash, dropping those
    backslashes gives the file name back, and so two different file
    names never give the same escaped text. *)
Theorem escape_quote_properties (p : string) :
  String.length (escape_quote p) = (String.length p + count_quotes p)%nat /\
  drop_quote_escapes (escape_quote p) = p /\
  (forall q : string, escape_quote p = escape_quote q -> p = q) /\
  (forall i : nat,
     String.get i (escape_quote p) = Some "'"%char ->
     exists j : nat, i = S j /\ String.get j (escape_quote p) = Some "\"%char).
Proof.
  split; [apply escape_quote_length|].
  split; [apply drop_quote_escapes_escape|].
  split; [|apply escape_quote_quotes].
  intros q Hq.
  rewrite <- (drop_quote_escapes_escape p), <- (drop_quote_escapes_escape q), Hq.
  reflexivity.
Qed.

(** ** Header and table of contents *)

Lemma read_tables_length (n : nat) : forall (g g' : globals) (ts : list table_t.t),
  read_tables n g = Ok (ts, g') -> length ts = n.
Proof.
  induction n as [|n IH]; intros g g' ts H; simpl in H.
  - apply ret_inv in H. destruct H as [-> _]. reflexivity.
  - do 5 (apply bind_inv in H; destruct H as (? & ? & ? & H)).
    apply ret_inv in H. destruct H as [-> _]. simpl. f_equal.
    eapply IH. eassumption.
Qed.

Lemma takes_read_tables (n : nat) : takes (16 * n) (read_tables n).
Proof.
  induction n as [|n IH]; simpl read_tables.
  - apply takes_ret.
  - replace (16 * S n)%nat with (4 + (4 + (4 + (4 + (16 * n + 0)))))%nat by lia.
    apply takes_bind; [apply takes_read_int32_little|intros ?].
    apply takes_bind; [apply takes_read_format32_little|intros ?].
    apply takes_bind; [apply takes_read_int32_little|intros ?].
    apply takes_bind; [apply takes_read_int32_little|intros ?].
    apply takes_bind; [exact IH|intros ?; apply takes_ret].
Qed.

(** What [open_input] leaves: the version word and a stream on which
    either four bytes were read or none. *)
Lemma open_input_Ok (ifilename : option string) (gzip_out : option (list byte8))
    (g g' : globals) (version : Z) :
  read_bytes g = 0 ->
  open_input ifilename gzip_out g = Ok (version, g') ->
  tables g' = tables g /\ format g' = format g /\
  (read_bytes g' = 4 \/ read_bytes g' = 0).
Proof.
  intros Hzero H. unfold open_input in H.
  apply bind_inv in H. destruct H as (v & g1 & Hv & H).
  destruct (takes_Ok _ _ _ _ _ takes_read_int32_big Hv) as (_ & ->).
  destruct ((Z.shiftr v 16 =? 8093) || (Z.shiftr v 16 =? 8075)).
  - destruct ifilename as [path|]; [|discriminate H].
    destruct gzip_out as [out|]; [|discriminate H].
    apply bind_inv in H. destruct H as (u & g2 & Hre & H).
    unfold reopen in Hre. injection Hre as _ <-.
    apply ret_inv in H. destruct H as [_ ->]. simpl. auto.
  - apply ret_inv in H. destruct H as [_ ->]. simpl. rewrite Hzero. auto.
Qed.

(** X13.  Whenever the header is read from a fresh input (plain or
    decompressed), the table of contents has at least one entry,
    [read_bytes] is 8 plus 16 per entry, and [format] is untouched. *)
Theorem read_header_table_count (ifilename : option string)
    (gzip_out : option (list byte8)) (ofp_opened : bool) (g g' : globals) (u : unit) :
  read_bytes g = 0 ->
  read_header ifilename gzip_out ofp_opened g = Ok (u, g') ->
  (1 <= length (tables g'))%nat /\
  read_bytes g' = 8 + 16 * Z.of_nat (length (tables g')) /\
  format g' = format g.
Proof.
  intros Hzero H. unfold read_header in H.
  apply bind_inv in H. destruct H as (version & g1 & Hopen & H).
  destruct (open_input_Ok _ _ _ _ _ Hzero Hopen) as (_ & Hfmt & Hpos).
  destruct ofp_opened; [|discriminate H]. simpl negb in H. cbv iota in H.
  unfold read_toc in H.
  apply bind_inv in H. destruct H as (v & g2 & Hv & H).
  assert (Hg2 : read_bytes g2 = 4 /\ format g2 = format g).
  { destruct Hpos as [H4|H0].
    - rewrite H4 in Hv. simpl in Hv. apply ret_inv in Hv.
      destruct Hv as [_ ->]. auto.
    - rewrite H0 in Hv. simpl in Hv.
      destruct (takes_Ok _ _ _ _ _ takes_read_int32_big Hv) as (_ & ->).
      simpl. rewrite H0. auto. }
  destruct Hg2 as [Hr2 Hf2].
  destruct (negb (v =? PCF_magic)); [discriminate H|].
  apply bind_inv in H. destruct H as (n & g3 & Hn & H).
  destruct (takes_Ok _ _ _ _ _ takes_read_int32_little Hn) as (_ & ->).
  apply bind_inv in H. destruct H as (u' & g4 & Hchk & H).
  apply check_int32_min_inv in Hchk. destruct Hchk as [Hn1 ->].
  apply bind_inv in H. destruct H as (ts & g5 & Hts & H).
  pose proof (read_tables_length _ _ _ _ Hts) as Hlen.
  destruct (takes_Ok _ _ _ _ _ (takes_read_tables (Z.to_nat n)) Hts) as (_ & ->).
  unfold put_tables in H. injection H as _ <-. simpl.
  rewrite Hlen, Hr2, Hf2. repeat split; lia.
Qed.

Lemma read_header_table_count_witness :
  (1 <= length (tables minimal_after_header))%nat /\
  read_bytes minimal_after_header
  = 8 + 16 * Z.of_nat (length (tables minimal_after_header)) /\
  format minimal_after_header = format minimal_start.
Proof.
  apply (read_header_table_count (Some "A.pcf"%string) None true
           minimal_start minimal_after_header tt).
  - reflexivity.
  - vm_compute. reflexivity.
Defined.

Lemma byte_val_inj (a b : byte8) : byte_val a = byte_val b -> a = b.
Proof.
  unfold byte_val. intros H. apply N2Z.inj in H.
  pose proof (Byte.of_to_N a) as Ha. rewrite H, Byte.of_to_N in Ha.
  injection Ha as ->. reflexivity.
Qed.

(** The high half of the version word. *)
Lemma version_high (a b c d : Z) :
  0 <= a < 256 -> 0 <= b < 256 -> 0 <= c < 256 -> 0 <= d < 256 ->
  Z.shiftr (to_int32 (a * 2 ^ 24 + b * 2 ^ 16 + c * 2 ^ 8 + d)) 16
  = a * 256 + b - (if 128 <=? a then 65536 else 0).
Proof.
  intros Ha Hb Hc Hd.
  assert (H32 : 2 ^ 32 = 4294967296) by reflexivity.
  assert (H31 : 2 ^ 31 = 2147483648) by reflexivity.
  assert (H24 : 2 ^ 24 = 16777216) by reflexivity.
  assert (H16 : 2 ^ 16 = 65536) by reflexivity.
  assert (H8 : 2 ^ 8 = 256) by reflexivity.
  rewrite to_int32_unsigned by lia.
  rewrite Z.shiftr_div_pow2 by lia. rewrite H32, H31, H24, H16, H8.
  apply (div_mod_of_eq _ 65536 _ (c * 256 + d)); [lia|].
  destruct (2147483648 <=? a * 16777216 + b * 65536 + c * 256 + d) eqn:E;
    [apply Z.leb_le in E|apply Z.leb_gt in E];
    (destruct (128 <=? a) eqn:E'; [apply Z.leb_le in E'|apply Z.leb_gt in E']);
    lia.
Qed.

(** X14.  On a fresh input of at least four bytes: when the first two
    bytes are 1F 9D or 1F 8B and the input is standard input, [main]
    exits because it cannot decompress it; when they are not and the
    first four bytes are not 01 'f' 'c' 'p', it exits with "this is not
    PCF file format", before anything else is read. *)
Theorem read_header_magic (gzip_out : option (list byte8)) (g : globals)
    (a b c d : byte8) (rest : list byte8) :
  read_bytes g = 0 ->
  ifp g = a :: b :: c :: d :: rest ->
  (a = x1f%byte /\ (b = x9d%byte \/ b = x8b%byte) ->
   read_header None gzip_out true g
   = Fatal (error_exit (String.append "stdin is gzip'ed or compress'ed" LF))) /\
  (~ (a = x1f%byte /\ (b = x9d%byte \/ b = x8b%byte)) ->
   (a, b, c, d) <> (x01, x66, x63, x70)%byte ->
   forall ifilename : option string,
     read_header ifilename gzip_out true g
     = Fatal (error_exit "this is not PCF file format")).
Proof.
  intros Hzero Hifp. destruct g as [i r f t]. simpl in Hzero, Hifp. subst i r.
  pose proof (byte_val_range a) as Ha. pose proof (byte_val_range b) as Hb.
  pose proof (byte_val_range c) as Hc. pose proof (byte_val_range d) as Hd.
  set (g0 := mk_globals (a :: b :: c :: d :: rest) 0 f t).
  set (version := to_int32 (byte_val a * 2 ^ 24 + byte_val b * 2 ^ 16
                            + byte_val c * 2 ^ 8 + byte_val d)).
  assert (Hopen : forall ifilename,
             open_input ifilename gzip_out g0
             = (if (Z.shiftr version 16 =? 8093) || (Z.shiftr version 16 =? 8075)
                then
                  match ifilename with
                  | None => exit_with (error_exit
                              (String.append "stdin is gzip'ed or compress'ed" LF))
                  | Some _ =>
                      match gzip_out with
                      | None => exit_with (error_exit
                                  (String.append "failed to execute gzip" LF))
                      | Some out => _ ← reopen out; mret version
                      end
                  end
                else mret version) (mk_globals rest (0 + 4) f t)).
  { intros ifilename. unfold open_input, g0.
    rewrite (bind_Ok _ _ _ _ _ (read_int32_big_bytes a b c d rest 0 f t)).
    reflexivity. }
  unfold version in Hopen.
  rewrite (version_high _ _ _ _ Ha Hb Hc Hd) in Hopen.
  split.
  - intros [-> Hb']. unfold read_header. apply bind_Fatal. rewrite Hopen.
    destruct Hb' as [-> | ->]; reflexivity.
  - intros Hplain Hmagic ifilename.
    assert (Hno : (byte_val a * 256 + byte_val b
                   - (if 128 <=? byte_val a then 65536 else 0) =? 8093)
                  || (byte_val a * 256 + byte_val b
                      - (if 128 <=? byte_val a then 65536 else 0) =? 8075) = false).
    { apply orb_false_iff. split; apply Z.eqb_neq; intros Heq;
        apply Hplain;
        (destruct (128 <=? byte_val a) eqn:E;
         [apply Z.leb_le in E; lia|]).
      - assert (byte_val a = byte_val x1f%byte /\ byte_val b = byte_val x9d%byte)
          as [Ha' Hb'] by (change (byte_val x1f%byte) with 31;
                           change (byte_val x9d%byte) with 157; lia).
        apply byte_val_inj in Ha', Hb'. auto.
      - assert (byte_val a = byte_val x1f%byte /\ byte_val b = byte_val x8b%byte)
          as [Ha' Hb'] by (change (byte_val x1f%byte) with 31;
                           change (byte_val x8b%byte) with 139; lia).
        apply byte_val_inj in Ha', Hb'. auto. }
    rewrite Hno in Hopen. unfold mret, M_ret in Hopen. unfold read_header.
    rewrite (bind_Ok _ _ _ _ _ (Hopen ifilename)).
    change (negb true) with false. cbv iota.
    assert (Hmiss : (to_int32 (byte_val a * 2 ^ 24 + byte_val b * 2 ^ 16
                               + byte_val c * 2 ^ 8 + byte_val d) =? PCF_magic)
                    = false);
      [|unfold read_toc; cbv beta; cbn [read_bytes];
        change (0 + 4 =? 0) with false; cbv iota;
        unfold mbind at 1, M_bind at 1, mret at 1, M_ret at 1;
        rewrite Hmiss; reflexivity].
    apply Z.eqb_neq. intros Heq. apply Hmagic.
    assert (H32 : 2 ^ 32 = 4294967296) by reflexivity.
    assert (H31 : 2 ^ 31 = 2147483648) by reflexivity.
    assert (H24 : 2 ^ 24 = 16777216) by reflexivity.
    assert (H16 : 2 ^ 16 = 65536) by reflexivity.
    assert (H8 : 2 ^ 8 = 256) by reflexivity.
    rewrite to_int32_unsigned in Heq by lia.
    change PCF_magic with 23487344 in Heq.
    rewrite H32, H31, H24, H16, H8 in Heq.
    assert (byte_val a = byte_val x01%byte /\ byte_val b = byte_val x66%byte /\
            byte_val c = byte_val x63%byte /\ byte_val d = byte_val x70%byte)
      as (Ha' & Hb' & Hc' & Hd').
    { change (byte_val x01%byte) with 1. change (byte_val x66%byte) with 102.
      change (byte_val x63%byte) with 99. change (byte_val x70%byte) with 112.
      destruct (2147483648 <=? _) eqn:E in Heq;
        [apply Z.leb_le in E|apply Z.leb_gt in E]; lia. }
    apply byte_val_inj in Ha', Hb', Hc', Hd'. subst. reflexivity.
Qed.

Lemma read_header_magic_witness :
  (x00%byte = x1f%byte /\ (x00%byte = x9d%byte \/ x00%byte = x8b%byte) ->
   read_header None None true (mk_globals [x00; x00; x00; x00]%byte 0 BDF_format [])
   = Fatal (error_exit (String.append "stdin is gzip'ed or compress'ed" LF))) /\
  (~ (x00%byte = x1f%byte /\ (x00%byte = x9d%byte \/ x00%byte = x8b%byte)) ->
   (x00, x00, x00, x00)%byte <> (x01, x66, x63, x70)%byte ->
   forall ifilename : option string,
     read_header ifilename None true
       (mk_globals [x00; x00; x00; x00]%byte 0 BDF_format [])
     = Fatal (error_exit "this is not PCF file format")).
Proof.
  apply (read_header_magic None (mk_globals [x00; x00; x00; x00]%byte 0 BDF_format [])
           x00 x00 x00 x00 []%byte); reflexivity.
Defined.

(** ** Properties decoder *)

Lemma takes_read_byte8s (size : Z) : takes (Z.to_nat size) (read_byte8s size).
Proof.
  intros g. unfold read_byte8s.
  destruct (Z.to_nat size <=? length (ifp g))%nat; [|reflexivity].
  eexists. reflexivity.
Qed.

Lemma takes_skip (n : Z) : takes (Z.to_nat n) (skip n).
Proof. apply takes_skip_loop. Qed.

Lemma takes_read_props_loop (n : nat) : takes (9 * n) (read_props_loop n).
Proof.
  induction n as [|n IH]; simpl read_props_loop.
  - apply takes_ret.
  - replace (9 * S n)%nat with (4 + (1 + (4 + (9 * n + 0))))%nat by lia.
    apply takes_bind; [apply takes_read_int32|intros ?].
    apply takes_bind; [apply takes_read_bool8|intros ?].
    apply takes_bind; [apply takes_read_int32|intros ?].
    apply takes_bind; [exact IH|intros ?; apply takes_ret].
Qed.

Lemma read_props_loop_raw (n : nat) : forall (g g' : globals) (ps : list props_t.t),
  read_props_loop n g = Ok (ps, g') ->
  length ps = n /\
  Forall (fun p => exists v, props_t.value p = sv_v v) ps.
Proof.
  induction n as [|n IH]; intros g g' ps H; simpl in H.
  - apply ret_inv in H. destruct H as [-> _]. split; [reflexivity|constructor].
  - do 4 (apply bind_inv in H; destruct H as (? & ? & ? & H)).
    apply ret_inv in H. destruct H as [-> _].
    match goal with
    | Hloop : read_props_loop n _ = Ok _ |- _ =>
        destruct (IH _ _ _ Hloop) as [Hlen Hall]
    end.
    split; [simpl; f_equal; exact Hlen|].
    constructor; [simpl; eauto|exact Hall].
Qed.

Lemma resolve_props_Ok (blob : list byte8) (size : Z) (raw : list props_t.t) :
  forall ps : list props_t.t,
    Forall (fun p => exists v, props_t.value p = sv_v v) raw ->
    resolve_props blob size raw = Ok ps ->
    length ps = length raw /\
    Forall well_tagged ps /\
    Forall (fun p => sv_value (props_t.name p) < size /\
                     (props_t.isStringProp p = true ->
                      sv_value (props_t.value p) < size)) raw.
Proof.
  induction raw as [|p raw IH]; intros ps Hraw H; simpl in H.
  - injection H as <-. repeat split; constructor.
  - inversion Hraw as [|? ? Hp Hraw']; subst.
    destruct (size <=? sv_value (props_t.name p)) eqn:En; [discriminate H|].
    apply Z.leb_gt in En.
    destruct (props_t.isStringProp p) eqn:Es.
    + destruct (size <=? sv_value (props_t.value p)) eqn:Ev; [discriminate H|].
      apply Z.leb_gt in Ev.
      destruct (resolve_props blob size raw) as [ps'|e] eqn:Er; [|discriminate H].
      simpl in H. injection H as <-.
      destruct (IH ps' Hraw' eq_refl) as (Hlen & Htag & Hoff).
      split; [simpl; f_equal; exact Hlen|]. split.
      * constructor; [|exact Htag]. split; simpl; eauto.
      * constructor; [|exact Hoff]. split; [exact En|]. intros _. exact Ev.
    + destruct (resolve_props blob size raw) as [ps'|e] eqn:Er; [|discriminate H].
      simpl in H. injection H as <-.
      destruct (IH ps' Hraw' eq_refl) as (Hlen & Htag & Hoff).
      split; [simpl; f_equal; exact Hlen|]. split.
      * constructor; [|exact Htag]. split; simpl; eauto.
      * constructor; [|exact Hoff]. split; [exact En|]. intros Habs.
        congruence.
Qed.

Lemma props_padding_range (nProps : Z) : 0 <= props_padding nProps <= 6.
Proof.
  unfold props_padding.
  generalize (to_int32 (to_int32 ((4 + 1 + 4) * nProps) + 3)). intros k.
  pose proof (Z.rem_bound_abs k 4 ltac:(lia)) as Hr.
  change (Z.abs 4) with 4 in Hr. lia.
Qed.

(** The wrap-around of the [int] expression keeps its residue modulo 4,
    so the padding always aligns the next field; without overflow it is
    the least such padding. *)
Lemma props_padding_aligns (nProps : Z) :
  (8 + 9 * nProps + props_padding nProps) mod 4 = 0 /\
  (0 <= nProps -> 9 * nProps + 3 < 2 ^ 31 -> props_padding nProps <= 3).
Proof.
  unfold props_padding, to_int32, wrap_signed.
  change (4 + 1 + 4) with 9. change (2 ^ 31) with 2147483648.
  change (2 ^ (32 - 1)) with 2147483648. change (2 ^ 32) with 4294967296.
  split.
  - Z.quot_rem_to_equations. Z.div_mod_to_equations. lia.
  - intros Hn Hfit. Z.quot_rem_to_equations. Z.div_mod_to_equations. lia.
Qed.

(** With 238609294 properties the expression has wrapped and the padding
    is 6 bytes where 2 would do. *)
Example props_padding_wraps :
  props_padding 238609293 = 3 /\ props_padding 238609294 = 6 /\
  props_padding 238609295 = 5 /\ props_padding 238609296 = 4.
Proof. vm_compute. repeat split. Qed.

Lemma new_array_inv (n : Z) (g g' : globals) (u : unit) :
  new_array n g = Ok (u, g') -> 0 <= n /\ g' = g.
Proof.
  unfold new_array. destruct (n <? 0) eqn:E; [discriminate|].
  intros H. apply ret_inv in H. destruct H as [_ ->].
  apply Z.ltb_ge in E. auto.
Qed.

Lemma read_int32_range (g g' : globals) (v : Z) :
  read_int32 g = Ok (v, g') -> in_int32 v.
Proof.
  unfold read_int32. intros H.
  apply bind_inv in H. destruct H as (f & g1 & _ & H).
  destruct g1 as [i r fm t].
  destruct (format32.is_little_endian f);
    destruct i as [|a [|b [|c [|d rest]]]];
    first
      [ rewrite read_int32_little_bytes in H; injection H as <- _;
        apply to_int32_range
      | rewrite read_int32_big_bytes in H; injection H as <- _;
        apply to_int32_range
      | match type of H with
        | _ ?g0 = _ =>
            destruct (read_int32_short g0) as [Hb Hl]; [simpl; lia|];
            congruence
        end ].
Qed.

Lemma lift_result_inv {A : Type} (r : result A) (g g' : globals) (a : A) :
  lift_result r g = Ok (a, g') -> r = Ok a /\ g' = g.
Proof.
  unfold lift_result. destruct r; [|discriminate].
  intros H. injection H as <- <-. auto.
Qed.

(** X15.  Whenever the Properties section decodes: it declared at least
    one property and the list has that many; the string blob is shorter
    than [INT_MAX] bytes; the padding after the 9-byte triples puts the
    length of the string blob at a multiple of 4 from the start of the
    section, and is 0 to 3 bytes as long as the [int] expression
    [9 * nProps + 3] does not overflow (up to 6 bytes beyond); the
    section took
    [8 + 9*nProps + padding + 4 + stringSize] bytes; and every property
    is well tagged: its name is a string, its value a string for a
    string property and an integer otherwise. *)
Theorem read_properties_layout (g g' : globals) (props : list props_t.t) :
  read_properties g = Ok (props, g') ->
  exists nProps stringSize : Z,
    1 <= nProps < 2 ^ 31 /\ length props = Z.to_nat nProps /\
    0 <= stringSize < 2 ^ 31 - 1 /\
    0 <= props_padding nProps <= 6 /\
    (8 + 9 * nProps + props_padding nProps) mod 4 = 0 /\
    (9 * nProps + 3 < 2 ^ 31 -> props_padding nProps <= 3) /\
    read_bytes g'
    = read_bytes g + 8 + 9 * nProps + props_padding nProps + 4 + stringSize /\
    Forall well_tagged props.
Proof.
  unfold read_properties. intros H.
  apply bind_inv in H. destruct H as (f & g1 & Hf & H).
  destruct (takes_Ok _ _ _ _ _ takes_read_format32_little Hf) as (_ & ->).
  apply bind_inv in H. destruct H as (u & g2 & Hput & H).
  unfold put_format in Hput. injection Hput as _ <-.
  destruct (negb (format32.id f =? PCF_DEFAULT_FORMAT)); [discriminate H|].
  apply bind_inv in H. destruct H as (n & g3 & Hn & H).
  pose proof (read_int32_range _ _ _ Hn) as Hnr.
  destruct (takes_Ok _ _ _ _ _ takes_read_int32 Hn) as (_ & ->).
  apply bind_inv in H. destruct H as (u1 & g4 & Hchk & H).
  apply check_int32_min_inv in Hchk. destruct Hchk as [Hn1 ->].
  apply bind_inv in H. destruct H as (raw & g5 & Hraw & H).
  destruct (read_props_loop_raw _ _ _ _ Hraw) as [Hlen Hvals].
  destruct (takes_Ok _ _ _ _ _ (takes_read_props_loop (Z.to_nat n)) Hraw) as (_ & ->).
  apply bind_inv in H. destruct H as (u2 & g6 & Hskip & H).
  destruct (takes_Ok _ _ _ _ _ (takes_skip (props_padding n)) Hskip) as (_ & ->).
  apply bind_inv in H. destruct H as (size & g7 & Hsize & H).
  pose proof (read_int32_range _ _ _ Hsize) as Hsr.
  destruct (takes_Ok _ _ _ _ _ takes_read_int32 Hsize) as (_ & ->).
  apply bind_inv in H. destruct H as (u3 & g8 & Hchk & H).
  apply check_int32_min_inv in Hchk. destruct Hchk as [Hs0 ->].
  apply bind_inv in H. destruct H as (u4 & g8 & Hnew & H).
  apply new_array_inv in Hnew. destruct Hnew as [Hnew ->].
  apply bind_inv in H. destruct H as (blob & g9 & Hblob & H).
  destruct (takes_Ok _ _ _ _ _ (takes_read_byte8s size) Hblob) as (_ & ->).
  apply lift_result_inv in H. destruct H as [Hres ->].
  destruct (resolve_props_Ok _ _ _ _ Hvals Hres) as (Hlen' & Htag & _).
  pose proof (props_padding_range n) as Hpad.
  unfold in_int32 in Hnr, Hsr.
  assert (Hsize1 : size < 2 ^ 31 - 1).
  { change (2 ^ 31 - 1) with 2147483647.
    destruct (Z.eq_dec size 2147483647) as [->|Hne]; [|lia].
    vm_compute in Hnew. contradiction. }
  change (2 ^ 31) with 2147483648 in *.
  destruct (props_padding_aligns n) as [Hal Hsmall].
  exists n, size. repeat split; try lia; try assumption.
  simpl. lia.
Qed.

Lemma read_properties_layout_witness :
  exists nProps stringSize : Z,
    1 <= nProps < 2 ^ 31 /\
    length [props_t.mk (sv_s "POINT_SIZE") false (sv_v 100)] = Z.to_nat nProps /\
    0 <= stringSize < 2 ^ 31 - 1 /\
    0 <= props_padding nProps <= 6 /\
    (8 + 9 * nProps + props_padding nProps) mod 4 = 0 /\
    (9 * nProps + 3 < 2 ^ 31 -> props_padding nProps <= 3) /\
    read_bytes (mk_globals (drop 123 minimal_font) 123 BDF_format minimal_tables)
    = read_bytes minimal_after_header + 8 + 9 * nProps + props_padding nProps
      + 4 + stringSize /\
    Forall well_tagged [props_t.mk (sv_s "POINT_SIZE") false (sv_v 100)].
Proof.
  apply (read_properties_layout minimal_after_header
           (mk_globals (drop 123 minimal_font) 123 BDF_format minimal_tables)
           [props_t.mk (sv_s "POINT_SIZE") false (sv_v 100)]).
  vm_compute. reflexivity.
Defined.

(** A string blob of [INT_MAX] bytes makes the allocation of
    [stringSize + 1] bytes throw. *)
Example string_blob_too_large :
  new_array (to_int32 (2147483647 + 1)) (mk_globals [] 0 BDF_format [])
  = Fatal bad_alloc.
Proof. reflexivity. Qed.

Lemma resolve_props_length (blob : list byte8) (size : Z) (raw : list props_t.t) :
  forall ps : list props_t.t,
    resolve_props blob size raw = Ok ps -> length ps = length raw.
Proof.
  induction raw as [|p raw IH]; intros ps H; simpl in H.
  - injection H as <-. reflexivity.
  - destruct (size <=? sv_value (props_t.name p)); [discriminate H|].
    destruct (props_t.isStringProp p).
    + destruct (size <=? sv_value (props_t.value p)); [discriminate H|].
      destruct (resolve_props blob size raw) as [ps'|e]; [|discriminate H].
      simpl in H. injection H as <-. simpl. f_equal. apply IH. reflexivity.
    + destruct (resolve_props blob size raw) as [ps'|e]; [|discriminate H].
      simpl in H. injection H as <-. simpl. f_equal. apply IH. reflexivity.
Qed.

(** X16.  The offsets of the properties are guarded from above: the
    second pass over the properties succeeds exactly when every name
    offset, and every value offset of a string property, is below
    [stringSize]; otherwise it exits with the invalid-file message for
    "properties(name)" or "properties(value)". *)
Theorem resolve_props_guard (string : list byte8) (stringSize : Z)
    (props : list props_t.t) :
  ((exists ps, resolve_props string stringSize props = Ok ps) <->
   Forall (fun p => sv_value (props_t.name p) < stringSize /\
                    (props_t.isStringProp p = true ->
                     sv_value (props_t.value p) < stringSize)) props) /\
  (forall e, resolve_props string stringSize props = Fatal e ->
             e = error_invalid_exit "properties(name)" \/
             e = error_invalid_exit "properties(value)").
Proof.
  induction props as [|p props [IHiff IHe]]; simpl.
  - split; [split; [constructor|eauto]|discriminate].
  - destruct (stringSize <=? sv_value (props_t.name p)) eqn:En.
    + apply Z.leb_le in En. split.
      * split; [intros [ps H]; discriminate H|].
        intros H. inversion H as [|? ? [Hn _] _]; subst. lia.
      * intros e H. injection H as <-. auto.
    + apply Z.leb_gt in En.
      destruct (props_t.isStringProp p) eqn:Es.
      * destruct (stringSize <=? sv_value (props_t.value p)) eqn:Ev.
        -- apply Z.leb_le in Ev. split.
           ++ split; [intros [ps H]; discriminate H|].
              intros H. inversion H as [|? ? [_ Hv] _]; subst.
              specialize (Hv Es). lia.
           ++ intros e H. injection H as <-. auto.
        -- apply Z.leb_gt in Ev.
           destruct (resolve_props string stringSize props) as [ps'|e'] eqn:Er.
           ++ simpl. split; [|discriminate].
              split; [|eauto]. intros _. constructor; [auto|].
              apply IHiff. eauto.
           ++ simpl. split.
              ** split; [intros [ps H]; discriminate H|].
                 intros H. inversion H as [|? ? _ Hrest]; subst.
                 apply IHiff in Hrest. destruct Hrest as [ps H']. discriminate H'.
              ** intros e H. injection H as <-. apply IHe. reflexivity.
      * destruct (resolve_props string stringSize props) as [ps'|e'] eqn:Er.
        -- simpl. split; [|discriminate].
           split; [|eauto]. intros _. constructor.
           ++ split; [exact En|congruence].
           ++ apply IHiff. eauto.
        -- simpl. split.
           ++ split; [intros [ps H]; discriminate H|].
              intros H. inversion H as [|? ? _ Hrest]; subst.
              apply IHiff in Hrest. destruct Hrest as [ps H']. discriminate H'.
           ++ intros e H. injection H as <-. apply IHe. reflexivity.
Qed.

(** ** Accelerators and Encodings decoders *)

(** One step of a reader that takes a fixed number of bytes. *)
Ltac take_step H lem :=
  let Hs := fresh "Hs" in
  apply bind_inv in H; destruct H as (? & ? & Hs & H);
  destruct (takes_Ok _ _ _ _ _ lem Hs) as (_ & ->); clear Hs.

Ltac take_named H lem v :=
  let Hs := fresh "Hs" in
  apply bind_inv in H; destruct H as (v & ? & Hs & H);
  destruct (takes_Ok _ _ _ _ _ lem Hs) as (_ & ->); clear Hs.

(** X17.  [read_accelerators] exits with the invalid-file message for
    every format id other than the default one and the one with ink
    bounds.  When it succeeds with the default id it has taken 48 bytes
    and the ink bounds are copies of the bitmap bounds; with the
    ink-bounds id it has taken 72 bytes.  [format] is left at the
    section's format. *)
Theorem read_accelerators_layout (acc : accelerators_t) (g g1 : globals)
    (f : format32.t) :
  read_format32_little g = Ok (f, g1) ->
  (format32.id f <> PCF_DEFAULT_FORMAT ->
   format32.id f <> PCF_ACCEL_W_INKBOUNDS ->
   read_accelerators acc g = Fatal (error_invalid_exit "accelerators")) /\
  (forall (acc' : accelerators_t) (g' : globals),
     read_accelerators acc g = Ok (acc', g') ->
     format g' = f /\
     ((format32.id f = PCF_DEFAULT_FORMAT /\
       read_bytes g' = read_bytes g + 48 /\
       ink_minBounds acc' = minBounds acc' /\
       ink_maxBounds acc' = maxBounds acc') \/
      (format32.id f = PCF_ACCEL_W_INKBOUNDS /\
       read_bytes g' = read_bytes g + 72))).
Proof.
  intros Hf.
  destruct (takes_Ok _ _ _ _ _ takes_read_format32_little Hf) as (_ & ->).
  unfold read_accelerators. rewrite (bind_Ok _ _ _ _ _ Hf).
  assert (Hput : put_format f (consumed 4 g) = Ok (tt, set_format f (consumed 4 g)))
    by reflexivity.
  rewrite (bind_Ok _ _ _ _ _ Hput). clear Hput.
  split.
  - intros H0 H1.
    apply Z.eqb_neq in H0. apply Z.eqb_neq in H1. rewrite H0, H1. reflexivity.
  - intros acc' g' H.
    destruct (format32.id f =? PCF_DEFAULT_FORMAT) eqn:E0;
      destruct (format32.id f =? PCF_ACCEL_W_INKBOUNDS) eqn:E1;
      simpl negb in H; cbv iota in H; try discriminate H.
    + apply Z.eqb_eq in E0. apply Z.eqb_eq in E1.
      rewrite E0 in E1. discriminate E1.
    + apply Z.eqb_eq in E0.
      do 8 take_step H takes_read_bool8.
      do 3 take_step H takes_read_int32.
      take_step H (takes_read_metric (minBounds acc)).
      take_step H (takes_read_metric (maxBounds acc)).
      apply ret_inv in H. destruct H as [-> ->]. simpl.
      split; [reflexivity|]. left. repeat split; [exact E0|lia].
    + apply Z.eqb_eq in E1.
      do 8 take_step H takes_read_bool8.
      do 3 take_step H takes_read_int32.
      take_step H (takes_read_metric (minBounds acc)).
      take_step H (takes_read_metric (maxBounds acc)).
      take_step H (takes_read_metric (ink_minBounds acc)).
      take_step H (takes_read_metric (ink_maxBounds acc)).
      apply ret_inv in H. destruct H as [-> ->]. simpl.
      split; [reflexivity|]. right. split; [exact E1|lia].
Qed.

Lemma read_accelerators_layout_witness :
  (format32.id BDF_format <> PCF_DEFAULT_FORMAT ->
   format32.id BDF_format <> PCF_ACCEL_W_INKBOUNDS ->
   read_accelerators accelerators_init
     (mk_globals (drop 123 minimal_font) 123 BDF_format minimal_tables)
   = Fatal (error_invalid_exit "accelerators")) /\
  (forall (acc' : accelerators_t) (g' : globals),
     read_accelerators accelerators_init
       (mk_globals (drop 123 minimal_font) 123 BDF_format minimal_tables)
     = Ok (acc', g') ->
     format g' = BDF_format /\
     ((format32.id BDF_format = PCF_DEFAULT_FORMAT /\
       read_bytes g'
       = read_bytes (mk_globals (drop 123 minimal_font) 123 BDF_format minimal_tables)
         + 48 /\
       ink_minBounds acc' = minBounds acc' /\
       ink_maxBounds acc' = maxBounds acc') \/
      (format32.id BDF_format = PCF_ACCEL_W_INKBOUNDS /\
       read_bytes g'
       = read_bytes (mk_globals (drop 123 minimal_font) 123 BDF_format minimal_tables)
         + 72))).
Proof.
  apply (read_accelerators_layout accelerators_init
           (mk_globals (drop 123 minimal_font) 123 BDF_format minimal_tables)
           (mk_globals (drop 127 minimal_font) 127 BDF_format minimal_tables)
           BDF_format).
  vm_compute. reflexivity.
Defined.

Lemma to_uint16_range (v : Z) : 0 <= to_uint16 v <= 65535.
Proof.
  unfold to_uint16. change (2 ^ 16) with 65536.
  pose proof (Z.mod_pos_bound v 65536 ltac:(lia)). lia.
Qed.

Lemma read_encodings_loop_Ok (n : nat) :
  forall (nValid : Z) (g g' : globals) (cells : list Z * Z),
    read_encodings_loop n nValid g = Ok (cells, g') ->
    length (fst cells) = n /\
    Forall (fun e => 0 <= e <= 65535) (fst cells) /\
    snd cells = nValid + count_valid (fst cells) /\
    g' = consumed (2 * n) g.
Proof.
  induction n as [|n IH]; intros nValid g g' cells H; simpl read_encodings_loop in H.
  - apply ret_inv in H. destruct H as [-> ->]. simpl.
    rewrite consumed_0. repeat split; [constructor|lia].
  - take_named H takes_read_int16 x. cbv zeta in H.
    apply bind_inv in H. destruct H as (rest & g2 & Hrest & H).
    apply ret_inv in H. destruct H as [-> ->].
    destruct (IH _ _ _ _ Hrest) as (Hlen & Hall & Hcount & ->).
    cbn [fst snd]. repeat split.
    + simpl. f_equal. exact Hlen.
    + constructor; [apply to_uint16_range|exact Hall].
    + rewrite Hcount. simpl count_valid.
      destruct (to_uint16 x =? NO_SUCH_CHAR); simpl; lia.
    + rewrite consumed_consumed. f_equal. lia.
Qed.

(** X18.  Whenever the Encodings section decodes: the grid bounds are
    16-bit values with [firstCol <= lastCol] and [firstRow <= lastRow];
    the section holds one 16-bit cell per grid position (for a grid of
    fewer than 2^31 positions, where the [int] product is exact), and has
    taken 14 bytes plus 2 per cell; and [nValidEncodings] is the number of
    cells other than [NO_SUCH_CHAR]. *)
Theorem read_encodings_grid (g g' : globals) (enc : encodings_t) :
  read_encodings g = Ok (enc, g') ->
  0 <= firstCol enc <= lastCol enc /\ lastCol enc <= 65535 /\
  0 <= firstRow enc <= lastRow enc /\ lastRow enc <= 65535 /\
  0 <= defaultCh enc <= 65535 /\
  Forall (fun e => 0 <= e <= 65535) (encodings enc) /\
  length (encodings enc)
  = Z.to_nat (to_int32 ((lastCol enc - firstCol enc + 1)
                        * (lastRow enc - firstRow enc + 1))) /\
  ((lastCol enc - firstCol enc + 1) * (lastRow enc - firstRow enc + 1) < 2 ^ 31 ->
   Z.of_nat (length (encodings enc))
   = (lastCol enc - firstCol enc + 1) * (lastRow enc - firstRow enc + 1)) /\
  nValidEncodings enc = count_valid (encodings enc) /\
  read_bytes g' = read_bytes g + 14 + 2 * Z.of_nat (length (encodings enc)).
Proof.
  unfold read_encodings. intros H.
  take_named H takes_read_format32_little f.
  apply bind_inv in H. destruct H as (u & g2 & Hput & H).
  unfold put_format in Hput. injection Hput as _ <-.
  destruct (negb (format32.id f =? PCF_DEFAULT_FORMAT)); [discriminate H|].
  take_named H takes_read_int16 x1. cbv zeta in H.
  take_named H takes_read_int16 x2. cbv zeta in H.
  take_named H takes_read_int16 x3. cbv zeta in H.
  take_named H takes_read_int16 x4. cbv zeta in H.
  take_named H takes_read_int16 x5. cbv zeta in H.
  destruct (to_uint16 x1 <=? to_uint16 x2) eqn:Ecol;
    simpl negb in H; cbv iota in H; [|discriminate H].
  destruct (to_uint16 x3 <=? to_uint16 x4) eqn:Erow;
    simpl negb in H; cbv iota in H; [|discriminate H].
  apply Z.leb_le in Ecol. apply Z.leb_le in Erow.
  apply bind_inv in H. destruct H as (u' & g2 & Hnew & H).
  apply new_array_inv in Hnew. destruct Hnew as [_ ->].
  apply bind_inv in H. destruct H as (cells & g3 & Hcells & H).
  apply ret_inv in H. destruct H as [-> ->].
  destruct (read_encodings_loop_Ok _ _ _ _ _ Hcells) as (Hlen & Hall & Hcount & ->).
  pose proof (to_uint16_range x1). pose proof (to_uint16_range x2).
  pose proof (to_uint16_range x3). pose proof (to_uint16_range x4).
  pose proof (to_uint16_range x5).
  cbn [firstCol lastCol firstRow lastRow defaultCh encodings nValidEncodings].
  repeat split; try lia; try assumption.
  - intros Hfit. rewrite Hlen. rewrite to_int32_id.
    + rewrite Z2Nat.id; [reflexivity|]. nia.
    + unfold in_int32. change (2 ^ 31) with 2147483648 in Hfit. nia.
  - rewrite Hlen. simpl. lia.
Qed.

Lemma read_encodings_grid_witness :
  0 <= firstCol (mk_encodings 65 65 0 0 65 [0] 1)
    <= lastCol (mk_encodings 65 65 0 0 65 [0] 1) /\
  lastCol (mk_encodings 65 65 0 0 65 [0] 1) <= 65535 /\
  0 <= firstRow (mk_encodings 65 65 0 0 65 [0] 1)
    <= lastRow (mk_encodings 65 65 0 0 65 [0] 1) /\
  lastRow (mk_encodings 65 65 0 0 65 [0] 1) <= 65535 /\
  0 <= defaultCh (mk_encodings 65 65 0 0 65 [0] 1) <= 65535 /\
  Forall (fun e => 0 <= e <= 65535) (encodings (mk_encodings 65 65 0 0 65 [0] 1)) /\
  length (encodings (mk_encodings 65 65 0 0 65 [0] 1))
  = Z.to_nat (to_int32 ((lastCol (mk_encodings 65 65 0 0 65 [0] 1)
                         - firstCol (mk_encodings 65 65 0 0 65 [0] 1) + 1)
                        * (lastRow (mk_encodings 65 65 0 0 65 [0] 1)
                           - firstRow (mk_encodings 65 65 0 0 65 [0] 1) + 1))) /\
  ((lastCol (mk_encodings 65 65 0 0 65 [0] 1)
    - firstCol (mk_encodings 65 65 0 0 65 [0] 1) + 1)
   * (lastRow (mk_encodings 65 65 0 0 65 [0] 1)
      - firstRow (mk_encodings 65 65 0 0 65 [0] 1) + 1) < 2 ^ 31 ->
   Z.of_nat (length (encodings (mk_encodings 65 65 0 0 65 [0] 1)))
   = (lastCol (mk_encodings 65 65 0 0 65 [0] 1)
      - firstCol (mk_encodings 65 65 0 0 65 [0] 1) + 1)
     * (lastRow (mk_encodings 65 65 0 0 65 [0] 1)
        - firstRow (mk_encodings 65 65 0 0 65 [0] 1) + 1)) /\
  nValidEncodings (mk_encodings 65 65 0 0 65 [0] 1)
  = count_valid (encodings (mk_encodings 65 65 0 0 65 [0] 1)) /\
  read_bytes (mk_globals [] 234 BDF_format minimal_tables)
  = read_bytes (mk_globals (drop 218 minimal_font) 218 BDF_format minimal_tables)
    + 14 + 2 * Z.of_nat (length (encodings (mk_encodings 65 65 0 0 65 [0] 1))).
Proof.
  apply (read_encodings_grid
           (mk_globals (drop 218 minimal_font) 218 BDF_format minimal_tables)
           (mk_globals [] 234 BDF_format minimal_tables)
           (mk_encodings 65 65 0 0 65 [0] 1)).
  vm_compute. reflexivity.
Defined.

(** A grid of 65536 columns and 32768 rows has 2^31 cells: the [int]
    product is negative and the allocation of the cells throws. *)
Example read_encodings_grid_too_large :
  read_encodings
    (mk_globals [x0e; x00; x00; x00;  x00; x00;  xff; xff;
                 x00; x00;  x7f; xff;  x00; x00]%byte 0 BDF_format [])
  = Fatal bad_alloc.
Proof. vm_compute. reflexivity. Qed.

(** ** Emitter *)

(** The key of a cell of a grid inside the 256 by 256 square. *)
Lemma cell_charcode_small (enc : encodings_t) (i : Z) :
  0 <= firstCol enc <= lastCol enc -> lastCol enc <= 255 ->
  0 <= firstRow enc <= lastRow enc -> lastRow enc <= 255 ->
  0 <= i < (lastCol enc - firstCol enc + 1) * (lastRow enc - firstRow enc + 1) ->
  let n := lastCol enc - firstCol enc + 1 in
  cell_charcode enc i = (firstRow enc + i / n) * 256 + (firstCol enc + i mod n) /\
  firstCol enc <= firstCol enc + i mod n <= lastCol enc /\
  firstRow enc <= firstRow enc + i / n <= lastRow enc.
Proof.
  intros Hc Hc' Hr Hr' Hi n. unfold cell_charcode. fold n.
  assert (Hn : 0 < n) by (unfold n; lia).
  rewrite Z.rem_mod_nonneg, Z.quot_div_nonneg by lia.
  pose proof (Z.mod_pos_bound i n Hn) as Hm.
  assert (Hq : 0 <= i / n) by (apply Z.div_pos; lia).
  assert (Hq' : i / n < lastRow enc - firstRow enc + 1)
    by (apply Z.div_lt_upper_bound; [lia|exact (proj2 Hi)]).
  split; [|unfold n in *; lia].
  unfold to_uint16. change (2 ^ 16) with 65536.
  rewrite Z.mod_small by (unfold n in *; lia). lia.
Qed.

(** X19.  Keys of the output: for an encoding grid inside the 256 by 256
    square (columns and rows up to 255) the key of cell [i] is
    [row * 256 + col] for the cell's row and column, and two different
    cells of the grid never get the same key. *)
Theorem cell_charcode_injective (enc : encodings_t) (i j : Z) :
  0 <= firstCol enc <= lastCol enc -> lastCol enc <= 255 ->
  0 <= firstRow enc <= lastRow enc -> lastRow enc <= 255 ->
  0 <= i < (lastCol enc - firstCol enc + 1) * (lastRow enc - firstRow enc + 1) ->
  0 <= j < (lastCol enc - firstCol enc + 1) * (lastRow enc - firstRow enc + 1) ->
  cell_charcode enc i
  = (firstRow enc + i / (lastCol enc - firstCol enc + 1)) * 256
    + (firstCol enc + i mod (lastCol enc - firstCol enc + 1)) /\
  (cell_charcode enc i = cell_charcode enc j -> i = j).
Proof.
  intros Hc Hc' Hr Hr' Hi Hj.
  destruct (cell_charcode_small enc i Hc Hc' Hr Hr' Hi) as (Ei & Hci & Hri).
  destruct (cell_charcode_small enc j Hc Hc' Hr Hr' Hj) as (Ej & Hcj & Hrj).
  split; [exact Ei|].
  rewrite Ei, Ej. intros Heq.
  set (n := lastCol enc - firstCol enc + 1) in *.
  assert (Hn : 0 < n) by (unfold n; lia).
  assert (i / n = j / n /\ i mod n = j mod n) as [Hq Hm] by lia.
  rewrite (Z.div_mod i n), (Z.div_mod j n) by lia.
  rewrite Hq, Hm. reflexivity.
Qed.

Lemma cell_charcode_injective_witness :
  cell_charcode (mk_encodings 32 126 0 1 32 [] 0) 5
  = (firstRow (mk_encodings 32 126 0 1 32 [] 0)
     + 5 / (lastCol (mk_encodings 32 126 0 1 32 [] 0)
            - firstCol (mk_encodings 32 126 0 1 32 [] 0) + 1)) * 256
    + (firstCol (mk_encodings 32 126 0 1 32 [] 0)
       + 5 mod (lastCol (mk_encodings 32 126 0 1 32 [] 0)
                - firstCol (mk_encodings 32 126 0 1 32 [] 0) + 1)) /\
  (cell_charcode (mk_encodings 32 126 0 1 32 [] 0) 5
   = cell_charcode (mk_encodings 32 126 0 1 32 [] 0) 100 -> 5 = 100).
Proof.
  apply (cell_charcode_injective (mk_encodings 32 126 0 1 32 [] 0) 5 100);
    simpl; lia.
Defined.

(** A grid wider than 256 columns does repeat keys: column 256 of row 0
    and column 0 of row 1. *)
Example cell_charcode_collides :
  cell_charcode (mk_encodings 0 256 0 1 0 [] 0) 256
  = cell_charcode (mk_encodings 0 256 0 1 0 [] 0) 257.
Proof. reflexivity. Qed.

Lemma string_length_append (s1 s2 : string) :
  String.length (String.append s1 s2) = (String.length s1 + String.length s2)%nat.
Proof. induction s1 as [|a s1 IH]; simpl; [reflexivity|]. now rewrite IH. Qed.

Lemma concat_empty_cons_length (x : string) (l : list string) :
  String.length (String.concat EmptyString (x :: l))
  = (String.length x + String.length (String.concat EmptyString l))%nat.
Proof.
  destruct l as [|y l]; [simpl; lia|].
  change (String.concat EmptyString (x :: y :: l))
    with (String.append x (String.concat EmptyString (y :: l))).
  apply string_length_append.
Qed.

Lemma row_digits_length (row : list byte8) :
  String.length (String.concat EmptyString (map hex02X row))
  = (2 * length row)%nat.
Proof.
  induction row as [|x row IH]; [reflexivity|].
  cbn [map]. rewrite concat_empty_cons_length, IH.
  unfold hex02X. simpl. lia.
Qed.

Lemma row_word_length (row : list byte8) :
  String.length (row_word row) = (2 + 2 * length row)%nat.
Proof.
  unfold row_word. rewrite string_length_append, row_digits_length.
  reflexivity.
Qed.

Lemma map_seq_shift {A : Type} (f : nat -> A) (n : nat) :
  map f (seq 1 n) = map (fun k => f (S k)) (seq 0 n).
Proof. rewrite <- seq_shift, map_map. reflexivity. Qed.

Lemma nth_map_seq {A : Type} (f : nat -> A) (n k : nat) (d : A) :
  (k < n)%nat -> nth k (map f (seq 0 n)) d = f k.
Proof.
  intros Hk.
  rewrite (nth_indep _ d (f 0%nat)) by (rewrite length_map, length_seq; exact Hk).
  rewrite (map_nth f (seq 0 n) 0%nat k), seq_nth by exact Hk. reflexivity.
Qed.

(** One row: [n] bytes from offset [b], column counter starting at [c]. *)
Lemma emit_row_closed (w : Z) (buffer : list byte8) (n : nat) :
  forall c b : Z,
    0 <= b -> b + Z.of_nat n <= Z.of_nat (length buffer) ->
    emit_row n c w buffer b
    = Some (map (fun k => if c + Z.of_nat k <? w
                          then nth (Z.to_nat (b + Z.of_nat k)) buffer Byte.x00
                          else Byte.x00) (seq 0 n),
            b + Z.of_nat n).
Proof.
  induction n as [|n IH]; intros c b Hb Hlen.
  - simpl. now rewrite Z.add_0_r.
  - cbn [emit_row].
    rewrite (IH (c + 1) (b + 1)) by lia.
    unfold byte8 in *.
    assert (Hd : (if c <? w then buffer !! Z.to_nat b else Some Byte.x00)
                 = Some (if c <? w then nth (Z.to_nat b) buffer Byte.x00
                         else Byte.x00)).
    { destruct (c <? w); [|reflexivity].
      destruct (lookup_lt_is_Some_2 buffer (Z.to_nat b)) as [x Hx]; [lia|].
      pose proof (nth_lookup_Some buffer (Z.to_nat b) Byte.x00 x Hx) as E.
      rewrite E. exact Hx. }
    rewrite Hd. simpl.
    rewrite map_seq_shift.
    rewrite !Z.add_0_r.
    f_equal. f_equal; [|lia].
    f_equal. apply map_ext. intros k.
    replace (c + 1 + Z.of_nat k) with (c + Z.of_nat (S k)) by lia.
    replace (b + 1 + Z.of_nat k) with (b + Z.of_nat (S k)) by lia.
    reflexivity.
Qed.

(** All rows of a glyph: row [r] starts at [b + r * widthBytes]. *)
Lemma emit_rows_closed (widthBytes w : Z) (buffer : list byte8) (n : nat) :
  forall (k : nat) (b0 : Z),
    0 <= b0 -> 0 <= widthBytes ->
    b0 + Z.of_nat (k + n) * widthBytes <= Z.of_nat (length buffer) ->
    emit_rows n widthBytes w buffer (b0 + Z.of_nat k * widthBytes)
    = Some (map (fun r =>
                   map (fun c => glyph_byte buffer widthBytes w b0 (k + r) c)
                       (seq 0 (Z.to_nat widthBytes)))
                (seq 0 n)).
Proof.
  induction n as [|n IH]; intros k b0 Hb Hw Hlen; [reflexivity|].
  cbn [emit_rows].
  rewrite emit_row_closed by nia.
  simpl.
  replace (b0 + Z.of_nat k * widthBytes + Z.of_nat (Z.to_nat widthBytes))
    with (b0 + Z.of_nat (S k) * widthBytes) by lia.
  rewrite (IH (S k) b0) by (try lia; replace (S k + n)%nat with (k + S n)%nat by lia; exact Hlen).
  simpl. rewrite map_seq_shift.
  f_equal. f_equal.
  - apply map_ext. intros c. unfold glyph_byte.
    rewrite Nat.add_0_r. reflexivity.
  - apply map_ext. intros r. apply map_ext. intros c.
    replace (k + S r)%nat with (S k + r)%nat by lia. reflexivity.
Qed.

(** X20.  The bitmap rows of one glyph whose data lies inside the bitmap
    buffer: the emitter prints [height] words, each of [widthBytes] bytes
    (so [2 + 2 * widthBytes] characters with the [0x] prefix); the byte
    at row [r], column [c] is the buffer's byte at
    [offset + r * widthBytes + c] inside the ink width
    [max 1 ((widthBits + 7) / 8)] and zero in the padding columns. *)
Theorem glyph_rows_layout (f : format32.t) (buffer : list byte8)
    (m : metric_t) (b : Z) :
  bitmaps m = Some b -> 0 <= b ->
  0 <= height m -> 0 <= widthBytes m f ->
  b + height m * widthBytes m f <= Z.of_nat (length buffer) ->
  exists rows : list (list byte8),
    glyph_rows f buffer m = Some rows /\
    Z.of_nat (length rows) = height m /\
    Forall (fun row => Z.of_nat (length row) = widthBytes m f /\
                       Z.of_nat (String.length (row_word row))
                       = 2 + 2 * widthBytes m f) rows /\
    forall r c : nat,
      Z.of_nat r < height m -> Z.of_nat c < widthBytes m f ->
      nth c (nth r rows []) Byte.x00
      = glyph_byte buffer (widthBytes m f)
          (Z.max 1 (Z.quot (widthBits m + 7) 8)) b r c.
Proof.
  intros Hbm Hb Hh Hw Hlen.
  set (w := Z.max 1 (Z.quot (widthBits m + 7) 8)).
  assert (Hrows : glyph_rows f buffer m
                  = Some (map (fun r =>
                       map (fun c => glyph_byte buffer (widthBytes m f) w b r c)
                           (seq 0 (Z.to_nat (widthBytes m f))))
                       (seq 0 (Z.to_nat (height m))))).
  { unfold glyph_rows. rewrite Hbm. simpl.
    assert (Ew : (if Z.quot (widthBits m + 7) 8 <? 1 then 1
                  else Z.quot (widthBits m + 7) 8) = w).
    { unfold w. destruct (Z.ltb_spec (Z.quot (widthBits m + 7) 8) 1); lia. }
    rewrite Ew.
    pose proof (emit_rows_closed (widthBytes m f) w buffer
                  (Z.to_nat (height m)) 0 b Hb Hw) as H.
    rewrite Z.mul_0_l, Z.add_0_r in H. simpl Nat.add in H.
    rewrite H by (rewrite Z2Nat.id by lia; exact Hlen).
    reflexivity. }
  eexists. split; [exact Hrows|]. split; [|split].
  - rewrite length_map, length_seq. lia.
  - apply List.Forall_forall. intros row Hin.
    apply in_map_iff in Hin. destruct Hin as (r & <- & _).
    rewrite row_word_length, length_map, length_seq. lia.
  - intros r c Hr Hc.
    rewrite (nth_map_seq _ _ r) by lia.
    rewrite (nth_map_seq _ _ c) by lia.
    reflexivity.
Qed.

Lemma glyph_rows_layout_witness :
  exists rows : list (list byte8),
    glyph_rows sample_format sample_buffer sample_glyph = Some rows /\
    Z.of_nat (length rows) = height sample_glyph /\
    Forall (fun row => Z.of_nat (length row) = widthBytes sample_glyph sample_format /\
                       Z.of_nat (String.length (row_word row))
                       = 2 + 2 * widthBytes sample_glyph sample_format) rows /\
    forall r c : nat,
      Z.of_nat r < height sample_glyph ->
      Z.of_nat c < widthBytes sample_glyph sample_format ->
      nth c (nth r rows []) Byte.x00
      = glyph_byte sample_buffer (widthBytes sample_glyph sample_format)
          (Z.max 1 (Z.quot (widthBits sample_glyph + 7) 8)) 1 r c.
Proof.
  apply (glyph_rows_layout sample_format sample_buffer sample_glyph 1).
  - reflexivity.
  - lia.
  - vm_compute. discriminate.
  - vm_compute. discriminate.
  - vm_compute. discriminate.
Defined.

(** The printed words of the sample glyph: two ink bytes and two padding
    bytes per row. *)
Example sample_glyph_words :
  option_map (map row_word) (glyph_rows sample_format sample_buffer sample_glyph)
  = Some ["0x11220000"; "0x55660000"]%string.
Proof. vm_compute. reflexivity. Qed.

Lemma count_valid_printed (cells : list Z) :
  count_valid cells = Z.of_nat (length (printed_cells cells)).
Proof.
  induction cells as [|e cells IH]; [reflexivity|].
  cbn [count_valid printed_cells List.filter]. fold (printed_cells cells).
  rewrite IH. destruct (e =? NO_SUCH_CHAR); simpl negb; cbv iota;
    cbn [length]; lia.
Qed.


(** ** Normalisation of the bitmap buffer *)

Section ChunkLookup.

Context {A : Type}.
Variable step : nat.
Variable f : list A -> list A.
Variable g : A -> A.
Variable p : nat -> nat.
Hypothesis step_pos : (0 < step)%nat.
Hypothesis f_length : forall chunk : list A,
  length chunk = step -> length (f chunk) = step.
Hypothesis p_bound : forall j : nat, (j < step)%nat -> (p j < step)%nat.
Hypothesis f_point : forall (chunk : list A) (j : nat),
  length chunk = step -> (j < step)%nat -> f chunk !! j = g <$> chunk !! p j.

(** Inside the mapped groups every element comes from its own group. *)
Lemma chunk_map_lookup (n : nat) : forall (l : list A) (i : nat),
  (n * step <= length l)%nat -> (i < n * step)%nat ->
  chunk_map step f n l !! i
  = g <$> l !! (step * (i / step) + p (i mod step))%nat.
Proof.
  induction n as [|n IH]; intros l i Hl Hi; [simpl in Hi; lia|].
  cbn [chunk_map].
  assert (Ht : length (take step l) = step)
    by (apply length_take_le; simpl in Hl; lia).
  assert (Hc : length (f (take step l)) = step) by (apply f_length, Ht).
  destruct (Nat.lt_ge_cases i step) as [Hlt|Hge].
  - rewrite lookup_app_l by lia.
    rewrite f_point by assumption.
    rewrite lookup_take_lt by (apply p_bound; exact Hlt).
    rewrite Nat.div_small, Nat.mod_small by exact Hlt.
    rewrite Nat.mul_0_r. reflexivity.
  - rewrite lookup_app_r by lia. rewrite Hc.
    rewrite IH by (rewrite ?length_drop; simpl in Hl, Hi; lia).
    rewrite lookup_drop.
    assert (Hd : (i / step = 1 + (i - step) / step)%nat).
    { rewrite <- (Nat.div_add_l 1 step (i - step)) by lia. f_equal. lia. }
    assert (Hm : (i mod step = (i - step) mod step)%nat).
    { rewrite <- (Nat.Div0.mod_add (i - step) 1 step). f_equal. lia. }
    rewrite Hd, Hm. f_equal. f_equal. lia.
Qed.

End ChunkLookup.

Lemma rev_lookup_group (step : nat) (chunk : list byte8) (j : nat) :
  length chunk = step -> (j < step)%nat ->
  rev chunk !! j = id <$> chunk !! (step - 1 - j)%nat.
Proof.
  intros Hl Hj. rewrite rev_alt.
  change (rev_append chunk []) with (reverse chunk).
  rewrite reverse_lookup by lia. rewrite Hl.
  rewrite option_fmap_id. f_equal. lia.
Qed.

(** One byte of a buffer after a swap over groups of [step] bytes. *)
Lemma swap_lookup (step : nat) (data : list byte8) (size : Z) (i : nat) :
  (0 < step)%nat -> size <= Z.of_nat (length data) ->
  chunk_map step (@rev byte8) (Z.to_nat (size / Z.of_nat step)) data !! i
  = data !! swap_index step size i.
Proof.
  intros Hstep Hsize. unfold swap_index.
  assert (Hn : (Z.to_nat (size / Z.of_nat step) * step <= length data)%nat).
  { pose proof (Z.mul_div_le size (Z.of_nat step) ltac:(lia)).
    destruct (Z.le_gt_cases (size / Z.of_nat step) 0); nia. }
  destruct (Nat.ltb_spec i (Z.to_nat (size / Z.of_nat step) * step)) as [Hi|Hi].
  - rewrite (chunk_map_lookup step (@rev byte8) id (fun j => (step - 1 - j)%nat)).
    + apply option_fmap_id.
    + exact Hstep.
    + intros chunk. rewrite length_rev. auto.
    + intros j Hj. lia.
    + intros chunk j. apply rev_lookup_group.
    + exact Hn.
    + exact Hi.
  - apply chunk_map_trailing.
    + intros chunk. rewrite length_rev. auto.
    + exact Hn.
    + exact Hi.
Qed.

(** Whole groups stay below [size]. *)
Lemma swap_index_below (step : nat) (size : Z) (i : nat) :
  (0 < step)%nat ->
  (Z.of_nat (swap_index step size i) <? size) = (Z.of_nat i <? size).
Proof.
  intros Hstep. unfold swap_index.
  destruct (Nat.ltb_spec i (Z.to_nat (size / Z.of_nat step) * step)) as [Hi|Hi];
    [|reflexivity].
  assert (Hs : 0 < size / Z.of_nat step).
  { destruct (Z.le_gt_cases (size / Z.of_nat step) 0) as [H|H]; [|lia].
    rewrite Z2Nat.nonpos in Hi by exact H. simpl in Hi. lia. }
  pose proof (Z.mul_div_le size (Z.of_nat step) ltac:(lia)) as Hle.
  pose proof (Nat.Div0.mul_div_le i step) as Hq.
  pose proof (Nat.mod_upper_bound i step ltac:(lia)) as Hm.
  assert (Hd : (i / step < Z.to_nat (size / Z.of_nat step))%nat)
    by (apply Nat.Div0.div_lt_upper_bound; lia).
  assert (H1 : Z.of_nat i < size) by nia.
  assert (H2 : Z.of_nat (step * (i / step) + (step - 1 - i mod step)) < size) by nia.
  apply Z.ltb_lt in H1, H2. rewrite H1, H2. reflexivity.
Qed.

Lemma swap_index_one (size : Z) (i : nat) : swap_index 1 size i = i.
Proof.
  unfold swap_index.
  destruct (i <? Z.to_nat (size / Z.of_nat 1) * 1)%nat; [|reflexivity].
  rewrite Nat.div_1_r, Nat.mod_1_r. lia.
Qed.

(** One byte of a buffer after the bit-order pass. *)
Lemma invert_lookup (data : list byte8) (size : Z) (i : nat) :
  size <= Z.of_nat (length data) ->
  chunk_map 1 (map invert_byte) (Z.to_nat size) data !! i
  = (fun d => if Z.of_nat i <? size then invert_byte d else d) <$> data !! i.
Proof.
  intros Hsize.
  destruct (Z.ltb_spec (Z.of_nat i) size) as [Hi|Hi].
  - rewrite (chunk_map_lookup 1 (map invert_byte) invert_byte (fun j => j)).
    + rewrite Nat.div_1_r, Nat.mod_1_r. do 2 f_equal. lia.
    + lia.
    + intros chunk. rewrite length_map. auto.
    + auto.
    + intros chunk j _ _. apply list_lookup_fmap.
    + lia.
    + lia.
  - rewrite chunk_map_trailing.
    + symmetry. apply option_fmap_id.
    + intros chunk. rewrite length_map. auto.
    + lia.
    + lia.
Qed.

Lemma run_pass_eq pass data size data' :
  pass data size = Some data' -> run_pass pass data size = data'.
Proof. unfold run_pass. now intros ->. Qed.

(** The buffer after the bit-order step of [normalize_bitmaps]. *)
Lemma bit_step_lookup (f : format32.t) (data : list byte8) (size : Z) (i : nat) :
  size <= Z.of_nat (length data) ->
  let data1 :=
    if negb (format32.bit f =? format32.bit BDF_format)
    then run_pass bit_order_invert data size else data in
  length data1 = length data /\
  data1 !! i = normalized_byte f size i <$> data !! i.
Proof.
  intros Hsize. unfold normalized_byte.
  change (format32.bit BDF_format) with 1.
  destruct (format32.bit f =? 1); simpl negb; cbv iota; cbv zeta.
  - split; [reflexivity|]. symmetry. apply option_fmap_id.
  - rewrite (run_pass_eq _ _ _ _ (bit_order_invert_eq data size Hsize)).
    split.
    + apply chunk_map_length; [|lia].
      intros chunk. rewrite length_map. auto.
    + apply invert_lookup, Hsize.
Qed.

(** The table lookup of [bit_order_invert] reverses the eight bits of a
    byte: bit [k] of the result is bit [7 - k] of the byte. *)
Lemma invert_byte_reverses (d : byte8) (k : Z) :
  0 <= k < 8 ->
  Z.testbit (byte_val (invert_byte d)) k = Z.testbit (byte_val d) (7 - k).
Proof.
  intros Hk.
  assert (Hc : k = 0 \/ k = 1 \/ k = 2 \/ k = 3 \/ k = 4 \/ k = 5 \/ k = 6
               \/ k = 7) by lia.
  destruct Hc as [->|[->|[->|[->|[->|[->|[->| ->]]]]]]];
    destruct d; vm_compute; reflexivity.
Qed.

(** X22.  Normalisation of the bitmap buffer, byte by byte.  For a buffer
    of at least [size] bytes the result has the length of the input, and
    its byte at position [i] is the input byte at the mirrored position of
    [i] within its group of [swap_unit f] bytes (whole groups inside the
    first [size] bytes only), passed through [invert_byte] when the format
    is least-significant-bit first and the byte lies inside the first
    [size] bytes; [invert_byte] reverses the bits of a byte, bit [k] of
    its result being bit [7 - k] of its argument.  A buffer already in the
    target order (bit and byte order both most-significant first) is
    returned unchanged. *)
Theorem normalize_bitmaps_bytes (f : format32.t) (data : list byte8)
    (size : Z) :
  size <= Z.of_nat (length data) ->
  length (normalize_bitmaps f data size) = length data /\
  (forall i : nat,
     normalize_bitmaps f data size !! i
     = normalized_byte f size i <$> data !! swap_index (swap_unit f) size i) /\
  (format32.bit f = 1 -> format32.byte f = 1 ->
   normalize_bitmaps f data size = data) /\
  (forall (d : byte8) (k : Z),
     0 <= k < 8 ->
     Z.testbit (byte_val (invert_byte d)) k = Z.testbit (byte_val d) (7 - k)).
Proof.
  intros Hsize.
  cut (length (normalize_bitmaps f data size) = length data /\
       (forall i : nat,
          normalize_bitmaps f data size !! i
          = normalized_byte f size i <$> data !! swap_index (swap_unit f) size i) /\
       (format32.bit f = 1 -> format32.byte f = 1 ->
        normalize_bitmaps f data size = data)).
  { intros (H1 & H2 & H3). repeat split; try assumption.
    apply invert_byte_reverses. }
  assert (Hbit := fun i => bit_step_lookup f data size i Hsize).
  cbv zeta in Hbit.
  unfold normalize_bitmaps.
  set (data1 := if negb (format32.bit f =? format32.bit BDF_format)
                then run_pass bit_order_invert data size else data) in *.
  assert (Hlen1 : length data1 = length data) by (apply (Hbit 0%nat)).
  assert (Hsize1 : size <= Z.of_nat (length data1)) by (rewrite Hlen1; exact Hsize).
  assert (Hnorm : forall i, normalized_byte f size (swap_index (swap_unit f) size i)
                            = normalized_byte f size i).
  { intros i. unfold normalized_byte.
    rewrite swap_index_below; [reflexivity|].
    unfold swap_unit.
    destruct (Bool.eqb _ true); [lia|]. cbv zeta.
    destruct (_ =? 2); [lia|]. destruct (_ =? 4); lia. }
  assert (Hswap : forall step : nat, (0 < step)%nat ->
            length (chunk_map step (@rev byte8)
                      (Z.to_nat (size / Z.of_nat step)) data1) = length data /\
            forall i, chunk_map step (@rev byte8)
                        (Z.to_nat (size / Z.of_nat step)) data1 !! i
                      = normalized_byte f size (swap_index step size i)
                          <$> data !! swap_index step size i).
  { intros step Hstep.
    destruct (group_swap_involution step data1 size Hstep Hsize1) as (Hl & _ & _).
    split; [rewrite Hl; exact Hlen1|].
    intros i. rewrite swap_lookup by assumption. apply Hbit. }
  assert (Hnone : length data1 = length data /\
            forall i, data1 !! i
                      = normalized_byte f size (swap_index 1 size i)
                          <$> data !! swap_index 1 size i).
  { split; [exact Hlen1|]. intros i. rewrite swap_index_one. apply Hbit. }
  assert (Hmain :
    length (if negb (Bool.eqb (format32.bit f =? format32.byte f)
                    (format32.bit BDF_format =? format32.byte BDF_format))
            then
              let unit :=
                Z.shiftl 1 (if format32.bit BDF_format =? format32.byte BDF_format
                            then format32.scan f else format32.scan BDF_format) in
              if unit =? 1 then data1
              else if unit =? 2 then run_pass two_byte_swap data1 size
              else if unit =? 4 then run_pass four_byte_swap data1 size
              else data1
            else data1) = length data /\
    forall i,
      (if negb (Bool.eqb (format32.bit f =? format32.byte f)
                    (format32.bit BDF_format =? format32.byte BDF_format))
       then
         let unit :=
           Z.shiftl 1 (if format32.bit BDF_format =? format32.byte BDF_format
                       then format32.scan f else format32.scan BDF_format) in
         if unit =? 1 then data1
         else if unit =? 2 then run_pass two_byte_swap data1 size
         else if unit =? 4 then run_pass four_byte_swap data1 size
         else data1
       else data1) !! i
      = normalized_byte f size (swap_index (swap_unit f) size i)
          <$> data !! swap_index (swap_unit f) size i).
  { unfold swap_unit.
    change (format32.bit BDF_format =? format32.byte BDF_format) with true.
    destruct (Bool.eqb (format32.bit f =? format32.byte f) true);
      simpl negb; cbv iota; [exact Hnone|].
    cbv zeta.
    destruct (Z.shiftl 1 (format32.scan f) =? 1) eqn:E1.
    { apply Z.eqb_eq in E1. rewrite E1. simpl. exact Hnone. }
    destruct (Z.shiftl 1 (format32.scan f) =? 2) eqn:E2.
    { rewrite (run_pass_eq _ _ _ _ (two_byte_swap_eq data1 size Hsize1)).
      apply (Hswap 2%nat). lia. }
    destruct (Z.shiftl 1 (format32.scan f) =? 4) eqn:E4.
    { rewrite (run_pass_eq _ _ _ _ (four_byte_swap_eq data1 size Hsize1)).
      apply (Hswap 4%nat). lia. }
    exact Hnone. }
  destruct Hmain as [Hl Hi].
  split; [exact Hl|]. split.
  - intros i. rewrite Hi, Hnorm. reflexivity.
  - intros E1 E2. unfold data1.
    change (format32.bit BDF_format) with 1.
    change (format32.byte BDF_format) with 1.
    rewrite E1, E2. reflexivity.
Qed.

Lemma normalize_bitmaps_bytes_witness :
  length (normalize_bitmaps (format32.mk 1 0 1 0 1 0) sample_buffer 9)
  = length sample_buffer /\
  (forall i : nat,
     normalize_bitmaps (format32.mk 1 0 1 0 1 0) sample_buffer 9 !! i
     = normalized_byte (format32.mk 1 0 1 0 1 0) 9 i
         <$> sample_buffer !! swap_index (swap_unit (format32.mk 1 0 1 0 1 0)) 9 i) /\
  (format32.bit (format32.mk 1 0 1 0 1 0) = 1 ->
   format32.byte (format32.mk 1 0 1 0 1 0) = 1 ->
   normalize_bitmaps (format32.mk 1 0 1 0 1 0) sample_buffer 9 = sample_buffer) /\
  (forall (d : byte8) (k : Z),
     0 <= k < 8 ->
     Z.testbit (byte_val (invert_byte d)) k = Z.testbit (byte_val d) (7 - k)).
Proof.
  apply (normalize_bitmaps_bytes (format32.mk 1 0 1 0 1 0) sample_buffer 9).
  vm_compute. discriminate.
Defined.

(** The sample buffer under a least-significant-bit first format with
    two-byte scan units: pairs swapped, every byte bit-reversed, the odd
    last byte in place. *)
Example normalize_sample :
  map byte_val (normalize_bitmaps (format32.mk 1 0 1 0 1 0) sample_buffer 9)
  = [136; 0; 204; 68; 170; 34; 238; 102; 17].
Proof. vm_compute. reflexivity. Qed.

(** ** The table of contents during [main] *)

Lemma kt_takes {A : Type} (n : nat) (m : M A) : takes n m -> keeps_tables m.
Proof.
  intros Hm g g' a H. destruct (takes_Ok n m g g' a Hm H) as [_ ->].
  reflexivity.
Qed.

Lemma kt_ret {A : Type} (a : A) : keeps_tables (mret a : M A).
Proof. intros g g' b H. apply ret_inv in H. destruct H as [_ ->]. reflexivity. Qed.

Lemma kt_exit {A : Type} (e : fatal) : keeps_tables (exit_with e : M A).
Proof. intros g g' a H. discriminate H. Qed.

Lemma kt_bind {A B : Type} (m : M A) (f : A -> M B) :
  keeps_tables m -> (forall a, keeps_tables (f a)) -> keeps_tables (m ≫= f).
Proof.
  intros Hm Hf g g' b H. apply bind_inv in H.
  destruct H as (a & g1 & H1 & H2).
  rewrite (Hf a g1 g' b H2). exact (Hm g g1 a H1).
Qed.

Lemma kt_put_format (f : format32.t) : keeps_tables (put_format f).
Proof. intros g g' u H. unfold put_format in H. injection H as _ <-. reflexivity. Qed.

Lemma kt_check (str : string) (value min : Z) :
  keeps_tables (check_int32_min str value min).
Proof.
  intros g g' u H. apply check_int32_min_inv in H. destruct H as [_ ->].
  reflexivity.
Qed.

Lemma kt_new_array (n : Z) : keeps_tables (new_array n).
Proof.
  intros g g' u H. apply new_array_inv in H. destruct H as [_ ->].
  reflexivity.
Qed.

Lemma kt_lift {A : Type} (r : result A) : keeps_tables (lift_result r).
Proof.
  intros g g' a H. apply lift_result_inv in H. destruct H as [_ ->].
  reflexivity.
Qed.

Lemma kt_seek (type : Z) : keeps_tables (seek type).
Proof.
  intros g g' found H. apply seek_Ok in H.
  destruct (find _ (tables g)).
  - destruct H as (_ & _ & ->). reflexivity.
  - destruct H as (_ & ->). reflexivity.
Qed.

Lemma kt_read_encodings_loop (n : nat) :
  forall v : Z, keeps_tables (read_encodings_loop n v).
Proof.
  induction n as [|n IH]; intros v; simpl read_encodings_loop.
  - apply kt_ret.
  - apply kt_bind; [apply (kt_takes 2), takes_read_int16|intros x].
    apply kt_bind; [apply IH|intros rest; apply kt_ret].
Qed.

Lemma kt_read_swidths_loop (metrics : list metric_t) :
  keeps_tables (read_swidths_loop metrics).
Proof.
  induction metrics as [|m ms IH]; simpl read_swidths_loop.
  - apply kt_ret.
  - apply kt_bind; [apply (kt_takes 4), takes_read_int32|intros x].
    apply kt_bind; [exact IH|intros rest; apply kt_ret].
Qed.

Lemma kt_read_glyph_name_offsets (metrics : list metric_t) :
  keeps_tables (read_glyph_name_offsets metrics).
Proof.
  induction metrics as [|m ms IH]; simpl read_glyph_name_offsets.
  - apply kt_ret.
  - apply kt_bind; [apply (kt_takes 4), takes_read_int32|intros x].
    apply kt_bind; [exact IH|intros rest; apply kt_ret].
Qed.

(** One step of a proof that a reader keeps the table of contents. *)
Ltac kt_step :=
  first
    [ apply kt_ret
    | apply kt_exit
    | apply kt_put_format
    | apply kt_check
    | apply kt_new_array
    | apply kt_lift
    | apply kt_seek
    | apply kt_read_encodings_loop
    | apply kt_read_swidths_loop
    | apply kt_read_glyph_name_offsets
    | apply (kt_takes 4), takes_read_format32_little
    | apply (kt_takes 4), takes_read_int32
    | apply (kt_takes 2), takes_read_int16
    | apply (kt_takes 1), takes_read_bool8
    | apply (kt_takes 12), takes_read_metric
    | eapply kt_takes, takes_read_byte8s
    | eapply kt_takes, takes_skip
    | eapply kt_takes, takes_read_props_loop
    | eapply kt_takes, takes_read_uint32s
    | eapply kt_takes, takes_read_metrics_loop; intros;
      first [apply takes_read_metric | apply takes_read_compressed_metric]
    | apply kt_bind; [|intros ?]
    | match goal with
      | |- keeps_tables (if ?b then _ else _) => destruct b
      | |- keeps_tables (let x := _ in _) => cbv zeta
      end ].

Ltac kt_auto := repeat kt_step.

Lemma kt_read_properties : keeps_tables read_properties.
Proof. unfold read_properties. kt_auto. Qed.

Lemma kt_read_accelerators (acc : accelerators_t) :
  keeps_tables (read_accelerators acc).
Proof. unfold read_accelerators. kt_auto. Qed.

Lemma kt_read_metrics : keeps_tables read_metrics.
Proof. unfold read_metrics. kt_auto. Qed.

Lemma kt_read_bitmaps (nMetrics : Z) : keeps_tables (read_bitmaps nMetrics).
Proof. unfold read_bitmaps, read_nBitmaps, read_bitmap_data. kt_auto. Qed.

Lemma kt_read_encodings : keeps_tables read_encodings.
Proof. unfold read_encodings. kt_auto. Qed.

Lemma kt_read_swidths (props : list props_t.t) (metrics : list metric_t) :
  keeps_tables (read_swidths props metrics).
Proof. unfold read_swidths. kt_auto. Qed.

Lemma kt_read_glyph_names (metrics : list metric_t) :
  keeps_tables (read_glyph_names metrics).
Proof. unfold read_glyph_names. kt_auto. Qed.

Lemma kt_read_bdf_accelerators (acc : accelerators_t) :
  keeps_tables (read_bdf_accelerators acc).
Proof.
  unfold read_bdf_accelerators.
  apply kt_bind; [apply kt_seek|intros found].
  destruct found; [apply kt_read_accelerators|apply kt_ret].
Qed.

(** [is_exist_section] looks at the table of contents only. *)
Lemma is_exist_section_tables (type : Z) (g g' : globals) :
  tables g' = tables g -> is_exist_section type g' = is_exist_section type g.
Proof. unfold is_exist_section. now intros ->. Qed.

(** A required section that was found is in the table of contents. *)
Lemma seek_required_Ok (type : Z) (msg : string) (g g' : globals) (u : unit) :
  seek_required type msg g = Ok (u, g') ->
  is_exist_section type g = true /\ tables g' = tables g.
Proof.
  unfold seek_required. intros H.
  apply bind_inv in H. destruct H as (found & g1 & Hs & H).
  pose proof (kt_seek type g g1 found Hs) as Ht.
  destruct found; [|discriminate H].
  apply ret_inv in H. destruct H as [_ ->].
  split; [|exact Ht].
  apply seek_Ok in Hs. unfold is_exist_section.
  rewrite existsb_find.
  destruct (find _ (tables g)); [reflexivity|].
  destruct Hs as [Hs _]. discriminate Hs.
Qed.

Lemma seek_required_missing (type : Z) (msg : string) (g : globals) :
  is_exist_section type g = false ->
  seek_required type msg g = Fatal (error_exit msg).
Proof.
  intros H. unfold seek_required.
  assert (Hs : seek type g = Ok (false, g)).
  { unfold seek. unfold is_exist_section in H.
    induction (tables g) as [|t ts IH]; [reflexivity|].
    simpl in H. apply orb_false_iff in H. destruct H as [Ht Hts].
    simpl. rewrite Ht. apply IH, Hts. }
  rewrite (bind_Ok _ _ _ _ _ Hs). reflexivity.
Qed.

Lemma read_old_accelerators_Ok (g g' : globals) (acc : accelerators_t) :
  read_old_accelerators g = Ok (acc, g') ->
  (is_exist_section PCF_BDF_ACCELERATORS g = true \/
   is_exist_section PCF_ACCELERATORS g = true) /\
  tables g' = tables g.
Proof.
  unfold read_old_accelerators. intros H.
  destruct (is_exist_section PCF_BDF_ACCELERATORS g) eqn:Eb;
    simpl negb in H; cbv iota in H.
  - apply ret_inv in H. destruct H as [_ ->]. auto.
  - apply bind_inv in H. destruct H as (u & g1 & Hs & H).
    apply seek_required_Ok in Hs. destruct Hs as [Hs Ht].
    split; [right; exact Hs|].
    rewrite (kt_read_accelerators _ _ _ _ H). exact Ht.
Qed.

(** The steps of [read_glyph_sections], one by one. *)
Lemma read_glyph_sections_inv (g gs : globals)
    (s : list props_t.t * accelerators_t * list metric_t
         * (Z * list Z * list byte8)) :
  read_glyph_sections g = Ok (s, gs) ->
  exists (g1 g2 g3 g4 g5 g6 : globals) (u1 u4 u6 : unit),
    seek_required PCF_PROPERTIES "PCF_PROPERTIES does not found" g = Ok (u1, g1) /\
    read_properties g1 = Ok (fst (fst (fst s)), g2) /\
    read_old_accelerators g2 = Ok (snd (fst (fst s)), g3) /\
    seek_required PCF_METRICS "PCF_METRICS does not found" g3 = Ok (u4, g4) /\
    read_metrics g4 = Ok (snd (fst s), g5) /\
    seek_required PCF_BITMAPS "PCF_BITMAPS does not found" g5 = Ok (u6, g6) /\
    read_bitmaps (Z.of_nat (length (snd (fst s)))) g6 = Ok (snd s, gs).
Proof.
  unfold read_glyph_sections. intros H.
  apply bind_inv in H. destruct H as (u1 & g1 & H1 & H).
  apply bind_inv in H. destruct H as (props & g2 & H2 & H).
  apply bind_inv in H. destruct H as (acc & g3 & H3 & H).
  apply bind_inv in H. destruct H as (u4 & g4 & H4 & H).
  apply bind_inv in H. destruct H as (metrics & g5 & H5 & H).
  apply bind_inv in H. destruct H as (u6 & g6 & H6 & H).
  apply bind_inv in H. destruct H as (bm & g7 & H7 & H).
  apply ret_inv in H. destruct H as [-> ->]. simpl.
  exists g1, g2, g3, g4, g5, g6, u1, u4, u6. auto 10.
Qed.

(** X23.  Required sections.  Whenever [main] gets through all its
    sections, the table of contents holds a Properties, a Metrics, a
    Bitmaps and a BDF-encodings entry and at least one of the two
    accelerator entries; no section reader changes the table of
    contents. *)
Theorem read_sections_required (g g' : globals) (d : decoded) :
  read_sections g = Ok (d, g') ->
  is_exist_section PCF_PROPERTIES g = true /\
  (is_exist_section PCF_BDF_ACCELERATORS g = true \/
   is_exist_section PCF_ACCELERATORS g = true) /\
  is_exist_section PCF_METRICS g = true /\
  is_exist_section PCF_BITMAPS g = true /\
  is_exist_section PCF_BDF_ENCODINGS g = true /\
  tables g' = tables g.
Proof.
  unfold read_sections. intros H.
  apply bind_inv in H. destruct H as (s & gs & Hs & H).
  apply read_glyph_sections_inv in Hs.
  destruct Hs as (g1 & g2 & g3 & g4 & g5 & g6 & u1 & u4 & u6
                  & H1 & H2 & H3 & H4 & H5 & H6 & H7).
  apply seek_required_Ok in H1. destruct H1 as [S1 T1].
  apply kt_read_properties in H2. rewrite T1 in H2.
  apply read_old_accelerators_Ok in H3. destruct H3 as [S3 T3].
  rewrite !(is_exist_section_tables _ g g2 H2) in S3. rewrite H2 in T3.
  apply seek_required_Ok in H4. destruct H4 as [S4 T4].
  rewrite (is_exist_section_tables _ g g3 T3) in S4. rewrite T3 in T4.
  apply kt_read_metrics in H5. rewrite T4 in H5.
  apply seek_required_Ok in H6. destruct H6 as [S6 T6].
  rewrite (is_exist_section_tables _ g g5 H5) in S6. rewrite H5 in T6.
  apply kt_read_bitmaps in H7. rewrite T6 in H7.
  cbv zeta in H.
  apply bind_inv in H. destruct H as (u8 & g8 & H8 & H).
  apply seek_required_Ok in H8. destruct H8 as [S8 T8].
  rewrite (is_exist_section_tables _ g gs H7) in S8. rewrite H7 in T8.
  apply bind_inv in H. destruct H as (enc & g9 & H9 & H).
  apply kt_read_encodings in H9. rewrite T8 in H9.
  apply bind_inv in H. destruct H as (metrics' & g10 & H10 & H).
  apply kt_read_swidths in H10. rewrite H9 in H10.
  apply bind_inv in H. destruct H as (metrics'' & g11 & H11 & H).
  apply kt_read_glyph_names in H11. rewrite H10 in H11.
  apply bind_inv in H. destruct H as (acc' & g12 & H12 & H).
  apply kt_read_bdf_accelerators in H12. rewrite H11 in H12.
  apply ret_inv in H. destruct H as [_ ->].
  repeat split; assumption.
Qed.

Lemma read_sections_required_witness :
  is_exist_section PCF_PROPERTIES minimal_after_header = true /\
  (is_exist_section PCF_BDF_ACCELERATORS minimal_after_header = true \/
   is_exist_section PCF_ACCELERATORS minimal_after_header = true) /\
  is_exist_section PCF_METRICS minimal_after_header = true /\
  is_exist_section PCF_BITMAPS minimal_after_header = true /\
  is_exist_section PCF_BDF_ENCODINGS minimal_after_header = true /\
  tables (snd minimal_sections) = tables minimal_after_header.
Proof.
  apply (read_sections_required minimal_after_header (snd minimal_sections)
           (fst minimal_sections)).
  vm_compute. reflexivity.
Defined.

(** X24.  The message for a missing section.  When the table of contents
    has no Properties entry [main] exits with
    [PCF_PROPERTIES does not found] before it reads a byte of any
    section; when it has neither accelerator entry, the accelerators step
    exits with its own message. *)
Theorem missing_section_messages (g : globals) :
  (is_exist_section PCF_PROPERTIES g = false ->
   read_sections g = Fatal (error_exit "PCF_PROPERTIES does not found")) /\
  (is_exist_section PCF_BDF_ACCELERATORS g = false ->
   is_exist_section PCF_ACCELERATORS g = false ->
   read_old_accelerators g
   = Fatal (error_exit "PCF_ACCELERATORS and PCF_BDF_ACCELERATORS do not found")) /\
  (is_exist_section PCF_BDF_ACCELERATORS g = true ->
   read_old_accelerators g = Ok (accelerators_init, g)).
Proof.
  split; [|split].
  - intros H. unfold read_sections, read_glyph_sections.
    apply bind_Fatal. apply bind_Fatal. apply seek_required_missing, H.
  - intros Hb Ha. unfold read_old_accelerators. rewrite Hb. simpl negb. cbv iota.
    apply bind_Fatal. apply seek_required_missing, Ha.
  - intros Hb. unfold read_old_accelerators. rewrite Hb. reflexivity.
Qed.

(** ** The glyph array across the sections *)

Lemma read_metrics_pos (g g' : globals) (metrics : list metric_t) :
  read_metrics g = Ok (metrics, g') -> (1 <= length metrics)%nat.
Proof.
  unfold read_metrics. intros H.
  apply bind_inv in H. destruct H as (f & g1 & _ & H).
  apply bind_inv in H. destruct H as (u & g2 & _ & H).
  destruct (format32.id f =? PCF_DEFAULT_FORMAT).
  - apply bind_inv in H. destruct H as (n & g3 & _ & H).
    apply bind_inv in H. destruct H as (u' & g4 & Hchk & H).
    apply check_int32_min_inv in Hchk. destruct Hchk as [Hn1 _].
    rewrite (read_metrics_loop_length _ _ _ _ _ H). lia.
  - destruct (format32.id f =? PCF_COMPRESSED_METRICS); [|discriminate].
    apply bind_inv in H. destruct H as (n & g3 & _ & H).
    apply bind_inv in H. destruct H as (u' & g4 & Hchk & H).
    apply check_int32_min_inv in Hchk. destruct Hchk as [Hn1 _].
    rewrite (read_metrics_loop_length _ _ _ _ _ H). lia.
Qed.

Lemma to_uint32_range (v : Z) : 0 <= to_uint32 v < 2 ^ 32.
Proof. unfold to_uint32. apply Z.mod_pos_bound. lia. Qed.

Lemma read_uint32s_Ok (n : nat) :
  forall (g g' : globals) (vs : list Z),
    read_uint32s n g = Ok (vs, g') ->
    length vs = n /\ Forall (fun v => 0 <= v < 2 ^ 32) vs.
Proof.
  induction n as [|n IH]; intros g g' vs H; simpl in H.
  - apply ret_inv in H. destruct H as [-> _]. split; [reflexivity|constructor].
  - apply bind_inv in H. destruct H as (v & g1 & Hv & H).
    apply bind_inv in H. destruct H as (vs' & g2 & Hvs & H).
    apply ret_inv in H. destruct H as [-> _].
    destruct (IH _ _ _ Hvs) as [Hl Hr].
    unfold read_uint32 in Hv.
    apply bind_inv in Hv. destruct Hv as (w & g3 & _ & Hv).
    apply ret_inv in Hv. destruct Hv as [-> _].
    split; [simpl; f_equal; exact Hl|].
    constructor; [apply to_uint32_range|exact Hr].
Qed.

(** The Bitmaps section yields at least one offset per metric. *)
Lemma read_bitmaps_Ok (nMetrics : Z) (g g' : globals)
    (bm : Z * list Z * list byte8) :
  read_bitmaps nMetrics g = Ok (bm, g') ->
  (Z.to_nat nMetrics <= length (snd (fst bm)))%nat /\
  Forall (fun v => 0 <= v < 2 ^ 32) (snd (fst bm)).
Proof.
  unfold read_bitmaps. intros H.
  apply bind_inv in H. destruct H as (f & g1 & _ & H).
  apply bind_inv in H. destruct H as (u & g2 & _ & H).
  destruct (negb (format32.id f =? PCF_DEFAULT_FORMAT)); [discriminate H|].
  apply bind_inv in H. destruct H as (nBitmaps & g3 & Hn & H).
  unfold read_nBitmaps in Hn.
  apply bind_inv in Hn. destruct Hn as (n & g4 & _ & Hn).
  apply bind_inv in Hn. destruct Hn as (u' & g5 & Hchk & Hn).
  apply check_int32_min_inv in Hchk. destruct Hchk as [Hge _].
  apply ret_inv in Hn. destruct Hn as [-> _].
  unfold read_bitmap_data in H.
  apply bind_inv in H. destruct H as (offs & g6 & Hoffs & H).
  apply read_uint32s_Ok in Hoffs. destruct Hoffs as [Hl Hr].
  apply bind_inv in H. destruct H as (sizes & g7 & _ & H).
  cbv zeta in H.
  apply bind_inv in H. destruct H as (u'' & g8 & _ & H).
  apply bind_inv in H. destruct H as (data & g9 & _ & H).
  apply ret_inv in H. destruct H as [-> _]. simpl.
  split; [lia|exact Hr].
Qed.

Lemma assign_bitmaps_length (metrics : list metric_t) :
  forall offs : list Z,
    length (assign_bitmaps metrics offs) = length metrics.
Proof.
  induction metrics as [|m ms IH]; intros offs; [reflexivity|].
  destruct offs as [|o offs]; [reflexivity|]. simpl. f_equal. apply IH.
Qed.

Lemma read_swidths_loop_bitmaps (metrics : list metric_t) :
  forall (g g' : globals) (ms : list metric_t),
    read_swidths_loop metrics g = Ok (ms, g') ->
    map bitmaps ms = map bitmaps metrics.
Proof.
  induction metrics as [|m metrics IH]; intros g g' ms H; simpl in H.
  - apply ret_inv in H. destruct H as [-> _]. reflexivity.
  - apply bind_inv in H. destruct H as (v & g1 & _ & H).
    apply bind_inv in H. destruct H as (ms' & g2 & Hms & H).
    apply ret_inv in H. destruct H as [-> _].
    simpl. f_equal. exact (IH _ _ _ Hms).
Qed.

Lemma compute_swidths_bitmaps (props : list props_t.t)
    (metrics ms : list metric_t) :
  compute_swidths props metrics = Ok ms -> map bitmaps ms = map bitmaps metrics.
Proof.
  unfold compute_swidths. intros H.
  destruct (swidth_resolution props) as [rx|e]; [|discriminate H].
  simpl in H.
  destruct (get_property_value props "POINT_SIZE") as [ps|e]; [|discriminate H].
  simpl in H. injection H as <-.
  rewrite map_map. reflexivity.
Qed.

Lemma read_swidths_bitmaps (props : list props_t.t) (metrics ms : list metric_t)
    (g g' : globals) :
  read_swidths props metrics g = Ok (ms, g') ->
  map bitmaps ms = map bitmaps metrics.
Proof.
  unfold read_swidths. intros H.
  apply bind_inv in H. destruct H as (found & g1 & _ & H).
  destruct found.
  - apply bind_inv in H. destruct H as (f & g2 & _ & H).
    apply bind_inv in H. destruct H as (u & g3 & _ & H).
    destruct (negb (format32.id f =? PCF_DEFAULT_FORMAT)); [discriminate H|].
    apply bind_inv in H. destruct H as (n & g4 & _ & H).
    destruct (negb (n =? Z.of_nat (length metrics))); [discriminate H|].
    exact (read_swidths_loop_bitmaps _ _ _ _ H).
  - apply lift_result_inv in H. destruct H as [H _].
    exact (compute_swidths_bitmaps _ _ _ H).
Qed.

Lemma read_glyph_name_offsets_bitmaps (metrics : list metric_t) :
  forall (g g' : globals) (ms : list metric_t),
    read_glyph_name_offsets metrics g = Ok (ms, g') ->
    map bitmaps ms = map bitmaps metrics.
Proof.
  induction metrics as [|m metrics IH]; intros g g' ms H; simpl in H.
  - apply ret_inv in H. destruct H as [-> _]. reflexivity.
  - apply bind_inv in H. destruct H as (v & g1 & _ & H).
    apply bind_inv in H. destruct H as (ms' & g2 & Hms & H).
    apply ret_inv in H. destruct H as [-> _].
    simpl. f_equal. exact (IH _ _ _ Hms).
Qed.

Lemma resolve_glyph_names_bitmaps (blob : list byte8) (size : Z)
    (metrics : list metric_t) :
  forall ms : list metric_t,
    resolve_glyph_names blob size metrics = Ok ms ->
    map bitmaps ms = map bitmaps metrics.
Proof.
  induction metrics as [|m metrics IH]; intros ms H; simpl in H.
  - injection H as <-. reflexivity.
  - destruct (size <=? sv_value (glyphName m)); [discriminate H|].
    destruct (resolve_glyph_names blob size metrics) as [ms'|e];
      [|discriminate H].
    simpl in H. injection H as <-. simpl. f_equal. apply IH. reflexivity.
Qed.

Lemma read_glyph_names_bitmaps (metrics ms : list metric_t) (g g' : globals) :
  read_glyph_names metrics g = Ok (ms, g') ->
  map bitmaps ms = map bitmaps metrics.
Proof.
  unfold read_glyph_names. intros H.
  apply bind_inv in H. destruct H as (found & g1 & _ & H).
  destruct found.
  - apply bind_inv in H. destruct H as (f & g2 & _ & H).
    apply bind_inv in H. destruct H as (u & g3 & _ & H).
    destruct (negb (format32.id f =? PCF_DEFAULT_FORMAT)); [discriminate H|].
    apply bind_inv in H. destruct H as (n & g4 & _ & H).
    destruct (negb (n =? Z.of_nat (length metrics))); [discriminate H|].
    apply bind_inv in H. destruct H as (ms1 & g5 & H1 & H).
    apply read_glyph_name_offsets_bitmaps in H1.
    apply bind_inv in H. destruct H as (size & g6 & _ & H).
    apply bind_inv in H. destruct H as (u' & g7 & _ & H).
    apply bind_inv in H. destruct H as (u'' & g7' & _ & H).
    apply bind_inv in H. destruct H as (blob & g8 & _ & H).
    apply lift_result_inv in H. destruct H as [H _].
    apply resolve_glyph_names_bitmaps in H. congruence.
  - apply ret_inv in H. destruct H as [-> _]. reflexivity.
Qed.

Lemma assign_bitmaps_lookup (metrics : list metric_t) :
  forall (offs : list Z) (i : nat) (m : metric_t),
    (length metrics <= length offs)%nat ->
    assign_bitmaps metrics offs !! i = Some m ->
    exists off : Z, offs !! i = Some off /\ bitmaps m = Some off.
Proof.
  induction metrics as [|m0 ms IH]; intros offs i m Hl Hi; [discriminate Hi|].
  destruct offs as [|o offs]; [simpl in Hl; lia|].
  destruct i as [|i]; simpl in Hi.
  - injection Hi as <-. exists o. split; reflexivity.
  - apply (IH offs i m); [simpl in Hl; lia|exact Hi].
Qed.

(** X25.  The glyph array after all sections.  Whenever [main] gets
    through its sections, the sections up to Bitmaps have decoded at
    least one glyph, the final array has as many glyphs as the Metrics
    section gave, the bitmap buffer is the one of the Bitmaps section,
    and glyph [i] starts in it at the [i]-th offset of the Bitmaps
    section, an unsigned 32-bit value.  The Swidths and Glyph Names steps
    change neither the number of glyphs nor their bitmap starts. *)
Theorem decoded_glyphs_have_bitmaps (g g' : globals) (d : decoded) :
  read_sections g = Ok (d, g') ->
  (exists (props : list props_t.t) (acc : accelerators_t)
          (metrics0 : list metric_t) (nBitmaps : Z) (bitmapOffsets : list Z)
          (buffer : list byte8) (g1 : globals),
     read_glyph_sections g
     = Ok ((props, acc, metrics0, (nBitmaps, bitmapOffsets, buffer)), g1) /\
     (1 <= length metrics0)%nat /\
     length (d_metrics d) = length metrics0 /\
     d_bitmaps d = buffer /\
     forall (i : nat) (m : metric_t),
       d_metrics d !! i = Some m ->
       exists off : Z,
         bitmapOffsets !! i = Some off /\ bitmaps m = Some off /\
         0 <= off < 2 ^ 32) /\
  (forall (props : list props_t.t) (ms ms' : list metric_t) (h h' : globals),
     read_swidths props ms h = Ok (ms', h') ->
     map bitmaps ms' = map bitmaps ms) /\
  (forall (ms ms' : list metric_t) (h h' : globals),
     read_glyph_names ms h = Ok (ms', h') ->
     map bitmaps ms' = map bitmaps ms).
Proof.
  intros H. split; [|split].
  - unfold read_sections in H.
    apply bind_inv in H. destruct H as (s & gs & Hs & H).
    pose proof (read_glyph_sections_inv _ _ _ Hs) as Hinv.
    destruct Hinv as (g1 & g2 & g3 & g4 & g5 & g6 & u1 & u4 & u6
                      & _ & _ & _ & _ & Hm & _ & Hb).
    destruct s as [[[props acc] metrics0] [[nBitmaps offs] buffer]].
    cbn [fst snd] in *.
    apply read_metrics_pos in Hm.
    apply read_bitmaps_Ok in Hb. destruct Hb as [Hl Hr].
    cbn [fst snd] in Hl, Hr. rewrite Nat2Z.id in Hl.
    apply bind_inv in H. destruct H as (u8 & g8 & _ & H).
    apply bind_inv in H. destruct H as (enc & g9 & _ & H).
    apply bind_inv in H. destruct H as (ms1 & g10 & H1 & H).
    apply read_swidths_bitmaps in H1.
    apply bind_inv in H. destruct H as (ms2 & g11 & H2 & H).
    apply read_glyph_names_bitmaps in H2.
    apply bind_inv in H. destruct H as (acc' & g12 & _ & H).
    apply ret_inv in H. destruct H as [-> _]. cbn [d_metrics d_bitmaps].
    assert (E : map bitmaps ms2 = map bitmaps (assign_bitmaps metrics0 offs))
      by congruence.
    exists props, acc, metrics0, nBitmaps, offs, buffer, gs.
    split; [exact Hs|]. split; [exact Hm|]. split; [|split; [reflexivity|]].
    + rewrite <- (length_map bitmaps ms2), E, length_map.
      apply assign_bitmaps_length.
    + intros i m Hi.
      assert (Hb : map bitmaps ms2 !! i = Some (bitmaps m)).
      { change (map bitmaps ms2) with (bitmaps <$> ms2).
        rewrite list_lookup_fmap, Hi. reflexivity. }
      rewrite E in Hb.
      change (map bitmaps (assign_bitmaps metrics0 offs))
        with (bitmaps <$> assign_bitmaps metrics0 offs) in Hb.
      rewrite list_lookup_fmap in Hb.
      destruct (assign_bitmaps metrics0 offs !! i) as [m1|] eqn:E1;
        [|discriminate Hb].
      simpl in Hb. injection Hb as Hb.
      destruct (assign_bitmaps_lookup _ _ _ _ Hl E1) as (off & Ho & Hm1).
      exists off. split; [exact Ho|]. split; [congruence|].
      exact (Forall_lookup_1 _ _ _ _ Hr Ho).
  - intros props ms ms' h h'. apply read_swidths_bitmaps.
  - intros ms ms' h h'. apply read_glyph_names_bitmaps.
Qed.

Lemma decoded_glyphs_have_bitmaps_witness :
  (exists (props : list props_t.t) (acc : accelerators_t)
          (metrics0 : list metric_t) (nBitmaps : Z) (bitmapOffsets : list Z)
          (buffer : list byte8) (g1 : globals),
     read_glyph_sections minimal_after_header
     = Ok ((props, acc, metrics0, (nBitmaps, bitmapOffsets, buffer)), g1) /\
     (1 <= length metrics0)%nat /\
     length (d_metrics (fst minimal_sections)) = length metrics0 /\
     d_bitmaps (fst minimal_sections) = buffer /\
     forall (i : nat) (m : metric_t),
       d_metrics (fst minimal_sections) !! i = Some m ->
       exists off : Z,
         bitmapOffsets !! i = Some off /\ bitmaps m = Some off /\
         0 <= off < 2 ^ 32) /\
  (forall (props : list props_t.t) (ms ms' : list metric_t) (h h' : globals),
     read_swidths props ms h = Ok (ms', h') ->
     map bitmaps ms' = map bitmaps ms) /\
  (forall (ms ms' : list metric_t) (h h' : globals),
     read_glyph_names ms h = Ok (ms', h') ->
     map bitmaps ms' = map bitmaps ms).
Proof.
  apply (decoded_glyphs_have_bitmaps minimal_after_header (snd minimal_sections)
           (fst minimal_sections)).
  vm_compute. reflexivity.
Defined.

(** ** What the Swidths and Glyph Names steps leave alone *)

Lemma only_names_refl (ms : list metric_t) : only_names ms ms.
Proof.
  induction ms as [|m ms IH]; constructor; [|exact IH]. now destruct m.
Qed.

Lemma only_names_trans (ms1 ms2 ms3 : list metric_t) :
  only_names ms1 ms2 -> only_names ms2 ms3 -> only_names ms1 ms3.
Proof.
  unfold only_names. intros H12. revert ms3.
  induction H12 as [|m1 m2 l1 l2 E12 _ IH]; intros ms3 H23.
  - inversion H23. constructor.
  - inversion H23 as [|m2' m3 l2' l3 E23 H23']; subst m2' l2' ms3.
    constructor; [|apply IH, H23'].
    rewrite E23. rewrite E12. reflexivity.
Qed.

Lemma read_swidths_loop_only (metrics : list metric_t) :
  forall (g g' : globals) (ms : list metric_t),
    read_swidths_loop metrics g = Ok (ms, g') ->
    only_swidths metrics ms /\
    read_bytes g' = read_bytes g + 4 * Z.of_nat (length metrics).
Proof.
  induction metrics as [|m metrics IH]; intros g g' ms H; simpl in H.
  - apply ret_inv in H. destruct H as [-> ->]. split; [constructor|simpl; lia].
  - take_named H takes_read_int32 v.
    apply bind_inv in H. destruct H as (ms' & g2 & Hms & H).
    apply ret_inv in H. destruct H as [-> ->].
    destruct (IH _ _ _ Hms) as [Ho Hr].
    split; [constructor; [reflexivity|exact Ho]|].
    rewrite Hr. simpl. lia.
Qed.

Lemma read_glyph_name_offsets_only (metrics : list metric_t) :
  forall (g g' : globals) (ms : list metric_t),
    read_glyph_name_offsets metrics g = Ok (ms, g') ->
    only_names metrics ms.
Proof.
  induction metrics as [|m metrics IH]; intros g g' ms H; simpl in H.
  - apply ret_inv in H. destruct H as [-> _]. constructor.
  - apply bind_inv in H. destruct H as (v & g1 & _ & H).
    apply bind_inv in H. destruct H as (ms' & g2 & Hms & H).
    apply ret_inv in H. destruct H as [-> _].
    constructor; [reflexivity|exact (IH _ _ _ Hms)].
Qed.

Lemma resolve_glyph_names_only (blob : list byte8) (size : Z)
    (metrics : list metric_t) :
  forall ms : list metric_t,
    resolve_glyph_names blob size metrics = Ok ms ->
    only_names metrics ms /\
    Forall (fun m => exists s : string, glyphName m = sv_s s) ms /\
    Forall (fun m => sv_value (glyphName m) < size) metrics.
Proof.
  induction metrics as [|m metrics IH]; intros ms H; simpl in H.
  - injection H as <-. repeat split; constructor.
  - destruct (size <=? sv_value (glyphName m)) eqn:E; [discriminate H|].
    apply Z.leb_gt in E.
    destruct (resolve_glyph_names blob size metrics) as [ms'|e] eqn:Er;
      [|discriminate H].
    simpl in H. injection H as <-.
    destruct (IH _ eq_refl) as (Ho & Hs & Hlt).
    split; [|split].
    + constructor; [reflexivity|exact Ho].
    + constructor; [eexists; reflexivity|exact Hs].
    + constructor; assumption.
Qed.

(** X28.  The Swidths and Glyph Names steps touch their own member only.
    Whenever the Swidths step returns, the glyph array is the one it got
    with nothing but the [swidth] members changed, and with no Swidths
    section no byte of the input is read.  Whenever the Glyph Names
    step returns, nothing but the [glyphName] members changed; with no
    Glyph Names section the array is returned as it is (no glyph gets a
    name), and with one every glyph has a name string. *)
Theorem later_steps_frame (props : list props_t.t) (metrics ms : list metric_t)
    (g g' : globals) :
  (read_swidths props metrics g = Ok (ms, g') ->
   only_swidths metrics ms /\
   (is_exist_section PCF_SWIDTHS g = false -> g' = g)) /\
  (read_glyph_names metrics g = Ok (ms, g') ->
   only_names metrics ms /\
   (is_exist_section PCF_GLYPH_NAMES g = false -> ms = metrics /\ g' = g) /\
   (is_exist_section PCF_GLYPH_NAMES g = true ->
    Forall (fun m => exists s : string, glyphName m = sv_s s) ms)).
Proof.
  split.
  - unfold read_swidths. intros H.
    apply bind_inv in H. destruct H as (found & g1 & Hs & H).
    pose proof (seek_Ok _ _ _ _ Hs) as Hfind.
    unfold is_exist_section. rewrite existsb_find.
    destruct (find _ (tables g)) as [entry|].
    + destruct Hfind as (-> & _ & ->).
      apply bind_inv in H. destruct H as (f & g2 & _ & H).
      apply bind_inv in H. destruct H as (u & g3 & _ & H).
      destruct (negb (format32.id f =? PCF_DEFAULT_FORMAT)); [discriminate H|].
      apply bind_inv in H. destruct H as (n & g4 & _ & H).
      destruct (negb (n =? Z.of_nat (length metrics))); [discriminate H|].
      destruct (read_swidths_loop_only _ _ _ _ H) as [Ho _].
      split; [exact Ho|discriminate].
    + destruct Hfind as (-> & ->).
      apply lift_result_inv in H. destruct H as [H ->].
      split; [|reflexivity].
      unfold compute_swidths in H.
      destruct (swidth_resolution props) as [rx|e]; [|discriminate H].
      simpl in H.
      destruct (get_property_value props "POINT_SIZE") as [ps|e]; [|discriminate H].
      simpl in H. injection H as <-.
      unfold only_swidths. clear.
      induction metrics as [|m metrics IH]; constructor; [reflexivity|exact IH].
  - unfold read_glyph_names. intros H.
    apply bind_inv in H. destruct H as (found & g1 & Hs & H).
    pose proof (seek_Ok _ _ _ _ Hs) as Hfind.
    unfold is_exist_section. rewrite existsb_find.
    destruct (find _ (tables g)) as [entry|].
    + destruct Hfind as (-> & _ & ->).
      apply bind_inv in H. destruct H as (f & g2 & _ & H).
      apply bind_inv in H. destruct H as (u & g3 & _ & H).
      destruct (negb (format32.id f =? PCF_DEFAULT_FORMAT)); [discriminate H|].
      apply bind_inv in H. destruct H as (n & g4 & _ & H).
      destruct (negb (n =? Z.of_nat (length metrics))); [discriminate H|].
      apply bind_inv in H. destruct H as (ms1 & g5 & H1 & H).
      apply read_glyph_name_offsets_only in H1.
      apply bind_inv in H. destruct H as (size & g6 & _ & H).
      apply bind_inv in H. destruct H as (u' & g7 & _ & H).
      apply bind_inv in H. destruct H as (u'' & g7' & _ & H).
      apply bind_inv in H. destruct H as (blob & g8 & _ & H).
      apply lift_result_inv in H. destruct H as [H _].
      destruct (resolve_glyph_names_only _ _ _ _ H) as (Ho & Hstr & _).
      split; [exact (only_names_trans _ _ _ H1 Ho)|].
      split; [discriminate|]. intros _. exact Hstr.
    + destruct Hfind as (-> & ->).
      apply ret_inv in H. destruct H as [-> ->].
      split; [apply only_names_refl|].
      split; [auto|discriminate].
Qed.

(** ** Row stride *)

Lemma padded_bytes_covers (bits k : Z) :
  In k [0; 1; 2; 3] -> 0 <= bits ->
  bits <= 8 * padded_bytes bits k < bits + 8 * 2 ^ k.
Proof.
  unfold padded_bytes. simpl.
  intros [<-|[<-|[<-|[<-|[]]]]] Hb; simpl Z.pow; simpl Z.mul;
    rewrite Z.div_div by lia; simpl Z.mul;
    Z.div_mod_to_equations; lia.
Qed.

(** X26.  The row stride covers the row.  For a pad of 1, 2, 4 or 8 bytes
    and a non-negative bit count that fits the [int16] return type,
    [bytesPerRow] is the least multiple of the pad whose bytes hold
    [bits] bits; for any other pad it is 0.  So for every glyph of
    non-negative width and every format, [widthBytes] is at least the
    number of ink bytes [(widthBits + 7) / 8] the emitter prints per
    row. *)
Theorem bytesPerRow_covers (bits pad : Z) (m : metric_t) (f : format32.t) :
  0 <= bits -> bits + 8 * pad <= 2 ^ 18 ->
  0 <= widthBits m -> 0 <= format32.glyph f <= 3 ->
  (In pad [1; 2; 4; 8] ->
   bits <= 8 * bytesPerRow bits pad < bits + 8 * pad) /\
  (~ In pad [1; 2; 4; 8] -> bytesPerRow bits pad = 0) /\
  widthBits m <= 8 * widthBytes m f < widthBits m + 8 * 2 ^ format32.glyph f /\
  Z.quot (widthBits m + 7) 8 <= widthBytes m f.
Proof.
  intros Hb Hlim Hw Hg.
  assert (Hcover : forall b k, In k [0; 1; 2; 3] -> 0 <= b ->
            b + 8 * 2 ^ k <= 2 ^ 18 ->
            b <= 8 * bytesPerRow b (2 ^ k) < b + 8 * 2 ^ k).
  { intros b k Hk Hb0 Hl.
    rewrite bytesPerRow_pow2 by exact Hk.
    rewrite to_int16_id
      by (unfold in_int16; pose proof (padded_bytes_bounds b k Hk Hb0 Hl); lia).
    apply padded_bytes_covers; assumption. }
  split; [|split].
  - intros Hpad. destruct (pad_is_pow2 pad Hpad) as (k & Hk & ->).
    apply Hcover; assumption.
  - intros Hpad. unfold bytesPerRow.
    destruct (Z.eqb_spec pad 1) as [->|_]; [exfalso; apply Hpad; simpl; auto|].
    destruct (Z.eqb_spec pad 2) as [->|_]; [exfalso; apply Hpad; simpl; auto|].
    destruct (Z.eqb_spec pad 4) as [->|_]; [exfalso; apply Hpad; simpl; auto|].
    destruct (Z.eqb_spec pad 8) as [->|_]; [exfalso; apply Hpad; simpl; auto 6|].
    reflexivity.
  - assert (Hk : In (format32.glyph f) [0; 1; 2; 3]) by (simpl; lia).
    assert (Hwr : widthBits m <= 32767).
    { unfold widthBits. pose proof (to_int16_range (rightSideBearing m - leftSideBearing m)) as Hr.
      unfold in_int16 in Hr. lia. }
    assert (Hp : 2 ^ format32.glyph f <= 8).
    { change 8 with (2 ^ 3). apply Z.pow_le_mono_r; lia. }
    assert (Hl : widthBits m + 8 * 2 ^ format32.glyph f <= 2 ^ 18)
      by (change (2 ^ 18) with 262144; lia).
    pose proof (Hcover (widthBits m) (format32.glyph f) Hk Hw Hl) as Hc.
    assert (Ew : widthBytes m f = bytesPerRow (widthBits m) (2 ^ format32.glyph f)).
    { unfold widthBytes. rewrite Z.shiftl_1_l.
      apply to_int16_id. unfold in_int16. lia. }
    rewrite Ew. split; [exact Hc|].
    rewrite Z.quot_div_nonneg by lia.
    destruct Hc as [Hc _]. revert Hc.
    generalize (bytesPerRow (widthBits m) (2 ^ format32.glyph f)).
    intros B HB. Z.div_mod_to_equations. lia.
Qed.

Lemma bytesPerRow_covers_witness :
  (In 4 [1; 2; 4; 8] -> 12 <= 8 * bytesPerRow 12 4 < 12 + 8 * 4) /\
  (~ In 4 [1; 2; 4; 8] -> bytesPerRow 12 4 = 0) /\
  widthBits sample_glyph <= 8 * widthBytes sample_glyph sample_format
    < widthBits sample_glyph + 8 * 2 ^ format32.glyph sample_format /\
  Z.quot (widthBits sample_glyph + 7) 8 <= widthBytes sample_glyph sample_format.
Proof.
  apply (bytesPerRow_covers 12 4 sample_glyph sample_format).
  - lia.
  - vm_compute. discriminate.
  - vm_compute. discriminate.
  - simpl. lia.
Defined.

(** ** From the input file to the font entry *)

Lemma emit_glyphs_Ok (f : format32.t) (buffer : list byte8)
    (metrics : list metric_t) (enc : encodings_t) (cells : list Z) :
  forall (i : Z) (entries : list glyph_entry),
    emit_glyphs f buffer metrics enc cells i = Ok entries ->
    map charcode entries = valid_keys enc cells i /\
    Z.of_nat (length entries) = count_valid cells.
Proof.
  induction cells as [|e cells IH]; intros i entries H; simpl in H.
  - injection H as <-. split; reflexivity.
  - cbn [valid_keys count_valid].
    destruct (e =? NO_SUCH_CHAR).
    + destruct (IH _ _ H) as [Hk Hl]. split; [exact Hk|lia].
    + destruct (negb (e <? Z.of_nat (length metrics))); [discriminate H|].
      destruct (emit_glyphs f buffer metrics enc cells (i + 1)) as [rest|err] eqn:Er;
        [|discriminate H].
      simpl in H. injection H as <-.
      destruct (IH _ _ Er) as [Hk Hl].
      cbn [map charcode length]. rewrite Hk. split; [reflexivity|lia].
Qed.

Lemma valid_keys_range (enc : encodings_t) (cells : list Z) :
  forall i : Z, Forall (fun k => 0 <= k <= 65535) (valid_keys enc cells i).
Proof.
  induction cells as [|e cells IH]; intros i; simpl; [constructor|].
  destruct (e =? NO_SUCH_CHAR); [apply IH|].
  constructor; [|apply IH].
  unfold cell_charcode. apply to_uint16_range.
Qed.

Lemma read_encodings_count (g g' : globals) (enc : encodings_t) :
  read_encodings g = Ok (enc, g') ->
  nValidEncodings enc = count_valid (encodings enc).
Proof.
  unfold read_encodings. intros H.
  apply bind_inv in H. destruct H as (f & g1 & _ & H).
  apply bind_inv in H. destruct H as (u & g2 & _ & H).
  destruct (negb (format32.id f =? PCF_DEFAULT_FORMAT)); [discriminate H|].
  do 5 (apply bind_inv in H; destruct H as (? & ? & _ & H); cbv zeta in H).
  destruct (negb (_ <=? _)); [discriminate H|].
  destruct (negb (_ <=? _)); [discriminate H|].
  apply bind_inv in H. destruct H as (u' & g2' & _ & H).
  apply bind_inv in H. destruct H as (cells & g3 & Hcells & H).
  apply ret_inv in H. destruct H as [-> _].
  destruct (read_encodings_loop_Ok _ _ _ _ _ Hcells) as (_ & _ & Hcount & _).
  simpl. rewrite Hcount. lia.
Qed.

(** The shape of what [read_sections] hands to the emitter. *)
Lemma read_sections_shape (g g' : globals) (d : decoded) :
  read_sections g = Ok (d, g') ->
  d_metrics d <> [] /\
  nValidEncodings (d_encodings d) = count_valid (encodings (d_encodings d)).
Proof.
  unfold read_sections. intros H.
  apply bind_inv in H. destruct H as (s & gs & Hs & H).
  apply read_glyph_sections_inv in Hs.
  destruct Hs as (g1 & g2 & g3 & g4 & g5 & g6 & u1 & u4 & u6
                  & _ & _ & _ & _ & Hm & _ & _).
  apply read_metrics_pos in Hm.
  cbv zeta in H.
  apply bind_inv in H. destruct H as (u8 & g8 & _ & H).
  apply bind_inv in H. destruct H as (enc & g9 & He & H).
  apply read_encodings_count in He.
  apply bind_inv in H. destruct H as (ms1 & g10 & H1 & H).
  apply read_swidths_bitmaps in H1.
  apply bind_inv in H. destruct H as (ms2 & g11 & H2 & H).
  apply read_glyph_names_bitmaps in H2.
  apply bind_inv in H. destruct H as (acc' & g12 & _ & H).
  apply ret_inv in H. destruct H as [-> _]. simpl.
  split; [|exact He].
  intros ->.
  assert (E : length (map bitmaps (@nil metric_t))
              = length (assign_bitmaps (snd (fst s)) (snd (fst (snd s)))))
    by (rewrite H2, H1, length_map; reflexivity).
  rewrite assign_bitmaps_length in E. simpl in E. lia.
Qed.

Lemma write_font_Ok (path : string) (d : decoded) (g g' : globals)
    (font : font_entry) :
  write_font path d g = Ok (font, g') ->
  d_metrics d <> [] ->
  g' = g /\
  font_name font = path /\
  (exists ps : Z,
     get_property_value (d_props d) "POINT_SIZE" = Ok ps /\
     PointSize font = Z.quot ps 10) /\
  emitted_box (d_metrics d) = Some (Width font, Height font) /\
  emit_glyphs (format g) (d_bitmaps d) (d_metrics d) (d_encodings d)
    (encodings (d_encodings d)) 0 = Ok (Glyphs font).
Proof.
  unfold write_font. intros H Hne.
  apply lift_result_inv in H. destruct H as [H ->].
  split; [reflexivity|].
  destruct (get_property_value (d_props d) "POINT_SIZE") as [ps|e];
    [|discriminate H].
  simpl in H.
  destruct (emit_glyphs _ _ _ _ _ 0) as [glyphs|e]; [|discriminate H].
  simpl in H.
  destruct (emitted_box (d_metrics d)) as [box|] eqn:Ebox.
  - injection H as <-. simpl. destruct box.
    repeat split; eauto.
  - exfalso. destruct (d_metrics d); [contradiction|discriminate Ebox].
Qed.

(** X27.  The font entry.  Whenever [main] gets through an input, the
    header and the sections of that input have decoded, and the entry it
    prints is named by the whole input path, its point size is the
    POINT_SIZE property of the input divided by 10 toward zero, its width
    and height are those of the font box over the decoded glyphs, and its
    glyphs are the ones the glyph loop prints for the decoded sections:
    exactly as many as the Encodings decoder counted valid cells, keyed by
    the non-sentinel cells in cell order, every key a 16-bit value. *)
Theorem pcf2go_entry (path : string) (gzip_out : option (list byte8))
    (ofp_opened : bool) (g g' : globals) (font : font_entry) :
  pcf2go path gzip_out ofp_opened g = Ok (font, g') ->
  exists (d : decoded) (g1 : globals),
    read_header (Some path) gzip_out ofp_opened g = Ok (tt, g1) /\
    read_sections g1 = Ok (d, g') /\
    font_name font = path /\
    (exists ps : Z,
       get_property_value (d_props d) "POINT_SIZE" = Ok ps /\
       PointSize font = Z.quot ps 10) /\
    emitted_box (d_metrics d) = Some (Width font, Height font) /\
    emit_glyphs (format g') (d_bitmaps d) (d_metrics d) (d_encodings d)
      (encodings (d_encodings d)) 0 = Ok (Glyphs font) /\
    Z.of_nat (length (Glyphs font)) = nValidEncodings (d_encodings d) /\
    map charcode (Glyphs font)
    = valid_keys (d_encodings d) (encodings (d_encodings d)) 0 /\
    Forall (fun k => 0 <= k <= 65535) (map charcode (Glyphs font)).
Proof.
  unfold pcf2go. intros H.
  apply bind_inv in H. destruct H as (u & g1 & Hh & H).
  apply bind_inv in H. destruct H as (d & g2 & Hd & H).
  destruct (read_sections_shape _ _ _ Hd) as [Hne Hcount].
  destruct (write_font_Ok _ _ _ _ _ H Hne) as (-> & Hname & Hps & Hbox & Hg).
  destruct (emit_glyphs_Ok _ _ _ _ _ _ _ Hg) as [Hk Hl].
  destruct u.
  exists d, g1. repeat split; try assumption.
  - rewrite Hcount. exact Hl.
  - rewrite Hk. apply valid_keys_range.
Qed.

Lemma pcf2go_entry_witness :
  exists (d : decoded) (g1 : globals),
    read_header (Some "A.pcf"%string) None true minimal_start = Ok (tt, g1) /\
    read_sections g1 = Ok (d, snd minimal_entry) /\
    font_name (fst minimal_entry) = "A.pcf"%string /\
    (exists ps : Z,
       get_property_value (d_props d) "POINT_SIZE" = Ok ps /\
       PointSize (fst minimal_entry) = Z.quot ps 10) /\
    emitted_box (d_metrics d)
    = Some (Width (fst minimal_entry), Height (fst minimal_entry)) /\
    emit_glyphs (format (snd minimal_entry)) (d_bitmaps d) (d_metrics d)
      (d_encodings d) (encodings (d_encodings d)) 0
    = Ok (Glyphs (fst minimal_entry)) /\
    Z.of_nat (length (Glyphs (fst minimal_entry)))
    = nValidEncodings (d_encodings d) /\
    map charcode (Glyphs (fst minimal_entry))
    = valid_keys (d_encodings d) (encodings (d_encodings d)) 0 /\
    Forall (fun k => 0 <= k <= 65535) (map charcode (Glyphs (fst minimal_entry))).
Proof.
  apply (pcf2go_entry "A.pcf" None true minimal_start (snd minimal_entry)
           (fst minimal_entry)).
  vm_compute. reflexivity.
Defined.

(** The entry of the minimal font: one glyph, code 65, eight rows of one
    byte, and the whole file read. *)
Example minimal_font_entry :
  pcf2go "A.pcf" None true minimal_start
  = Ok (mk_font "A.pcf" 10 8 8
          [mk_glyph 65 None 8 (8, 8) (0, -1)
             (Some ["0xFF"; "0xFF"; "0xFF"; "0xFF";
                    "0xFF"; "0xFF"; "0xFF"; "0xFF"]%string)],
        mk_globals [] 234 BDF_format minimal_tables).
Proof. vm_compute. reflexivity. Qed.
